(** * PHP workspace symbol index of the editor extension: model and properties

    The extension (extension.js) keeps a file-partitioned symbol index that
    is filled by regular-expression scans of PHP text.  This development
    embeds the index operations, the regular expressions and the string
    helpers they rely on as executable Rocq functions, and proves the
    properties stated for them.

    Text is a [string] whose characters stand for code units 0..255; every
    pattern of the source only inspects such units.  Offsets are [nat]. *)

From stdpp Require Import base option list gmap strings.
From Stdlib Require Import String Ascii ZArith NArith Lia Bool.

Local Open Scope string_scope.
Local Open Scope list_scope.

(** ** Characters and character classes *)

Module Chars.

Definition code (c : ascii) : N := N_of_ascii c.

Definition between (lo hi : N) (c : ascii) : bool :=
  ((lo <=? code c) && (code c <=? hi))%N.

(** equality of two units, given up at the first bit that differs *)
Definition same (a b : ascii) : bool :=
  match a, b with
  | Ascii a0 a1 a2 a3 a4 a5 a6 a7, Ascii b0 b1 b2 b3 b4 b5 b6 b7 =>
      if Bool.eqb a0 b0 then
        if Bool.eqb a1 b1 then
          if Bool.eqb a2 b2 then
            if Bool.eqb a3 b3 then
              if Bool.eqb a4 b4 then
                if Bool.eqb a5 b5 then
                  if Bool.eqb a6 b6 then Bool.eqb a7 b7 else false
                else false
              else false
            else false
          else false
        else false
      else false
  end.

Definition isC (d : ascii) (c : ascii) : bool := same c d.

Definition lineFeed (c : ascii) : bool :=
  match c with "010"%char => true | _ => false end.

Definition carriageReturn (c : ascii) : bool :=
  match c with "013"%char => true | _ => false end.

Definition upper (c : ascii) : bool := between 65 90 c.
Definition lower (c : ascii) : bool := between 97 122 c.
Definition digit (c : ascii) : bool := between 48 57 c.
Definition high (c : ascii) : bool := between 128 255 c.

(** [\w] *)
Definition word (c : ascii) : bool := upper c || lower c || digit c || isC "_" c.

(** [\s]: tab, line feed, vertical tab, form feed, carriage return, space,
    no-break space (the white space and line terminators below 256). *)
Definition space (c : ascii) : bool := between 9 13 c || isC " " c || (code c =? 160)%N.

(** Line terminators below 256: line feed and carriage return. *)
Definition newline (c : ascii) : bool := lineFeed c || carriageReturn c.

(** [[A-Za-z_\x80-\xff]] and [[\w\x80-\xff]] *)
Definition identStart (c : ascii) : bool := upper c || lower c || isC "_" c || high c.
Definition identChar (c : ascii) : bool := word c || high c.

(** [[\\A-Za-z_\x80-\xff]] and [[\\\w\x80-\xff]] *)
Definition nameStart (c : ascii) : bool := isC "\" c || identStart c.
Definition nameChar (c : ascii) : bool := isC "\" c || identChar c.

Definition toLower (c : ascii) : ascii :=
  if upper c then ascii_of_N (code c + 32) else c.
Definition toUpper (c : ascii) : ascii :=
  if lower c then ascii_of_N (code c - 32) else c.

(** Comparison of two units under the [i] flag. *)
Definition eqi (d c : ascii) : bool := Ascii.eqb (toLower c) (toLower d).

End Chars.

(** ** String helpers with the meaning of their JavaScript namesakes

    Indices are integers, [-1] standing for no occurrence. *)

Module Js.

Fixpoint startsWith (p s : string) : bool :=
  match p with
  | EmptyString => true
  | String a p' =>
      match s with
      | String b s' => Ascii.eqb a b && startsWith p' s'
      | EmptyString => false
      end
  end.

Fixpoint drop (n : nat) (s : string) : string :=
  match n, s with
  | S n', String _ s' => drop n' s'
  | _, _ => s
  end.

Fixpoint take (n : nat) (s : string) : string :=
  match n, s with
  | S n', String c s' => String c (take n' s')
  | _, _ => EmptyString
  end.

(** the offset an argument of [slice] denotes: negative ones count from the
    end, all are clamped to the string *)
Definition clampIndex (len : nat) (z : Z) : nat :=
  if (z <? 0)%Z then Z.to_nat (Z.max 0 (Z.of_nat len + z))
  else Nat.min (Z.to_nat z) len.

(** [s.slice(a, b)]; without a negative argument the length of [s] is not
    needed *)
Definition slice (a b : Z) (s : string) : string :=
  if (a <? 0)%Z || (b <? 0)%Z then
    let from := clampIndex (String.length s) a in
    let to := clampIndex (String.length s) b in
    take (to - from) (drop from s)
  else take (Z.to_nat b - Z.to_nat a) (drop (Z.to_nat a) s).

(** [s.slice(a)] *)
Definition sliceFrom (a : Z) (s : string) : string :=
  if (a <? 0)%Z then drop (clampIndex (String.length s) a) s
  else drop (Z.to_nat a) s.

(** first occurrence of [p] in [s], counted from [i] for the head of [s] *)
Fixpoint indexOfAux (p s : string) (i : nat) : Z :=
  if startsWith p s then Z.of_nat i
  else match s with
       | EmptyString => (-1)%Z
       | String _ s' => indexOfAux p s' (S i)
       end.

(** [s.indexOf(p, from)] for [0 <= from] *)
Definition indexOf (p : string) (from : nat) (s : string) : Z :=
  if (String.length s <? from)%nat then
    (if String.eqb p "" then Z.of_nat (String.length s) else (-1)%Z)
  else indexOfAux p (drop from s) from.

(** last occurrence of [p] in [s] *)
Fixpoint lastIndexOfAux (p s : string) (i : nat) (found : Z) : Z :=
  let found' := if startsWith p s then Z.of_nat i else found in
  match s with
  | EmptyString => found'
  | String _ s' => lastIndexOfAux p s' (S i) found'
  end.

(** [s.lastIndexOf(p)] *)
Definition lastIndexOf (p s : string) : Z := lastIndexOfAux p s 0 (-1)%Z.

(** [s.lastIndexOf(p, from)]: the last occurrence starting at or before
    [from]; a negative [from] counts as 0 *)
Definition lastIndexOfFrom (p : string) (from : Z) (s : string) : Z :=
  lastIndexOfAux p (take (Z.to_nat from + String.length p) s) 0 (-1)%Z.

Definition includes (p s : string) : bool := (0 <=? indexOf p 0 s)%Z.

Definition endsWith (p s : string) : bool :=
  (String.length p <=? String.length s)%nat &&
  String.eqb (drop (String.length s - String.length p) s) p.

(** [s.split(sep)] for a non-empty separator; [skip] counts the units of a
    separator still to be passed over *)
Fixpoint splitAux (sep : string) (skip : nat) (s cur : string) : list string :=
  match s with
  | EmptyString => [cur]
  | String c s' =>
      match skip with
      | S k => splitAux sep k s' cur
      | O =>
          if startsWith sep s
          then cur :: splitAux sep (String.length sep - 1) s' ""
          else splitAux sep 0 s' (cur ++ String c "")
      end
  end.

Definition split (sep s : string) : list string := splitAux sep 0 s "".

(** [xs.pop()] on the result of a split: its last element *)
Definition pop (xs : list string) : string := List.last xs "".

Fixpoint trimStart (s : string) : string :=
  match s with
  | String c s' => if Chars.space c then trimStart s' else s
  | EmptyString => EmptyString
  end.

Fixpoint rev (s acc : string) : string :=
  match s with
  | EmptyString => acc
  | String c s' => rev s' (String c acc)
  end.

Definition trimEnd (s : string) : string := rev (trimStart (rev s "")) "".

Definition trim (s : string) : string := trimEnd (trimStart s).

Fixpoint mapChars (f : ascii -> ascii) (s : string) : string :=
  match s with
  | EmptyString => EmptyString
  | String c s' => String (f c) (mapChars f s')
  end.

(** [s.toUpperCase()] on the letters [a] to [z]; the host also maps some
    units above [0x7F], which are left as they are here, so only what holds
    for every candidate key is relied on *)
Definition toUpperCase : string -> string := mapChars Chars.toUpper.

(** [xs.join(sep)] *)
Fixpoint join (sep : string) (xs : list string) : string :=
  match xs with
  | [] => ""
  | [x] => x
  | x :: rest => x ++ sep ++ join sep rest
  end.

(** truthiness of a string *)
Definition truthy (s : string) : bool := negb (String.eqb s "").

(** [a || b] on strings *)
Definition orElse (a b : string) : string := if truthy a then a else b.

End Js.

(** ** Regular expressions

    The patterns of the source use literals, classes, grouping with and
    without capture, alternation, greedy and lazy repetition, back
    references, [\b], [^] and [$].  [run] lists every way a pattern can match
    at a cursor in backtracking priority order, so the match found by the
    JavaScript engine is the head of that list.  In the comments that quote a
    pattern of the source, ID stands for [[A-Za-z_\x80-\xff][\w\x80-\xff]*]
    and QN for [[\\A-Za-z_\x80-\xff][\\\w\x80-\xff]*]. *)

Module Re.

Inductive re : Type :=
  | Eps
  | Chr (p : ascii -> bool)
  | Seq (a b : re)
  | Alt (a b : re)
  | Star (greedy : bool) (a : re)
  | Grp (n : nat) (a : re)
  | Bref (n : nat)
  | WordB
  | Bol (multiline : bool)
  | Eol (multiline : bool).

(** A cursor into the subject: offset, the unit before it, the units from it
    on, and the captures made so far. *)
Record cursor : Type := Cursor {
  pos : N;
  prev : option ascii;
  rest : string;
  caps : list (nat * string)
}.

Definition start (s : string) : cursor := Cursor 0 None s [].

Definition capture (n : nat) (cs : list (nat * string)) : string :=
  match List.find (fun e => Nat.eqb (fst e) n) cs with
  | Some e => snd e
  | None => ""
  end.

Definition isWordOpt (o : option ascii) : bool :=
  match o with Some c => Chars.word c | None => false end.

Definition next (c : cursor) : option ascii :=
  match rest c with String a _ => Some a | EmptyString => None end.

Definition step (c : cursor) : list cursor :=
  match rest c with
  | String a t => [Cursor (N.succ (pos c)) (Some a) t (caps c)]
  | EmptyString => []
  end.

(** the text between two cursors of one subject *)
Definition between (c e : cursor) : string :=
  Js.take (N.to_nat (pos e - pos c)) (rest c).

(** consume the literal [lit] *)
Fixpoint eat (lit : string) (c : cursor) : list cursor :=
  match lit with
  | EmptyString => [c]
  | String a lit' =>
      match rest c with
      | String b t =>
          if Ascii.eqb a b
          then eat lit' (Cursor (N.succ (pos c)) (Some b) t (caps c))
          else []
      | EmptyString => []
      end
  end.

(** The iterations of a repetition whose body matches as [body] does.  An
    iteration that consumes nothing is rejected, so [fuel] above the number
    of remaining units is never exhausted. *)
Fixpoint iterate (body : cursor -> list cursor) (greedy : bool) (fuel : nat) (c : cursor)
  {struct fuel} : list cursor :=
  match fuel with
  | O => [c]
  | S fuel' =>
      let more :=
        flat_map (fun c' => if (pos c <? pos c')%N
                            then iterate body greedy fuel' c' else [])
                 (body c) in
      if greedy then more ++ [c] else c :: more
  end.

(** [bound] limits the iterations of every repetition; any number above the
    length of the subject leaves them unlimited. *)
Fixpoint run (bound : nat) (r : re) (c : cursor) {struct r} : list cursor :=
  match r with
  | Eps => [c]
  | Chr p =>
      match next c with
      | Some a => if p a then step c else []
      | None => []
      end
  | Seq a b => flat_map (run bound b) (run bound a c)
  | Alt a b => run bound a c ++ run bound b c
  | Star greedy a => iterate (run bound a) greedy bound c
  | Grp n a =>
      List.map (fun c' =>
             Cursor (pos c') (prev c') (rest c') ((n, between c c') :: caps c'))
          (run bound a c)
  | Bref n => eat (capture n (caps c)) c
  | WordB => if xorb (isWordOpt (prev c)) (isWordOpt (next c)) then [c] else []
  | Bol multiline =>
      match prev c with
      | None => [c]
      | Some a => if multiline && Chars.newline a then [c] else []
      end
  | Eol multiline =>
      match next c with
      | None => [c]
      | Some a => if multiline && Chars.newline a then [c] else []
      end
  end.

(** Derived forms *)
Definition Opt (a : re) : re := Alt a Eps.               (* a?  *)
Definition Plus (a : re) : re := Seq a (Star true a).    (* a+  *)
Definition Any : re := Chr (fun _ => true).              (* [\s\S] *)
Definition Dot : re := Chr (fun c => negb (Chars.newline c)).
Definition Sp : re := Chr Chars.space.                   (* \s *)
Definition C (d : ascii) : re := Chr (Chars.isC d).
Definition Ci (d : ascii) : re := Chr (Chars.eqi d).
Definition Not (p : ascii -> bool) : re := Chr (fun c => negb (p c)).

Fixpoint Lit (s : string) : re :=
  match s with
  | EmptyString => Eps
  | String a EmptyString => C a
  | String a s' => Seq (C a) (Lit s')
  end.

Fixpoint LitI (s : string) : re :=
  match s with
  | EmptyString => Eps
  | String a EmptyString => Ci a
  | String a s' => Seq (Ci a) (LitI s')
  end.

Fixpoint seqs (rs : list re) : re :=
  match rs with
  | [] => Eps
  | [r] => r
  | r :: rs' => Seq r (seqs rs')
  end.

Fixpoint alts (rs : list re) : re :=
  match rs with
  | [] => Chr (fun _ => false)
  | [r] => r
  | r :: rs' => Alt r (alts rs')
  end.

(** The result of a successful match: [index], the matched text [m0], the
    captures, and the cursor just after the match. *)
Record result : Type := Result {
  index : nat;
  m0 : string;
  groups : list (nat * string);
  after : cursor
}.

Definition group (n : nat) (m : result) : string := capture n (groups m).

Definition matchAt (bound : nat) (r : re) (c : cursor) : option result :=
  match run bound r (Cursor (pos c) (prev c) (rest c) []) with
  | e :: _ =>
      Some (Result (N.to_nat (pos c)) (between c e) (caps e)
                   (Cursor (pos e) (prev e) (rest e) []))
  | [] => None
  end.

(** leftmost match at or after the cursor *)
Fixpoint searchFrom (bound : nat) (r : re) (p : N) (pv : option ascii) (s : string)
  {struct s} : option result :=
  match matchAt bound r (Cursor p pv s []) with
  | Some m => Some m
  | None =>
      match s with
      | EmptyString => None
      | String a s' => searchFrom bound r (N.succ p) (Some a) s'
      end
  end.

Definition search (bound : nat) (r : re) (c : cursor) : option result :=
  searchFrom bound r (pos c) (prev c) (rest c).

(** the bound used for a subject *)
Definition boundFor (s : string) : nat := S (String.length s).

(** [re.exec(s)] without [g], [s.match(re)], and [re.test(s)] *)
Definition exec (r : re) (s : string) : option result :=
  search (boundFor s) r (start s).
Definition test (r : re) (s : string) : bool :=
  match exec r s with Some _ => true | None => false end.

(** The successive results of [while ((m = re.exec(s)))] for a [g] pattern:
    each search resumes at [lastIndex], the end of the previous match. *)
Fixpoint execLoop (fuel bound : nat) (r : re) (c : cursor) : list result :=
  match fuel with
  | O => []
  | S fuel' =>
      match search bound r c with
      | Some m => m :: execLoop fuel' bound r (after m)
      | None => []
      end
  end.

Definition execAll (r : re) (s : string) : list result :=
  execLoop (boundFor s) (boundFor s) r (start s).

(** [s.replace(re, by)] for a [g] pattern and a literal replacement *)
Fixpoint replaceLoop (fuel bound : nat) (r : re) (by_ : string) (c : cursor) : string :=
  match fuel with
  | O => rest c
  | S fuel' =>
      match search bound r c with
      | Some m =>
          Js.take (index m - N.to_nat (pos c)) (rest c) ++ by_ ++
          (if (pos (after m) =? N.of_nat (index m))%N
           then match rest (after m) with
                | String a t =>
                    String a (replaceLoop fuel' bound r by_
                                (Cursor (N.succ (pos (after m))) (Some a) t []))
                | EmptyString => ""
                end
           else replaceLoop fuel' bound r by_ (after m))
      | None => rest c
      end
  end.

Definition replaceAll (r : re) (by_ : string) (s : string) : string :=
  replaceLoop (boundFor s) (boundFor s) r by_ (start s).

(** [s.replace(re, by)] without [g] *)
Definition replaceFirst (r : re) (by_ : string) (s : string) : string :=
  match exec r s with
  | Some m => Js.take (index m) s ++ by_ ++ rest (after m)
  | None => s
  end.

(** [s.split(re)] for a pattern that never matches the empty string *)
Fixpoint splitLoop (fuel bound : nat) (r : re) (c : cursor) : list string :=
  match fuel with
  | O => [rest c]
  | S fuel' =>
      match search bound r c with
      | Some m =>
          Js.take (index m - N.to_nat (pos c)) (rest c)
          :: splitLoop fuel' bound r (after m)
      | None => [rest c]
      end
  end.

Definition split (r : re) (s : string) : list string :=
  splitLoop (boundFor s) (boundFor s) r (start s).

End Re.

(** ** Notions used to state the properties of matching *)

Module ReSpec.
Import Re.

(** the cursor is at the end of the subject *)
Definition atEnd (c : cursor) : bool :=
  match rest c with EmptyString => true | String _ _ => false end.

(** no capture group [n] occurs in the pattern *)
Fixpoint untouched (n : nat) (r : re) : bool :=
  match r with
  | Grp k a => negb (Nat.eqb k n) && untouched n a
  | Seq a b | Alt a b => untouched n a && untouched n b
  | Star _ a => untouched n a
  | _ => true
  end.

(** a sequence in which capture group [n] is put around [x] and is not set
    again after it *)
Inductive Captures (n : nat) (x : re) : re -> Prop :=
  | captures_here : Captures n x (Grp n x)
  | captures_later a r : Captures n x r -> Captures n x (Seq a r)
  | captures_before r b :
      Captures n x r -> untouched n b = true -> Captures n x (Seq r b).

(** the offset and the unit before it once the units of [pre] are passed *)
Fixpoint passed (pre : string) (p : N) (pv : option ascii) : N * option ascii :=
  match pre with
  | EmptyString => (p, pv)
  | String a pre' => passed pre' (N.succ p) (Some a)
  end.

End ReSpec.

(** ** Documents, positions and locations of the editor API *)

Record Position : Type := mkPosition { line : nat; character : nat }.

Record Range : Type := mkRange { range_start : Position; range_end : Position }.

(** [new vscode.Location(uri, rangeOrPosition)]; a position stands for the
    empty range at it. *)
Record Location : Type := mkLocation { loc_uri : string; loc_range : Range }.

Definition locationAt (uri : string) (p : Position) : Location :=
  mkLocation uri (mkRange p p).

Record Document : Type := mkDocument {
  uri : string;          (* document.uri.toString() *)
  fsPath : string;       (* document.uri.fsPath *)
  languageId : string;
  getText : string
}.

Global Instance Position_eq_dec : EqDecision Position.
Proof. solve_decision. Defined.
Global Instance Range_eq_dec : EqDecision Range.
Proof. solve_decision. Defined.
Global Instance Location_eq_dec : EqDecision Location.
Proof. solve_decision. Defined.

Module Editor.

(** [document.positionAt(offset)]: lines end at LF, CRLF or CR; the offset
    is clamped to the text and the column to the line's own units. *)
Fixpoint positionAtAux (s : string) (n line col : nat) : Position :=
  match n, s with
  | S n', String c s' =>
      if Chars.lineFeed c then positionAtAux s' n' (S line) 0
      else if Chars.carriageReturn c then
        match s' with
        | String d _ =>
            if Chars.lineFeed d then positionAtAux s' n' line col
            else positionAtAux s' n' (S line) 0
        | EmptyString => positionAtAux s' n' (S line) 0
        end
      else positionAtAux s' n' line (S col)
  | _, _ => mkPosition line col
  end.

Definition positionAt (d : Document) (offset : Z) : Position :=
  positionAtAux (getText d) (Z.to_nat offset) 0 0.

(** end-of-line sequences: [\r\n|\r|\n] *)
Definition eolRe : Re.re :=
  Re.alts [Re.Lit (String "013" (String "010" "")); Re.C "013"; Re.C "010"].

Definition lines (d : Document) : list string := Re.split eolRe (getText d).

(** [document.lineAt(line).text] *)
Definition lineAt (d : Document) (l : nat) : string := nth l (lines d) "".

(** [document.offsetAt(position)] *)
Fixpoint offsetAtAux (s : string) (line col off : nat) : nat :=
  match s with
  | EmptyString => off
  | String c s' =>
      match line with
      | S line' =>
          if Chars.lineFeed c then offsetAtAux s' line' col (S off)
          else if Chars.carriageReturn c then
            match s' with
            | String d _ =>
                if Chars.lineFeed d then offsetAtAux s' line col (S off)
                else offsetAtAux s' line' col (S off)
            | EmptyString => offsetAtAux s' line' col (S off)
            end
          else offsetAtAux s' line col (S off)
      | O =>
          match col with
          | S col' =>
              if Chars.newline c then off else offsetAtAux s' O col' (S off)
          | O => off
          end
      end
  end.

Definition offsetAt (d : Document) (p : Position) : nat :=
  offsetAtAux (getText d) (line p) (character p) 0.

End Editor.

(** ** Lexical scanner: brace matching, namespace, aliases, doc comments,
    parameter lists *)

Module Scanner.
Import Re.

(** [[A-Za-z_\x80-\xff][\w\x80-\xff]*] *)
Definition ident : re := Seq (Chr Chars.identStart) (Star true (Chr Chars.identChar)).

(** [[\\A-Za-z_\x80-\xff][\\\w\x80-\xff]*] *)
Definition qualified : re := Seq (Chr Chars.nameStart) (Star true (Chr Chars.nameChar)).

(** [(class|interface|trait|enum)] as group [n] *)
Definition typeKeyword (n : nat) : re :=
  Grp n (alts [Lit "class"; Lit "interface"; Lit "trait"; Lit "enum"]).

Fixpoint findMatchingBraceAux (s : string) (i : nat) (depth : Z) : Z :=
  match s with
  | EmptyString => (-1)%Z
  | String ch s' =>
      if Chars.isC "{" ch then findMatchingBraceAux s' (S i) (depth + 1)
      else if Chars.isC "}" ch then
        (if (depth - 1 =? 0)%Z then Z.of_nat i
         else findMatchingBraceAux s' (S i) (depth - 1))
      else findMatchingBraceAux s' (S i) depth
  end.

(** [findMatchingBrace(text, startIndex)] for [0 <= startIndex] *)
Definition findMatchingBrace (text : string) (startIndex : Z) : Z :=
  findMatchingBraceAux (Js.drop (Z.to_nat startIndex) text) (Z.to_nat startIndex) 0.

(** [/^\s*namespace\s+([^;{]+)\s*[;{]/m] *)
Definition namespaceRe : re :=
  let stop c := Chars.isC ";" c || Chars.isC "{" c in
  seqs [Bol true; Star true Sp; Lit "namespace"; Plus Sp;
        Grp 1 (Plus (Not stop)); Star true Sp; Chr stop].

Definition getPhpNamespace (text : string) : string :=
  match exec namespaceRe text with
  | None => ""
  | Some m => Js.trim (group 1 m)
  end.

(** [/^\s*use\s+([^;]+);/gm] *)
Definition useRe : re :=
  seqs [Bol true; Star true Sp; Lit "use"; Plus Sp;
        Grp 1 (Plus (Not (Chars.isC ";"))); C ";"].

(** [/^(.* )\s+as\s+(ID)$/i], with ID for [ident] *)
Definition asRe : re :=
  seqs [Bol false; Grp 1 (Star true Dot); Plus Sp; LitI "as"; Plus Sp;
        Grp 2 ident; Eol false].

(** [/^\\+/] *)
Definition leadingBackslashes : re := Seq (Bol false) (Plus (C "\")).

Definition stripLeadingBackslashes (s : string) : string :=
  replaceFirst leadingBackslashes "" s.

Definition usePart (map : gmap string string) (part : string) : gmap string string :=
  let asMatch := exec asRe part in
  let fqn :=
    stripLeadingBackslashes
      (Js.trim (match asMatch with Some m => group 1 m | None => part end)) in
  let alias :=
    Js.trim (match asMatch with
             | Some m => group 2 m
             | None => Js.pop (Js.split "\" fqn)
             end) in
  if Js.truthy alias && Js.truthy fqn then <[alias := fqn]> map else map.

Definition useClause (map : gmap string string) (m : result) : gmap string string :=
  let clause := Js.trim (group 1 m) in
  if negb (Js.truthy clause) then map
  else if Js.startsWith "function " clause || Js.startsWith "const " clause then map
  else
    let parts := List.filter Js.truthy (List.map Js.trim (Js.split "," clause)) in
    fold_left usePart parts map.

Definition parsePhpUseAliases (text : string) : gmap string string :=
  fold_left useClause (execAll useRe text) ∅.

(** [/\bextends\s+(QN)/i], with QN for [qualified] *)
Definition extendsRe : re :=
  seqs [WordB; LitI "extends"; Plus Sp; Grp 1 qualified].

(** [/\bimplements\s+([^{]+)$/i] *)
Definition implementsRe : re :=
  seqs [WordB; LitI "implements"; Plus Sp;
        Grp 1 (Plus (Not (Chars.isC "{"))); Eol false].

(** [/\s*\{.*$/] *)
Definition trailingBraceRe : re :=
  seqs [Star true Sp; C "{"; Star true Dot; Eol false].

Definition parsePhpClassExtendsImplements (header : string) : list string * list string :=
  let extendsList :=
    match exec extendsRe header with
    | Some m => [Js.trim (group 1 m)]
    | None => []
    end in
  let implementsList :=
    match exec implementsRe header with
    | Some m =>
        List.map (fun s => Js.trim (replaceFirst trailingBraceRe "" s))
          (List.filter Js.truthy (List.map Js.trim (Js.split "," (group 1 m))))
    | None => []
    end in
  (extendsList, implementsList).

(** [/^\?/] *)
Definition leadingQuestion : re := Seq (Bol false) (C "?").

Definition resolvePhpTypeTokenToFqn
  (token namespace : string) (useAliases : gmap string string) : string :=
  let raw := Js.trim token in
  if negb (Js.truthy raw) then ""
  else
    let cleaned := stripLeadingBackslashes (replaceFirst leadingQuestion "" raw) in
    if Js.includes "\" cleaned then cleaned
    else
      let aliased :=
        match useAliases !! cleaned with
        | Some a => if Js.truthy a then a else cleaned
        | None => cleaned
        end in
      if Js.includes "\" aliased then stripLeadingBackslashes aliased
      else if Js.truthy namespace then namespace ++ "\" ++ aliased
      else aliased.

(** [/[^\s]/] *)
Definition nonSpaceRe : re := Not Chars.space.

Definition findPhpDocblockBeforeOffset (text : string) (offset : Z) : string :=
  let head := Js.slice 0 (Z.max 0 offset) text in
  let end_ := Js.lastIndexOf "*/" head in
  if (end_ =? -1)%Z then ""
  else
    let start_ := Js.lastIndexOfFrom "/**" end_ head in
    if (start_ =? -1)%Z then ""
    else
      let between := Js.sliceFrom (end_ + 2) head in
      if test nonSpaceRe between then ""
      else Js.slice start_ (end_ + 2) head.

(** the result of [parsePhpDocblock]: [params] is the object keyed by
    parameter name, [returns] the return type or the empty string *)
Record DocInfo : Type := mkDocInfo {
  params : gmap string string;
  returns : string
}.

(** [/@\s*(?:param|phpstan-param|psalm-param)\s+([^\s]+)\s+(\$ID)/i] *)
Definition paramTagRe : re :=
  seqs [C "@"; Star true Sp;
        alts [LitI "param"; LitI "phpstan-param"; LitI "psalm-param"];
        Plus Sp; Grp 1 (Plus (Not Chars.space)); Plus Sp;
        Grp 2 (Seq (C "$") ident)].

(** [/@\s*(?:return|phpstan-return|psalm-return)\s+([^\s]+)/i] *)
Definition returnTagRe : re :=
  seqs [C "@"; Star true Sp;
        alts [LitI "return"; LitI "phpstan-return"; LitI "psalm-return"];
        Plus Sp; Grp 1 (Plus (Not Chars.space))].

(** [/\r?\n/] *)
Definition lineBreakRe : re := Seq (Opt (C "013")) (C "010").

(** the body of the loop over the lines of a doc comment *)
Definition docLine (result : DocInfo) (line : string) : DocInfo :=
  let result1 :=
    match exec paramTagRe line with
    | Some paramMatch =>
        mkDocInfo (<[group 2 paramMatch := group 1 paramMatch]> (params result))
                  (returns result)
    | None => result
    end in
  match exec returnTagRe line with
  | Some returnMatch =>
      if negb (Js.truthy (returns result1))
      then mkDocInfo (params result1) (group 1 returnMatch)
      else result1
  | None => result1
  end.

Definition parsePhpDocblock (docblock : string) : DocInfo :=
  let result := mkDocInfo ∅ "" in
  if negb (Js.truthy docblock) then result
  else fold_left docLine (split lineBreakRe docblock) result.

(** [docParams[name] || ''] *)
Definition docParam (docParams : gmap string string) (name : string) : string :=
  default "" (docParams !! name).

(** *** [splitPhpParameters] *)

Record SplitState : Type := mkSplit {
  parts : list string;
  current : string;
  depthParen : nat;
  depthBracket : nat;
  depthBrace : nat;
  inSingle : bool;
  inDouble : bool;
  escape : bool
}.

Definition pushCh (ch : ascii) (s : string) : string := s ++ String ch "".

Definition splitStep (st : SplitState) (ch : ascii) : SplitState :=
  let '(mkSplit ps cur dp dk db sq dq esc) := st in
  if sq || dq then
    let cur' := pushCh ch cur in
    if esc then mkSplit ps cur' dp dk db sq dq false
    else if Chars.isC "\" ch then mkSplit ps cur' dp dk db sq dq true
    else
      let sq' := if sq && Chars.isC "'" ch then false else sq in
      let dq' := if dq && Chars.isC "034" ch then false else dq in
      mkSplit ps cur' dp dk db sq' dq' esc
  else if Chars.isC "'" ch then mkSplit ps (pushCh ch cur) dp dk db true dq esc
  else if Chars.isC "034" ch then mkSplit ps (pushCh ch cur) dp dk db sq true esc
  else
    let dp' := if Chars.isC "(" ch then S dp
               else if Chars.isC ")" ch then Nat.pred dp else dp in
    let dk' := if Chars.isC "(" ch || Chars.isC ")" ch then dk
               else if Chars.isC "[" ch then S dk
               else if Chars.isC "]" ch then Nat.pred dk else dk in
    let db' := if Chars.isC "(" ch || Chars.isC ")" ch
                  || Chars.isC "[" ch || Chars.isC "]" ch then db
               else if Chars.isC "{" ch then S db
               else if Chars.isC "}" ch then Nat.pred db else db in
    if Chars.isC "," ch && (dp' =? 0)%nat && (dk' =? 0)%nat && (db' =? 0)%nat then
      let trimmed := Js.trim cur in
      mkSplit (if Js.truthy trimmed then ps ++ [trimmed] else ps) "" dp' dk' db' sq dq esc
    else mkSplit ps (pushCh ch cur) dp' dk' db' sq dq esc.

Fixpoint splitRun (st : SplitState) (s : string) : SplitState :=
  match s with
  | EmptyString => st
  | String ch s' => splitRun (splitStep st ch) s'
  end.

Definition splitPhpParameters (paramList : string) : list string :=
  let st := splitRun (mkSplit [] "" 0 0 0 false false false) paramList in
  let trimmed := Js.trim (current st) in
  if Js.truthy trimmed then parts st ++ [trimmed] else parts st.

(** *** [parsePhpParameter] *)

Record Param : Type := mkParam {
  p_name : string;
  p_type : string;
  p_variadic : bool;
  p_raw : string
}.

(** [/(\$ID)/] *)
Definition variableRe : re := Grp 1 (Seq (C "$") ident).
(** [/\.\.\./] *)
Definition ellipsisRe : re := Lit "...".
(** [/\s*&\s*/] *)
Definition ampRe : re := seqs [Star true Sp; C "&"; Star true Sp].
(** [/\s+/] *)
Definition spacesRe : re := Plus Sp.

Definition parsePhpParameter (paramText : string) (docParams : gmap string string)
  : option Param :=
  let text := Js.trim paramText in
  if negb (Js.truthy text) then None
  else
    match exec variableRe text with
    | None => None
    | Some nameMatch =>
        let name := group 1 nameMatch in
        let before := Js.trim (Js.slice 0 (Z.of_nat (index nameMatch)) text) in
        let hasVariadic := test ellipsisRe before in
        let cleanBefore :=
          Js.trim (replaceAll ampRe " " (replaceAll ellipsisRe "" before)) in
        let typeText :=
          if Js.truthy cleanBefore then hd "" (split spacesRe cleanBefore) else "" in
        let docType := docParam docParams name in
        let type := Js.orElse (Js.orElse typeText docType) "mixed" in
        Some (mkParam name type hasVariadic text)
    end.

(** *** [extractPhpFunctionSignatureNearOffset] *)

Record Signature : Type := mkSignature {
  label : string;
  documentation : option string;
  parameters : list string
}.

(** [/\bfunction\s+&?\s*(ID)\s*\(([\s\S]*?)\)\s*(?::\s*([\\A-Za-z_\x80-\xff][\\\w\x80-\xff|?]+))?/] *)
Definition declRe : re :=
  let typeChar c := Chars.nameChar c || Chars.isC "|" c || Chars.isC "?" c in
  seqs [WordB; Lit "function"; Plus Sp; Opt (C "&"); Star true Sp;
        Grp 1 ident; Star true Sp; C "("; Grp 2 (Star false Any); C ")";
        Star true Sp;
        Opt (seqs [C ":"; Star true Sp;
                   Grp 3 (Seq (Chr Chars.nameStart) (Plus (Chr typeChar)))])].

(** [`${p.type} ${p.variadic ? '...' : ''}${p.name}`.replace(/\s+/g, ' ').trim()] *)
Definition formatParam (p : Param) : string :=
  Js.trim (replaceAll spacesRe " "
             (p_type p ++ " " ++ (if p_variadic p then "..." else "") ++ p_name p)).

Definition extractPhpFunctionSignatureNearOffset (text : string) (nameIndex : Z)
  : option Signature :=
  let sliceStart := Z.max 0 (nameIndex - 800) in
  let sliceEnd := Z.min (Z.of_nat (String.length text)) (nameIndex + 800) in
  let window := Js.slice sliceStart sliceEnd text in
  let localIndex := (nameIndex - sliceStart)%Z in
  let head := Js.slice 0 (localIndex + 200) window in
  match exec declRe head with
  | None => None
  | Some declMatch =>
      let fnName := group 1 declMatch in
      let paramList := group 2 declMatch in
      let returnTypeHint := Js.trim (group 3 declMatch) in
      let docblock := findPhpDocblockBeforeOffset text nameIndex in
      let doc := parsePhpDocblock docblock in
      let params_ :=
        omap (fun p => parsePhpParameter p (params doc)) (splitPhpParameters paramList) in
      let returnType := Js.orElse (Js.orElse returnTypeHint (returns doc)) "mixed" in
      let formattedParams := List.map formatParam params_ in
      let label_ : string :=
        (fnName ++ "(" ++ Js.join ", " formattedParams ++ "): " ++ returnType)%string in
      Some (mkSignature label_
              (if Js.truthy docblock then Some docblock else None)
              (List.map formatParam params_))
  end.

End Scanner.

(** ** Symbol extractor *)

Module Extractor.
Import Re Scanner.

(** the members of [vscode.SymbolKind] the extractor uses; all are truthy *)
Inductive SymbolKind : Type :=
  | Class | Interface | Enum | Method | Property | Function | Constant.

Global Instance SymbolKind_eq_dec : EqDecision SymbolKind.
Proof. solve_decision. Defined.

(** The [classInfo] object of a symbol.  A class symbol carries every field;
    a member symbol carries [containerName] only, its other fields read as
    [undefined], here the empty string, [None] and the empty list. *)
Record ClassInfo : Type := mkClassInfo {
  fqn : string;
  shortName : string;
  ci_kind : option SymbolKind;
  ci_uri : option string;
  containerName : string;
  extends : list string;
  implements : list string
}.

Definition memberOf (container : string) : ClassInfo :=
  mkClassInfo "" "" None None container [] [].

Record Symbol : Type := mkSymbol {
  key : string;
  location : Location;
  kind : SymbolKind;
  signature : option Signature;
  classInfo : option ClassInfo
}.

Record ClassRange : Type := mkClassRange {
  cr_name : string;
  cr_start : Z;
  cr_end : Z
}.

(** [/\b(?:abstract\s+|final\s+)?(class|interface|trait|enum)\s+(ID)\b/g] *)
Definition classDeclRe : re :=
  seqs [WordB;
        Opt (Alt (Seq (Lit "abstract") (Plus Sp)) (Seq (Lit "final") (Plus Sp)));
        typeKeyword 1; Plus Sp; Grp 2 ident; WordB].

(** [/\bfunction\s+&?\s*(ID)\s*\(/g] *)
Definition functionRe : re :=
  seqs [WordB; Lit "function"; Plus Sp; Opt (C "&"); Star true Sp;
        Grp 1 ident; Star true Sp; C "("].

(** [/\b(?:public|protected|private|var)\s+(?:static\s+)?\$(\w+)\b/g] *)
Definition propRe : re :=
  seqs [WordB; alts [Lit "public"; Lit "protected"; Lit "private"; Lit "var"];
        Plus Sp; Opt (Seq (Lit "static") (Plus Sp)); C "$";
        Grp 1 (Plus (Chr Chars.word)); WordB].

(** [/\bconst\s+(ID)\b/g] *)
Definition constRe : re :=
  seqs [WordB; Lit "const"; Plus Sp; Grp 1 ident; WordB].

(** [/\bconst\s+(ID)\s*=/g] *)
Definition globalConstRe : re :=
  seqs [WordB; Lit "const"; Plus Sp; Grp 1 ident; Star true Sp; C "="].

(** [/\bdefine\s*\(\s*Q([A-Za-z0-9_]+)Q/g], with Q for the class of the two
    quote characters *)
Definition defineRe : re :=
  let quote c := Chars.isC "'" c || Chars.isC "034" c in
  seqs [WordB; Lit "define"; Star true Sp; C "("; Star true Sp; Chr quote;
        Grp 1 (Plus (Chr Chars.word)); Chr quote].

(** [base + m.index + m[0].lastIndexOf(name)] *)
Definition nameOffset (base : Z) (m : result) (name : string) : Z :=
  (base + Z.of_nat (index m) + Js.lastIndexOf name (m0 m))%Z.

Definition locOf (document : Document) (offset : Z) : Location :=
  locationAt (uri document) (Editor.positionAt document offset).

Definition qualify (namespace name : string) : string :=
  if Js.truthy namespace then (namespace ++ "\" ++ name)%string else name.

Section ClassBody.
Variable document : Document.
Variable namespace : string.
Variables className classFqn : string.
Variable braceStart : Z.

Definition text : string := getText document.

Definition methodSymbols (m : result) : list Symbol :=
  let methodName := group 1 m in
  let methodIndex := nameOffset braceStart m methodName in
  let methodLoc := locOf document methodIndex in
  let signature := extractPhpFunctionSignatureNearOffset text methodIndex in
  mkSymbol (className ++ "::" ++ methodName) methodLoc Method signature
           (Some (memberOf className))
  :: (if Js.truthy namespace
      then [mkSymbol (classFqn ++ "::" ++ methodName) methodLoc Method signature
                     (Some (memberOf classFqn))]
      else []).

Definition propSymbols (m : result) : list Symbol :=
  let propName := group 1 m in
  let propIndex := nameOffset braceStart m propName in
  let propLoc := locOf document propIndex in
  [mkSymbol (className ++ "->$" ++ propName) propLoc Property None
            (Some (memberOf className));
   mkSymbol (className ++ "->" ++ propName) propLoc Property None
            (Some (memberOf className))]
  ++ (if Js.truthy namespace
      then [mkSymbol (classFqn ++ "->$" ++ propName) propLoc Property None
                     (Some (memberOf classFqn));
            mkSymbol (classFqn ++ "->" ++ propName) propLoc Property None
                     (Some (memberOf classFqn))]
      else []).

Definition constSymbols (m : result) : list Symbol :=
  let constName := group 1 m in
  let constIndex := nameOffset braceStart m constName in
  let constLoc := locOf document constIndex in
  mkSymbol (className ++ "::" ++ constName) constLoc Constant None
           (Some (memberOf className))
  :: (if Js.truthy namespace
      then [mkSymbol (classFqn ++ "::" ++ constName) constLoc Constant None
                     (Some (memberOf classFqn))]
      else []).

Definition memberSymbols (classBody : string) : list Symbol :=
  flat_map methodSymbols (execAll functionRe classBody)
  ++ flat_map propSymbols (execAll propRe classBody)
  ++ flat_map constSymbols (execAll constRe classBody).
End ClassBody.

(** One turn of the loop over [classDeclRe]: the class ranges and symbols
    collected so far, extended by what the match [m] contributes. *)
Definition classDecl (document : Document) (namespace : string)
  (acc : list ClassRange * list Symbol) (m : result)
  : list ClassRange * list Symbol :=
  let text := getText document in
  let className := group 2 m in
  let classKeyword := group 1 m in
  let nameIndex := nameOffset 0 m className in
  let classLoc := locOf document nameIndex in
  let classFqn := qualify namespace className in
  let kind :=
    if String.eqb classKeyword "interface" then Interface
    else if String.eqb classKeyword "enum" then Enum
    else Class in
  let braceStart := Js.indexOf "{" (index m) text in
  if (braceStart =? -1)%Z then acc
  else
    let braceEnd := findMatchingBrace text braceStart in
    if (braceEnd =? -1)%Z then acc
    else
      let header := Js.slice (Z.of_nat (index m)) braceStart text in
      let useAliases := parsePhpUseAliases text in
      let classExt := parsePhpClassExtendsImplements header in
      let extendsFqns :=
        List.map (fun t => resolvePhpTypeTokenToFqn t namespace useAliases) (fst classExt) in
      let implementsFqns :=
        List.map (fun t => resolvePhpTypeTokenToFqn t namespace useAliases) (snd classExt) in
      let info :=
        mkClassInfo classFqn className (Some kind) (Some (uri document)) ""
                    extendsFqns implementsFqns in
      let classBody := Js.slice braceStart (braceEnd + 1) text in
      (fst acc ++ [mkClassRange className braceStart braceEnd],
       snd acc
       ++ mkSymbol className classLoc kind None (Some info)
          :: (if Js.truthy namespace
              then [mkSymbol classFqn classLoc kind None (Some info)]
              else [])
       ++ memberSymbols document namespace className classFqn braceStart classBody).

(** [classRanges.some((r) => index >= r.start && index <= r.end)] *)
Definition insideClass (classRanges : list ClassRange) (i : nat) : bool :=
  existsb (fun r => (cr_start r <=? Z.of_nat i)%Z && (Z.of_nat i <=? cr_end r)%Z)
          classRanges.

Definition freeFunction (document : Document) (namespace : string)
  (classRanges : list ClassRange) (m : result) : list Symbol :=
  if insideClass classRanges (index m) then []
  else
    let fnName := group 1 m in
    let fnIndex := nameOffset 0 m fnName in
    let fnLoc := locOf document fnIndex in
    let signature := extractPhpFunctionSignatureNearOffset (getText document) fnIndex in
    mkSymbol fnName fnLoc Function signature None
    :: (if Js.truthy namespace
        then [mkSymbol (namespace ++ "\" ++ fnName) fnLoc Function signature None]
        else []).

Definition constantSymbols (document : Document) (namespace : string) (m : result)
  : list Symbol :=
  let constName := group 1 m in
  let constIndex := nameOffset 0 m constName in
  let constLoc := locOf document constIndex in
  mkSymbol constName constLoc Constant None None
  :: (if Js.truthy namespace
      then [mkSymbol (namespace ++ "\" ++ constName) constLoc Constant None None]
      else []).

Definition globalConst (document : Document) (namespace : string)
  (classRanges : list ClassRange) (m : result) : list Symbol :=
  if insideClass classRanges (index m) then []
  else constantSymbols document namespace m.

Definition extractPhpSymbolsFromDocument (document : Document) : list Symbol :=
  let text := getText document in
  let namespace := getPhpNamespace text in
  let '(classRanges, symbols) :=
    fold_left (classDecl document namespace) (execAll classDeclRe text) ([], []) in
  symbols
  ++ flat_map (freeFunction document namespace classRanges) (execAll functionRe text)
  ++ flat_map (globalConst document namespace classRanges) (execAll globalConstRe text)
  ++ flat_map (constantSymbols document namespace) (execAll defineRe text).

End Extractor.

(** ** Workspace symbol index *)

Module Index.
Import Re Scanner Extractor.

(** an entry of [phpWorkspaceSymbolInfo] *)
Record SymbolInfo : Type := mkSymbolInfo {
  si_uriKey : string;
  si_kind : SymbolKind;
  si_containerName : string
}.

(** an entry of [phpWorkspaceFunctionInfoByKey]: [{ uriKey, ...signature }] *)
Record FunctionInfo : Type := mkFunctionInfo {
  fi_uriKey : string;
  fi_signature : Signature
}.

(** the value of [getPhpMembersForClass] *)
Record Members : Type := mkMembers {
  methods : list string;
  properties : list string;
  constants : list string
}.

(** an entry of [phpWorkspaceMembersCache] *)
Record Cached : Type := mkCached {
  cached_version : Z;
  cached_value : Members
}.

(** The module-level variables of the index.  [phpWorkspaceClassInfoByFqn]
    keeps the insertion order of the JavaScript [Map], which
    [rebuildPhpClassFqnMaps] exposes; the key sets of
    [phpWorkspaceIndexKeysByUri] are lists without repetition. *)
Record State : Type := mkState {
  phpWorkspaceIndex : gmap string (list Location);
  phpWorkspaceIndexKeysByUri : gmap string (list string);
  phpWorkspaceIndexVersion : Z;
  phpWorkspaceMembersCache : gmap string Cached;
  phpWorkspaceSymbolInfo : gmap string (list SymbolInfo);
  phpWorkspaceClassInfoByFqn : list (string * ClassInfo);
  phpWorkspaceClassFqnsByShortName : gmap string (list string);
  phpWorkspaceFunctionInfoByKey : gmap string (list FunctionInfo)
}.

Definition initial : State := mkState ∅ ∅ 0 ∅ ∅ [] ∅ ∅.

(** [set.add(k)] *)
Definition setAdd (k : string) (s : list string) : list string :=
  if bool_decide (k ∈ s) then s else s ++ [k].

(** [map.set(k, v)] on an insertion-ordered map *)
Fixpoint orderedSet {V} (k : string) (v : V) (m : list (string * V)) : list (string * V) :=
  match m with
  | [] => [(k, v)]
  | (k', v') :: m' =>
      if String.eqb k' k then (k, v) :: m' else (k', v') :: orderedSet k v m'
  end.

(** [infoList.filter(keep)], stored back, or the key deleted when nothing
    is left *)
Definition retain {V} (keep : V -> bool) (key : string) (m : gmap string (list V))
  : gmap string (list V) :=
  match m !! key with
  | None => m
  | Some l =>
      match List.filter keep l with
      | [] => delete key m
      | l' => <[key := l']> m
      end
  end.

Definition notFrom (uriKey : string) (loc : Location) : bool :=
  negb (String.eqb (loc_uri loc) uriKey).

(** the body of the loop over the keys a file contributed *)
Definition retractKey (uriKey : string) (st : State) (key : string) : State :=
  match phpWorkspaceIndex st !! key with
  | None => st
  | Some _ =>
      mkState
        (retain (notFrom uriKey) key (phpWorkspaceIndex st))
        (phpWorkspaceIndexKeysByUri st)
        (phpWorkspaceIndexVersion st)
        (phpWorkspaceMembersCache st)
        (retain (fun info => negb (String.eqb (si_uriKey info) uriKey)) key
                (phpWorkspaceSymbolInfo st))
        (phpWorkspaceClassInfoByFqn st)
        (phpWorkspaceClassFqnsByShortName st)
        (retain (fun info => negb (String.eqb (fi_uriKey info) uriKey)) key
                (phpWorkspaceFunctionInfoByKey st))
  end.

Definition ownedBy (uriKey : string) (e : string * ClassInfo) : bool :=
  match ci_uri (snd e) with
  | Some u => String.eqb u uriKey
  | None => false
  end.

Definition fqnStep (m : gmap string (list string)) (e : string * ClassInfo)
  : gmap string (list string) :=
  let '(fqn_, info) := e in
  if negb (Js.truthy (shortName info)) then m
  else
    let l := default [] (m !! shortName info) in
    <[shortName info := if bool_decide (fqn_ ∈ l) then l else l ++ [fqn_]]> m.

(** the table [rebuildPhpClassFqnMaps] computes *)
Definition classFqnsByShortName (infos : list (string * ClassInfo))
  : gmap string (list string) :=
  fold_left fqnStep infos ∅.

Definition rebuildPhpClassFqnMaps (st : State) : State :=
  mkState (phpWorkspaceIndex st) (phpWorkspaceIndexKeysByUri st)
          (phpWorkspaceIndexVersion st) (phpWorkspaceMembersCache st)
          (phpWorkspaceSymbolInfo st) (phpWorkspaceClassInfoByFqn st)
          (classFqnsByShortName (phpWorkspaceClassInfoByFqn st))
          (phpWorkspaceFunctionInfoByKey st).

Definition bumpVersion (st : State) : State :=
  mkState (phpWorkspaceIndex st) (phpWorkspaceIndexKeysByUri st)
          (phpWorkspaceIndexVersion st + 1) (phpWorkspaceMembersCache st)
          (phpWorkspaceSymbolInfo st) (phpWorkspaceClassInfoByFqn st)
          (phpWorkspaceClassFqnsByShortName st)
          (phpWorkspaceFunctionInfoByKey st).

Definition forgetFile (uriKey : string) (st : State) : State :=
  mkState (phpWorkspaceIndex st) (delete uriKey (phpWorkspaceIndexKeysByUri st))
          (phpWorkspaceIndexVersion st) (phpWorkspaceMembersCache st)
          (phpWorkspaceSymbolInfo st)
          (List.filter (fun e => negb (ownedBy uriKey e)) (phpWorkspaceClassInfoByFqn st))
          (phpWorkspaceClassFqnsByShortName st)
          (phpWorkspaceFunctionInfoByKey st).

Definition deletePhpIndexForUri (uriKey : string) (st : State) : State :=
  match phpWorkspaceIndexKeysByUri st !! uriKey with
  | None => st
  | Some keys =>
      bumpVersion
        (rebuildPhpClassFqnMaps
           (forgetFile uriKey (fold_left (retractKey uriKey) keys st)))
  end.

(** [list.push(x)] on [map.get(key) || []], stored back *)
Definition pushAt {V} (key : string) (x : V) (m : gmap string (list V))
  : gmap string (list V) :=
  <[key := default [] (m !! key) ++ [x]]> m.

(** the body of the loop over the extracted symbols; [keys] is the set of
    keys seen so far *)
Definition insertSymbol (uriKey : string) (acc : list string * State) (s : Symbol)
  : list string * State :=
  let '(keys, st) := acc in
  if negb (Js.truthy (key s)) then acc
  else
    (setAdd (key s) keys,
     mkState
       (pushAt (key s) (location s) (phpWorkspaceIndex st))
       (phpWorkspaceIndexKeysByUri st)
       (phpWorkspaceIndexVersion st)
       (phpWorkspaceMembersCache st)
       (pushAt (key s)
          (mkSymbolInfo uriKey (kind s)
             (match classInfo s with Some ci => containerName ci | None => "" end))
          (phpWorkspaceSymbolInfo st))
       (match classInfo s with
        | Some ci =>
            if Js.truthy (fqn ci)
            then orderedSet (fqn ci) ci (phpWorkspaceClassInfoByFqn st)
            else phpWorkspaceClassInfoByFqn st
        | None => phpWorkspaceClassInfoByFqn st
        end)
       (phpWorkspaceClassFqnsByShortName st)
       (match signature s with
        | Some sig => pushAt (key s) (mkFunctionInfo uriKey sig)
                        (phpWorkspaceFunctionInfoByKey st)
        | None => phpWorkspaceFunctionInfoByKey st
        end)).

Definition rememberKeys (uriKey : string) (keys : list string) (st : State) : State :=
  mkState (phpWorkspaceIndex st)
          (match keys with
           | [] => phpWorkspaceIndexKeysByUri st
           | _ => <[uriKey := keys]> (phpWorkspaceIndexKeysByUri st)
           end)
          (phpWorkspaceIndexVersion st) (phpWorkspaceMembersCache st)
          (phpWorkspaceSymbolInfo st) (phpWorkspaceClassInfoByFqn st)
          (phpWorkspaceClassFqnsByShortName st)
          (phpWorkspaceFunctionInfoByKey st).

Definition updatePhpIndexForDocument (document : Document) (st : State) : State :=
  if negb (String.eqb (languageId document) "php") then st
  else
    let st1 := deletePhpIndexForUri (uri document) st in
    let uriKey := uri document in
    let symbols := extractPhpSymbolsFromDocument document in
    let '(keys, st2) := fold_left (insertSymbol uriKey) symbols ([], st1) in
    bumpVersion (rebuildPhpClassFqnMaps (rememberKeys uriKey keys st2)).

(** [phpWorkspaceIndex.get(key)], an absent key read as no locations *)
Definition lookup (key : string) (st : State) : list Location :=
  default [] (phpWorkspaceIndex st !! key).

(** [phpWorkspaceFunctionInfoByKey.get(key)] *)
Definition signatureFor (key : string) (st : State) : list FunctionInfo :=
  default [] (phpWorkspaceFunctionInfoByKey st !! key).

(** *** [getPhpMembersForClass] *)

(** [/^[A-Z_][A-Z0-9_]*$/] *)
Definition constantNameRe : re :=
  seqs [Bol false; Chr (fun c => Chars.upper c || Chars.isC "_" c);
        Star true (Chr (fun c => Chars.upper c || Chars.digit c || Chars.isC "_" c));
        Eol false].

(** [/^\$/] *)
Definition leadingDollar : re := Seq (Bol false) (C "$").

Fixpoint insertSorted (x : string) (l : list string) : list string :=
  match l with
  | [] => [x]
  | y :: l' => if String.leb x y then x :: l else y :: insertSorted x l'
  end.

(** [Array.from(set).sort((a, b) => a.localeCompare(b))].  The collation of
    [localeCompare] belongs to the host; the model orders by code unit, and
    only the membership of the result is relied on. *)
Definition sortNames (l : list string) : list string :=
  fold_right insertSorted [] l.

(** the three sets while the keys are scanned *)
Definition scanKey (classKey className : string) (acc : Members) (normalizedKey : string)
  : Members :=
  let acc1 :=
    if Js.startsWith (classKey ++ "::") normalizedKey
       || Js.startsWith (className ++ "::") normalizedKey
    then
      let member := Js.pop (Js.split "::" normalizedKey) in
      if Js.truthy member then
        if test constantNameRe member
        then mkMembers (methods acc) (properties acc) (setAdd member (constants acc))
        else mkMembers (setAdd member (methods acc)) (properties acc) (constants acc)
      else acc
    else acc in
  if Js.startsWith (classKey ++ "->$") normalizedKey
     || Js.startsWith (className ++ "->$") normalizedKey
     || Js.startsWith (classKey ++ "->") normalizedKey
     || Js.startsWith (className ++ "->") normalizedKey
  then
    let member :=
      if Js.includes "->$" normalizedKey
      then Js.pop (Js.split "->$" normalizedKey)
      else Js.pop (Js.split "->" normalizedKey) in
    if Js.truthy member
    then mkMembers (methods acc1)
                   (setAdd (replaceFirst leadingDollar "" member) (properties acc1))
                   (constants acc1)
    else acc1
  else acc1.

(** the value computed on a cache miss *)
Definition computeMembers (classKey : string) (index : gmap string (list Location))
  : Members :=
  let className := Js.pop (Js.split "\" classKey) in
  let sets :=
    fold_left (scanKey classKey className) (List.map fst (map_to_list index))
              (mkMembers [] [] []) in
  mkMembers (sortNames (methods sets)) (sortNames (properties sets))
            (sortNames (constants sets)).

Definition storeMembers (cacheKey : string) (value : Members) (st : State) : State :=
  mkState (phpWorkspaceIndex st) (phpWorkspaceIndexKeysByUri st)
          (phpWorkspaceIndexVersion st)
          (<[cacheKey := mkCached (phpWorkspaceIndexVersion st) value]>
             (phpWorkspaceMembersCache st))
          (phpWorkspaceSymbolInfo st) (phpWorkspaceClassInfoByFqn st)
          (phpWorkspaceClassFqnsByShortName st)
          (phpWorkspaceFunctionInfoByKey st).

(** returns the members and the state with the cache entry written *)
Definition getPhpMembersForClass (classNameOrFqn : string) (st : State)
  : Members * State :=
  let classKey := stripLeadingBackslashes classNameOrFqn in
  if negb (Js.truthy classKey) then (mkMembers [] [] [], st)
  else
    let cacheKey := classKey in
    let fresh :=
      let value := computeMembers classKey (phpWorkspaceIndex st) in
      (value, storeMembers cacheKey value st) in
    match phpWorkspaceMembersCache st !! cacheKey with
    | Some cached =>
        if (cached_version cached =? phpWorkspaceIndexVersion st)%Z
        then (cached_value cached, st)
        else fresh
    | None => fresh
    end.

End Index.

(** ** Notions used to state the properties of the index *)

Module IndexSpec.
Import Extractor Index.

(** what a file's retraction leaves under a key: no empty list and no
    location of the file *)
Definition Clean (u : string) (m : gmap string (list Location)) (k : string) : Prop :=
  forall locs, m !! k = Some locs ->
    locs <> [] /\ Forall (fun l => loc_uri l <> u) locs.

Definition retractAll (u : string) (keys : list string) (m : gmap string (list Location))
  : gmap string (list Location) :=
  fold_left (fun m k => retain (notFrom u) k m) keys m.

(** the index after the loop over the symbols *)
Definition insertAll (symbols : list Symbol) (m : gmap string (list Location))
  : gmap string (list Location) :=
  fold_left (fun m s => if Js.truthy (key s) then pushAt (key s) (location s) m else m)
            symbols m.

(** the key set the loop collects *)
Definition collectKeys (symbols : list Symbol) (keys : list string) : list string :=
  fold_left (fun ks s => if Js.truthy (key s) then setAdd (key s) ks else ks) symbols keys.

(** the set [keys] that [updatePhpIndexForDocument] records for a document *)
Definition fileKeys (d : Document) : list string :=
  collectKeys (extractPhpSymbolsFromDocument d) [].

Definition FromDoc (d : Document) (s : Symbol) : Prop := loc_uri (location s) = uri d.

(** the signatures after the loop over the symbols *)
Definition recordAll (u : string) (symbols : list Symbol)
  (m : gmap string (list FunctionInfo)) : gmap string (list FunctionInfo) :=
  fold_left (fun m s =>
               if Js.truthy (key s) then
                 match signature s with
                 | Some sig => pushAt (key s) (mkFunctionInfo u sig) m
                 | None => m
                 end
               else m) symbols m.

End IndexSpec.

(** ** Notions used to state the properties of the extractor *)

Module ExtractorSpec.
Import Re Scanner Extractor.

(** the body brace of the declaration matched by [m] is missing or has no
    matching close brace: the two tests after which the loop over
    [classDeclRe] moves on *)
Definition unbalanced (text : string) (m : result) : bool :=
  let braceStart := Js.indexOf "{" (index m) text in
  (braceStart =? -1)%Z || (findMatchingBrace text braceStart =? -1)%Z.

(** a symbol of the two free passes: a function or a constant that belongs
    to no class *)
Definition Free (s : Symbol) : Prop :=
  classInfo s = None /\ (kind s = Function \/ kind s = Constant).

(** a symbol the update does not skip: its key is not empty *)
Definition Keyed (s : Symbol) : Prop := key s <> "".

End ExtractorSpec.

(** ** Notions used to state the properties of [getPhpMembersForClass] *)

Module MembersSpec.
Import Extractor Index.

Fixpoint every (p : ascii -> bool) (s : string) : bool :=
  match s with
  | EmptyString => true
  | String c s' => p c && every p s'
  end.

(** A constant-style name in words: the first character is an uppercase
    letter or an underscore, every further character an uppercase letter, a
    digit or an underscore. *)
Definition isConstantName (m : string) : bool :=
  match m with
  | EmptyString => false
  | String c t =>
      (Chars.upper c || Chars.isC "_" c)
      && every (fun c => Chars.upper c || Chars.digit c || Chars.isC "_" c) t
  end.

(** [key] starts with [classKey::] or with the short class name and [::] *)
Definition memberKeyOf (classKey key : string) : bool :=
  Js.startsWith (classKey ++ "::") key
  || Js.startsWith (Js.pop (Js.split "\" classKey) ++ "::") key.

(** the index holds a [Class::member] key for the class whose member part,
    the text after the last [::], is the non-empty name [m] *)
Definition FoundUnder (index : gmap string (list Location)) (classKey m : string) : Prop :=
  classKey <> "" /\
  exists key, is_Some (index !! key) /\ memberKeyOf classKey key = true
              /\ Js.pop (Js.split "::" key) = m /\ m <> "".

(** No cache entry is stamped with a later version than the index has, and
    an entry stamped with the current version holds what a fresh scan of the
    current index gives. *)
Definition CacheOk (st : State) : Prop :=
  forall classKey entry,
    phpWorkspaceMembersCache st !! classKey = Some entry ->
    (cached_version entry <= phpWorkspaceIndexVersion st)%Z
    /\ (cached_version entry = phpWorkspaceIndexVersion st ->
        cached_value entry = computeMembers classKey (phpWorkspaceIndex st)).

(** the states the operations of the index can produce *)
Inductive Reachable : State -> Prop :=
  | reach_initial : Reachable Index.initial
  | reach_update d st :
      Reachable st -> Reachable (updatePhpIndexForDocument d st)
  | reach_delete u st :
      Reachable st -> Reachable (deletePhpIndexForUri u st)
  | reach_members c st :
      Reachable st -> Reachable (snd (getPhpMembersForClass c st)).

End MembersSpec.

(** ** Notions used to state the properties of the doc-comment parser *)

Module DocSpec.
Import Re Scanner.

(** the lines [parsePhpDocblock] loops over *)
Definition docLines (docblock : string) : list string := split lineBreakRe docblock.

(** the parameter annotation a line carries, as name and type *)
Definition paramOf (line : string) : option (string * string) :=
  match exec paramTagRe line with
  | Some m => Some (group 2 m, group 1 m)
  | None => None
  end.

(** the return annotation a line carries *)
Definition returnOf (line : string) : option string :=
  match exec returnTagRe line with
  | Some m => Some (group 1 m)
  | None => None
  end.

Definition annotates (name : string) (line : string) : option string :=
  match paramOf line with
  | Some (n, t) => if String.eqb n name then Some t else None
  | None => None
  end.

(** the type given by the first line that annotates [name] *)
Fixpoint firstParamType (name : string) (lines : list string) : option string :=
  match lines with
  | [] => None
  | l :: ls =>
      match annotates name l with
      | Some t => Some t
      | None => firstParamType name ls
      end
  end.

(** the type given by the last line that annotates [name] *)
Fixpoint lastParamType (name : string) (lines : list string) : option string :=
  match lines with
  | [] => None
  | l :: ls =>
      match lastParamType name ls with
      | Some t => Some t
      | None => annotates name l
      end
  end.

(** the type given by the first line with a return annotation, or the empty
    string *)
Fixpoint firstReturnType (lines : list string) : string :=
  match lines with
  | [] => ""
  | l :: ls =>
      match returnOf l with
      | Some t => t
      | None => firstReturnType ls
      end
  end.

End DocSpec.

(** ** Local variable type inference *)

Module Inference.
Import Re Scanner Extractor Index.

(** [/^new\s+(QN)/] *)
Definition newRe : re := seqs [Bol false; Lit "new"; Plus Sp; Grp 1 qualified].
(** [/^\[.*\]$/] *)
Definition bracketsRe : re := seqs [Bol false; C "["; Star true Dot; C "]"; Eol false].
(** [/^array\s*\(/i] *)
Definition arrayRe : re := seqs [Bol false; LitI "array"; Star true Sp; C "("].
(** [/^(true|false)$/i] *)
Definition boolRe : re :=
  seqs [Bol false; Grp 1 (Alt (LitI "true") (LitI "false")); Eol false].
(** [/^null$/i] *)
Definition nullRe : re := seqs [Bol false; LitI "null"; Eol false].
(** [/^[0-9]+$/] *)
Definition intRe : re := seqs [Bol false; Plus (Chr Chars.digit); Eol false].
(** [/^[0-9]+\.[0-9]+$/] *)
Definition floatRe : re :=
  seqs [Bol false; Plus (Chr Chars.digit); C "."; Plus (Chr Chars.digit); Eol false].
(** [/^function\s*\(/] and [/^fn\s*\(/] *)
Definition closureRe : re := seqs [Bol false; Lit "function"; Star true Sp; C "("].
Definition arrowRe : re := seqs [Bol false; Lit "fn"; Star true Sp; C "("].
(** [/^(\$ID)$/] *)
Definition wholeVariableRe : re := seqs [Bol false; Grp 1 (Seq (C "$") ident); Eol false].
(** [/^(QN)\s*::\s*(ID)\s*\(/] *)
Definition staticCallHeadRe : re :=
  seqs [Bol false; Grp 1 qualified; Star true Sp; Lit "::"; Star true Sp;
        Grp 2 ident; Star true Sp; C "("].
(** [/^(ID)\s*\(/] *)
Definition callHeadRe : re := seqs [Bol false; Grp 1 ident; Star true Sp; C "("].
(** [/\)\s*:\s*([^\s]+)\s*$/] *)
Definition labelReturnRe : re :=
  seqs [C ")"; Star true Sp; C ":"; Star true Sp; Grp 1 (Plus (Not Chars.space));
        Star true Sp; Eol false].

(** the loop over candidate keys: the return type in the label of the first
    signature of the first key that has signatures and whose label shows a
    return type *)
Fixpoint returnTypeOfKeys (st : State) (namespace : string)
  (useAliases : gmap string string) (keys : list string) : option string :=
  match keys with
  | [] => None
  | key :: keys' =>
      match signatureFor key st with
      | info :: _ =>
          match exec labelReturnRe (label (fi_signature info)) with
          | Some returnMatch =>
              Some (resolvePhpTypeTokenToFqn (group 1 returnMatch) namespace useAliases)
          | None => returnTypeOfKeys st namespace useAliases keys'
          end
      | [] => returnTypeOfKeys st namespace useAliases keys'
      end
  end.

Definition inferPhpTypeFromExpression (st : State) (expr namespace : string)
  (useAliases : gmap string string) (existingVarTypes : gmap string string) : string :=
  let text := Js.trim expr in
  if negb (Js.truthy text) then ""
  else
    let asNew :=
      if Js.startsWith "new " text then
        match exec newRe text with
        | Some m => Some (resolvePhpTypeTokenToFqn (group 1 m) namespace useAliases)
        | None => None
        end
      else None in
    match asNew with
    | Some t => t
    | None =>
    if test bracketsRe text || test arrayRe text then "array"
    else if test boolRe text then "bool"
    else if test nullRe text then "null"
    else if test intRe text then "int"
    else if test floatRe text then "float"
    else if (Js.startsWith "'" text && Js.endsWith "'" text)
            || (Js.startsWith (String "034" "") text && Js.endsWith (String "034" "") text)
    then "string"
    else if test closureRe text || test arrowRe text then "Closure"
    else
      let known :=
        match exec wholeVariableRe text with
        | Some varMatch =>
            match existingVarTypes !! group 1 varMatch with
            | Some t => if Js.truthy t then Some t else None
            | None => None
            end
        | None => None
        end in
      match known with
      | Some t => t
      | None =>
          let fromStatic :=
            match exec staticCallHeadRe text with
            | Some staticCallMatch =>
                let resolvedClass :=
                  resolvePhpTypeTokenToFqn (group 1 staticCallMatch) namespace useAliases in
                let classShort := Js.pop (Js.split "\" resolvedClass) in
                returnTypeOfKeys st namespace useAliases
                  [(resolvedClass ++ "::" ++ group 2 staticCallMatch)%string;
                   (classShort ++ "::" ++ group 2 staticCallMatch)%string]
            | None => None
            end in
          match fromStatic with
          | Some t => t
          | None =>
              match exec callHeadRe text with
              | Some fnCallMatch =>
                  let name := group 1 fnCallMatch in
                  let keys :=
                    List.filter Js.truthy
                      [if Js.truthy namespace then (namespace ++ "\" ++ name)%string else "";
                       name] in
                  default "" (returnTypeOfKeys st namespace useAliases keys)
              | None => ""
              end
          end
      end
    end.

(** [/\/\*\*[\s\S]*?\*\/\s*\$(ID)/g] *)
Definition docVarRe : re :=
  seqs [Lit "/**"; Star false Any; Lit "*/"; Star true Sp; C "$"; Grp 1 ident].

(** [/(\$ID)\s*=\s*([^;]+);/g] *)
Definition assignRe : re :=
  seqs [Grp 1 (Seq (C "$") ident); Star true Sp; C "="; Star true Sp;
        Grp 2 (Plus (Not (Chars.isC ";"))); C ";"].

(** the body of the loop over [docVarRe] *)
Definition docVarStep (text namespace : string) (useAliases : gmap string string)
  (map : gmap string string) (m : result) : gmap string string :=
  let docblock := findPhpDocblockBeforeOffset text (Z.of_nat (index m) + 3) in
  let doc := parsePhpDocblock docblock in
  let name := ("$" ++ group 1 m)%string in
  let type := Js.orElse (docParam (params doc) name) (returns doc) in
  if Js.truthy type
  then <[name := resolvePhpTypeTokenToFqn type namespace useAliases]> map
  else map.

(** the body of the loop over [assignRe] *)
Definition assignStep (st : State) (namespace : string) (useAliases : gmap string string)
  (map : gmap string string) (m : result) : gmap string string :=
  let name := group 1 m in
  let rhs := Js.trim (group 2 m) in
  let inferred := inferPhpTypeFromExpression st rhs namespace useAliases map in
  if Js.truthy inferred then <[name := inferred]> map else map.

(** the text between [max(0, offset - 12000)] and the position *)
Definition windowText (document : Document) (position : Position) : string :=
  let offset := Z.of_nat (Editor.offsetAt document position) in
  let startOffset := Z.max 0 (offset - 12000) in
  Js.slice (Z.of_nat (Editor.offsetAt document (Editor.positionAt document startOffset)))
           offset (getText document).

(** the map after the first loop *)
Definition docVarTypes (document : Document) (position : Position) : gmap string string :=
  let text := windowText document position in
  fold_left (docVarStep text (getPhpNamespace (getText document))
                        (parsePhpUseAliases (getText document)))
            (execAll docVarRe text) ∅.

Definition inferPhpVariableTypes (st : State) (document : Document) (position : Position)
  : gmap string string :=
  let text := windowText document position in
  let namespace := getPhpNamespace (getText document) in
  let useAliases := parsePhpUseAliases (getText document) in
  fold_left (assignStep st namespace useAliases) (execAll assignRe text)
            (docVarTypes document position).

End Inference.

(** ** Reference index *)

Module References.
Import Re Scanner Extractor Index.

Definition phpKeywords : list string :=
  ["abstract"; "and"; "array"; "as"; "break"; "callable"; "case"; "catch";
   "class"; "clone"; "const"; "continue"; "declare"; "default"; "die"; "do";
   "echo"; "else"; "elseif"; "empty"; "enddeclare"; "endfor"; "endforeach";
   "endif"; "endswitch"; "endwhile"; "eval"; "exit"; "extends"; "final";
   "finally"; "fn"; "for"; "foreach"; "function"; "global"; "goto"; "if";
   "implements"; "include"; "include_once"; "instanceof"; "insteadof";
   "interface"; "isset"; "list"; "match"; "namespace"; "new"; "or"; "print";
   "private"; "protected"; "public"; "readonly"; "require"; "require_once";
   "return"; "static"; "switch"; "throw"; "trait"; "try"; "unset"; "use";
   "var"; "while"; "xor"; "yield"; "enum"].

(** an element of the result of [extractPhpReferencesFromDocument] *)
Record Reference : Type := mkReference {
  ref_key : string;
  ref_location : Location
}.

(** [/(QN|self|static|parent)\s*::\s*(ID)\s*\(/g] *)
Definition staticCallRe : re :=
  seqs [Grp 1 (alts [qualified; Lit "self"; Lit "static"; Lit "parent"]);
        Star true Sp; Lit "::"; Star true Sp; Grp 2 ident; Star true Sp; C "("].

(** [/->\s*(ID)\s*\(/g] *)
Definition methodCallRe : re :=
  seqs [Lit "->"; Star true Sp; Grp 1 ident; Star true Sp; C "("].

(** [/\b(ID)\s*\(/g] *)
Definition fnCallRe : re := seqs [WordB; Grp 1 ident; Star true Sp; C "("].

(** [/(?:function|new)\s+$/] *)
Definition declaringRe : re :=
  seqs [Alt (Lit "function") (Lit "new"); Plus Sp; Eol false].

(** the cap on the references collected from one document *)
Definition cap : nat := 5000.

(** the object [push(key, index, length)] appends *)
Definition reference (document : Document) (key_ : string) (index_ : Z) (length_ : nat)
  : Reference :=
  mkReference key_
    (mkLocation (uri document)
       (mkRange (Editor.positionAt document index_)
                (Editor.positionAt document (index_ + Z.of_nat length_)))).

(** the references one match of [staticCallRe] pushes *)
Definition staticRefs (document : Document) (m : result) : list Reference :=
  let classToken := stripLeadingBackslashes (group 1 m) in
  let method := group 2 m in
  let short := Js.pop (Js.split "\" classToken) in
  let methodIndex := (Z.of_nat (index m) + Js.lastIndexOf method (m0 m))%Z in
  reference document ("static:" ++ classToken ++ "::" ++ method) methodIndex
            (String.length method)
  :: (if Js.truthy short
      then [reference document ("static:" ++ short ++ "::" ++ method) methodIndex
                      (String.length method)]
      else []).

Definition methodRefs (document : Document) (m : result) : list Reference :=
  let method := group 1 m in
  let methodIndex := (Z.of_nat (index m) + Js.lastIndexOf method (m0 m))%Z in
  [reference document ("method:" ++ method) methodIndex (String.length method)].

(** the references one match of [fnCallRe] pushes: none for a keyword, a
    name that follows [function] or [new], or a name right after [->] or
    [::] *)
Definition fnRefs (document : Document) (m : result) : list Reference :=
  let text := getText document in
  let name := group 1 m in
  if negb (Js.truthy name) || bool_decide (name ∈ phpKeywords) then []
  else
    let before :=
      Js.slice (Z.max 0 (Z.of_nat (index m) - 20)) (Z.of_nat (index m)) text in
    if test declaringRe before then []
    else
      let prev2 :=
        Js.slice (Z.max 0 (Z.of_nat (index m) - 2)) (Z.of_nat (index m)) text in
      if String.eqb prev2 "->" || String.eqb prev2 "::" then []
      else
        let nameIndex := (Z.of_nat (index m) + Js.indexOf name 0 (m0 m))%Z in
        [reference document ("fn:" ++ name) nameIndex (String.length name)].

(** A loop over the matches of one pattern: what a match pushes is appended,
    and the loop is left once a push has brought the results to the cap.  A
    match that pushes nothing in the third loop goes on to the next one
    without the test. *)
Fixpoint scanLoop (pushes : result -> list Reference) (ms : list result)
  (results : list Reference) : list Reference :=
  match ms with
  | [] => results
  | m :: ms' =>
      match pushes m with
      | [] => scanLoop pushes ms' results
      | new =>
          let results' := results ++ new in
          if (cap <=? List.length results')%nat then results'
          else scanLoop pushes ms' results'
      end
  end.

Definition extractPhpReferencesFromDocument (document : Document) : list Reference :=
  let text := getText document in
  let results1 := scanLoop (staticRefs document) (execAll staticCallRe text) [] in
  let results2 := scanLoop (methodRefs document) (execAll methodCallRe text) results1 in
  scanLoop (fnRefs document) (execAll fnCallRe text) results2.

(** The module-level variables of the reference index.  A call of
    [ensurePhpWorkspaceReferenceIndex] is taken as one step, so the pending
    build it would otherwise return is never set on entry. *)
Record RefState : Type := mkRefState {
  phpWorkspaceReferenceIndex : gmap string (list Location);
  phpWorkspaceReferenceIndexVersion : Z
}.

Definition initialRefs : RefState := mkRefState ∅ (-1).

(** the references of one enumerated file added to the index; [None] is a
    file that could not be opened *)
Definition scanFile (m : gmap string (list Location)) (file : option Document)
  : gmap string (list Location) :=
  match file with
  | None => m
  | Some doc =>
      if negb (String.eqb (languageId doc) "php") then m
      else fold_left (fun m r => pushAt (ref_key r) (ref_location r) m)
                     (extractPhpReferencesFromDocument doc) m
  end.

(** [files] is what [findFiles] and [openTextDocument] deliver, [version]
    the value of [phpWorkspaceIndexVersion] *)
Definition ensurePhpWorkspaceReferenceIndex (files : list (option Document))
  (version : Z) (rs : RefState) : RefState :=
  if (phpWorkspaceReferenceIndexVersion rs =? version)%Z then rs
  else mkRefState (fold_left scanFile files ∅) version.

(** the [data] of a code lens *)
Inductive DeclKind : Type := FunctionDecl | MethodDecl.

Record Decl : Type := mkDecl {
  decl_kind : DeclKind;
  decl_name : string;
  decl_className : string;
  decl_uri : string
}.

(** [pushAll(locs)]: the map [unique] is keyed by the text
    [uri@line:character:line:character] of a location, which determines the
    location, so it is kept as the list of its values without repetition *)
Definition pushAll (unique : list Location) (locs : list Location) : list Location :=
  fold_left (fun u loc => if bool_decide (loc ∈ u) then u else u ++ [loc]) locs unique.

Definition bucket (key_ : string) (rs : RefState) : list Location :=
  default [] (phpWorkspaceReferenceIndex rs !! key_).

Definition resolvePhpReferenceLocationsForCodeLens (data : Decl) (declRange : Range)
  (rs : RefState) : list Location :=
  let unique :=
    match decl_kind data with
    | FunctionDecl => pushAll [] (bucket ("fn:" ++ decl_name data) rs)
    | MethodDecl =>
        pushAll (pushAll [] (bucket ("method:" ++ decl_name data) rs))
                (bucket ("static:" ++ decl_className data ++ "::" ++ decl_name data) rs)
    end in
  List.filter (fun loc => negb (bool_decide (loc = mkLocation (decl_uri data) declRange)))
              unique.

End References.

(** ** Notions used to state the properties of the reference index *)

Module ReferencesSpec.
Import Index References.

(** the references of one document added to the index *)
Definition addAll (refs : list Reference) (m : gmap string (list Location))
  : gmap string (list Location) :=
  fold_left (fun m r => pushAt (ref_key r) (ref_location r) m) refs m.

End ReferencesSpec.

(** ** Named-route index *)

Module Routes.
Import Re Scanner Index.

Record RouteState : Type := mkRouteState {
  laravelRouteIndex : gmap string (list Location);
  laravelRouteIndexKeysByUri : gmap string (list string);
  laravelRouteIndexVersion : Z
}.

Definition initialRoutes : RouteState := mkRouteState ∅ ∅ 0.

(** [/\\/g] *)
Definition backslashRe : re := C "\".

(** [/\/routes\/.*\.php$/i] *)
Definition routesPathRe : re :=
  seqs [LitI "/routes/"; Star true Dot; LitI ".php"; Eol false].

Definition isLaravelRouteDocument (document : Document) : bool :=
  let filePath := fsPath document in
  if negb (Js.truthy filePath) then false
  else test routesPathRe (replaceAll backslashRe "/" filePath).

Definition deleteLaravelRouteIndexForUri (uriKey : string) (rst : RouteState) : RouteState :=
  match laravelRouteIndexKeysByUri rst !! uriKey with
  | None => rst
  | Some keys =>
      mkRouteState
        (fold_left (fun m key => retain (notFrom uriKey) key m) keys (laravelRouteIndex rst))
        (delete uriKey (laravelRouteIndexKeysByUri rst))
        (laravelRouteIndexVersion rst + 1)
  end.

Definition quote (c : ascii) : bool := Chars.isC "'" c || Chars.isC "034" c.

(** a quoted name: the quote as group 1, the name as group 2, the same quote
    again *)
Definition quotedName : re :=
  seqs [Grp 1 (Chr quote); Grp 2 (Plus (Not quote)); Bref 1].

(** the two patterns of [extractLaravelRouteNamesFromDocument]: [->] or
    [\bRoute::], then [\s*name\s*\(\s*], a quoted name, and [\s*\)] *)
Definition namePatterns : list re :=
  [seqs [Lit "->"; Star true Sp; Lit "name"; Star true Sp; C "("; Star true Sp;
         quotedName; Star true Sp; C ")"];
   seqs [WordB; Lit "Route::"; Star true Sp; Lit "name"; Star true Sp; C "(";
         Star true Sp; quotedName; Star true Sp; C ")"]].

Record RouteName : Type := mkRouteName {
  rn_name : string;
  rn_location : Location
}.

Definition routeCap : nat := 800.

Definition routeNameOf (document : Document) (m : result) : RouteName :=
  let name := group 2 m in
  let nameIndex := (Z.of_nat (index m) + Js.indexOf name 0 (m0 m))%Z in
  let p := Editor.positionAt document nameIndex in
  mkRouteName name
    (mkLocation (uri document)
       (mkRange p (mkPosition (line p) (character p + String.length name)))).

(** the loop over the matches of one pattern, left when a push brings the
    results to the cap *)
Fixpoint nameLoop (document : Document) (ms : list result) (results : list RouteName)
  : list RouteName :=
  match ms with
  | [] => results
  | m :: ms' =>
      if negb (Js.truthy (group 2 m)) then nameLoop document ms' results
      else
        let results' := results ++ [routeNameOf document m] in
        if (routeCap <=? List.length results')%nat then results'
        else nameLoop document ms' results'
  end.

Definition extractLaravelRouteNamesFromDocument (document : Document) : list RouteName :=
  fold_left (fun results r => nameLoop document (execAll r (getText document)) results)
            namePatterns [].

Definition insertRoute (acc : list string * gmap string (list Location)) (r : RouteName)
  : list string * gmap string (list Location) :=
  (setAdd (rn_name r) (fst acc), pushAt (rn_name r) (rn_location r) (snd acc)).

Definition updateLaravelRouteIndexForDocument (document : Document) (rst : RouteState)
  : RouteState :=
  if negb (String.eqb (languageId document) "php") then rst
  else if negb (isLaravelRouteDocument document) then rst
  else
    let rst1 := deleteLaravelRouteIndexForUri (uri document) rst in
    let '(keys, index_) :=
      fold_left insertRoute (extractLaravelRouteNamesFromDocument document)
                ([], laravelRouteIndex rst1) in
    mkRouteState index_
      (match keys with
       | [] => laravelRouteIndexKeysByUri rst1
       | _ => <[uri document := keys]> (laravelRouteIndexKeysByUri rst1)
       end)
      (laravelRouteIndexVersion rst1 + 1).

(** [files] is what [findFiles('routes/**/*.php')] and [openTextDocument]
    deliver, [None] for a file that could not be opened; the call is taken
    as one step *)
Definition ensureLaravelRouteIndex (files : list (option Document)) (rst : RouteState)
  : RouteState :=
  fold_left (fun rst file =>
               match file with
               | Some doc => updateLaravelRouteIndexForDocument doc rst
               | None => rst
               end) files rst.

(** the three patterns of [getLaravelRouteNameAtPosition]: [\broute],
    [\bto_route] or [->\s*route], then [\s*\(\s*] and a quoted name *)
Definition routeCallPatterns : list re :=
  [seqs [WordB; Lit "route"; Star true Sp; C "("; Star true Sp; quotedName];
   seqs [WordB; Lit "to_route"; Star true Sp; C "("; Star true Sp; quotedName];
   seqs [Lit "->"; Star true Sp; Lit "route"; Star true Sp; C "("; Star true Sp;
         quotedName]].

(** the name of the first match whose computed name span holds the column *)
Fixpoint routeNameIn (offsetInLine : nat) (ms : list result) : option string :=
  match ms with
  | [] => None
  | m :: ms' =>
      let quote_ := group 1 m in
      let name := group 2 m in
      let nameStart := (Z.of_nat (index m) + Js.lastIndexOf quote_ (m0 m) + 1)%Z in
      let nameEnd := (nameStart + Z.of_nat (String.length name))%Z in
      if (nameStart <=? Z.of_nat offsetInLine)%Z && (Z.of_nat offsetInLine <=? nameEnd)%Z
      then Some name
      else routeNameIn offsetInLine ms'
  end.

Fixpoint firstSome {A B} (f : A -> option B) (l : list A) : option B :=
  match l with
  | [] => None
  | x :: l' => match f x with Some y => Some y | None => firstSome f l' end
  end.

Definition getLaravelRouteNameAtPosition (document : Document) (position : Position)
  : string :=
  let line_ := Editor.lineAt document (line position) in
  let offsetInLine := character position in
  default ""
    (firstSome (fun r => routeNameIn offsetInLine (execAll r line_)) routeCallPatterns).

End Routes.

(** ** Definition lookup *)

Module Resolver.
Import Re Scanner Extractor Index Routes.

Inductive ReferenceKind : Type := Plain | Static | This | Object.

(** the object [getPhpReferenceAtPosition] returns; absent fields are empty *)
Record Reference : Type := mkReference {
  ref_kind : ReferenceKind;
  word : string;
  classToken : string;
  member : string
}.

(** [document.getText(document.getWordRangeAtPosition(position, re))]: the
    editor takes as the word at a position the match of the pattern on the
    line of the position that holds its column, ends included *)
Definition wordAt (document : Document) (position : Position) (r : re) : option string :=
  let col := character position in
  m0 <$> List.find (fun m => (index m <=? col)%nat
                             && (col <=? index m + String.length (m0 m))%nat)
                   (execAll r (Editor.lineAt document (line position))).

(** [/(QN)\s*::\s*(ID)/g] *)
Definition staticRe : re :=
  seqs [Grp 1 qualified; Star true Sp; Lit "::"; Star true Sp; Grp 2 ident].

(** [/(\$this|\$ID)\s*->\s*(ID)/g] *)
Definition objectRe : re :=
  seqs [Grp 1 (Alt (Lit "$this") (Seq (C "$") ident)); Star true Sp; Lit "->";
        Star true Sp; Grp 2 ident].

(** whether the member matched as group 2 spans the column *)
Definition onMember (offsetInLine : nat) (m : result) : bool :=
  let member_ := group 2 m in
  let memberStart := (Z.of_nat (index m) + Js.lastIndexOf member_ (m0 m))%Z in
  let memberEnd := (memberStart + Z.of_nat (String.length member_))%Z in
  (memberStart <=? Z.of_nat offsetInLine)%Z && (Z.of_nat offsetInLine <=? memberEnd)%Z.

Definition getPhpReferenceAtPosition (document : Document) (position : Position)
  : option Reference :=
  match wordAt document position qualified with
  | None => None
  | Some raw =>
      if negb (Js.truthy raw) then None
      else
        let word_ := stripLeadingBackslashes raw in
        let line_ := Editor.lineAt document (line position) in
        let offsetInLine := character position in
        match List.find (onMember offsetInLine) (execAll staticRe line_) with
        | Some m =>
            Some (mkReference Static word_ (stripLeadingBackslashes (group 1 m)) (group 2 m))
        | None =>
            match List.find (onMember offsetInLine) (execAll objectRe line_) with
            | Some m =>
                Some (mkReference
                        (if String.eqb (group 1 m) "$this" then This else Object)
                        word_ "" (group 2 m))
            | None => Some (mkReference Plain word_ "" "")
            end
        end
  end.

(** The pattern text [escapeRegExp(value)] puts a backslash before every
    character with a meaning in a pattern, so it denotes [value] itself,
    unit by unit. *)
Definition escaped (value : string) : re := Lit value.

(** [\b(class|interface|trait|enum)\s+NAME\b] *)
Definition typeDeclOf (name : string) : re :=
  seqs [WordB; typeKeyword 1; Plus Sp; escaped name; WordB].

(** [\bfunction\s+&?\s*NAME\s*\(] *)
Definition functionDeclOf (name : string) : re :=
  seqs [WordB; Lit "function"; Plus Sp; Opt (C "&"); Star true Sp; escaped name;
        Star true Sp; C "("].

(** [\b(?:public|protected|private|var)\s+(?:static\s+)?\$NAME\b] *)
Definition propertyDeclOf (name : string) : re :=
  seqs [WordB; alts [Lit "public"; Lit "protected"; Lit "private"; Lit "var"];
        Plus Sp; Opt (Seq (Lit "static") (Plus Sp)); C "$"; escaped name; WordB].

(** [\bconst\s+NAME\b] *)
Definition constDeclOf (name : string) : re :=
  seqs [WordB; Lit "const"; Plus Sp; escaped name; WordB].

(** [/\b(class|interface|trait|enum)\s+(ID)\b/g] *)
Definition anyTypeDeclRe : re :=
  seqs [WordB; typeKeyword 1; Plus Sp; Grp 2 ident; WordB].

Definition findEnclosingPhpClassName (document : Document) (position : Position)
  : option string :=
  let head := Js.slice 0 (Z.of_nat (Editor.offsetAt document position)) (getText document) in
  match List.last (List.map Some (execAll anyTypeDeclRe head)) None with
  | None => None
  | Some m => if Js.truthy (group 2 m) then Some (group 2 m) else None
  end.

Definition findPhpClassMemberRange (text className : string) : option (Z * Z) :=
  match exec (typeDeclOf className) text with
  | None => None
  | Some m =>
      let braceStart := Js.indexOf "{" (index m) text in
      if (braceStart =? -1)%Z then None
      else
        let braceEnd := findMatchingBrace text braceStart in
        if (braceEnd =? -1)%Z then None
        else Some (braceStart, (braceEnd + 1)%Z)
  end.

Definition resolvePhpClassTokenInDocument (text classToken_ : string) : string :=
  if negb (Js.truthy classToken_) || Js.includes "\" classToken_ then classToken_
  else
    match parsePhpUseAliases text !! classToken_ with
    | Some fqn_ => if Js.truthy fqn_ then fqn_ else classToken_
    | None => classToken_
    end.

(** the location of the first match among the patterns tried in turn,
    offsets counted from [base] *)
Definition firstDecl (document : Document) (base : Z) (text : string) (rs : list re)
  : option Location :=
  firstSome (fun r =>
               match exec r text with
               | Some m => Some (locOf document (base + Z.of_nat (index m)))
               | None => None
               end) rs.

(** the part of [findLocalPhpDefinition] that follows the two member cases *)
Definition findTopLevel (document : Document) (word_ : string) : option Location :=
  let text := getText document in
  let namespace := getPhpNamespace text in
  let wordEscaped := Js.pop (Js.split "\" word_) in
  match firstDecl document 0 text
          [typeDeclOf wordEscaped; functionDeclOf wordEscaped; constDeclOf wordEscaped] with
  | Some loc => Some loc
  | None =>
      let fqnCandidate :=
        if Js.truthy namespace then (namespace ++ "\" ++ word_)%string else word_ in
      firstDecl document 0 text [typeDeclOf (Js.pop (Js.split "\" fqnCandidate))]
  end.

Definition findLocalPhpDefinition (document : Document) (position : Position)
  (reference : Reference) : option Location :=
  let text := getText document in
  let word_ := word reference in
  if negb (Js.truthy word_) then None
  else
    match ref_kind reference with
    | This =>
        match findEnclosingPhpClassName document position with
        | None => None
        | Some className =>
            match findPhpClassMemberRange text className with
            | Some (start_, end_) =>
                firstDecl document start_ (Js.slice start_ end_ text)
                  [functionDeclOf (member reference); propertyDeclOf (member reference);
                   constDeclOf (member reference)]
            | None => None
            end
        end
    | Static =>
        let resolvedClass :=
          Js.orElse (resolvePhpClassTokenInDocument text (classToken reference))
                    (classToken reference) in
        let className := Js.pop (Js.split "\" resolvedClass) in
        if negb (Js.truthy className) then None
        else
          let inClass :=
            match findPhpClassMemberRange text className with
            | Some (start_, end_) =>
                firstDecl document start_ (Js.slice start_ end_ text)
                  [functionDeclOf (member reference); constDeclOf (member reference)]
            | None => None
            end in
          match inClass with
          | Some loc => Some loc
          | None => findTopLevel document word_
          end
    | _ => findTopLevel document word_
    end.

(** the locations of the first candidate key that has some *)
Definition firstListed (st : State) (candidates : list string) : option (list Location) :=
  firstSome (fun key =>
               match phpWorkspaceIndex st !! key with
               | Some (loc :: locs) => Some (loc :: locs)
               | _ => None
               end) candidates.

Definition resolvePhpReferenceFromIndex (st : State) (document : Document)
  (position : Position) (reference : Reference) : option (list Location) :=
  let byWord :=
    firstListed st [word reference; Js.pop (Js.split "\" (word reference))] in
  let byThis :=
    match ref_kind reference with
    | This =>
        match findEnclosingPhpClassName document position with
        | Some className =>
            firstListed st
              [(className ++ "::" ++ member reference)%string;
               (className ++ "->$" ++ member reference)%string;
               (className ++ "->" ++ member reference)%string;
               (className ++ "::" ++ Js.toUpperCase (member reference))%string]
        | None => None
        end
    | _ => None
    end in
  let byStatic :=
    match ref_kind reference with
    | Static =>
        let resolvedClass :=
          Js.orElse (resolvePhpClassTokenInDocument (getText document) (classToken reference))
                    (classToken reference) in
        firstListed st
          [(resolvedClass ++ "::" ++ member reference)%string;
           (Js.pop (Js.split "\" resolvedClass) ++ "::" ++ member reference)%string]
    | _ => None
    end in
  match byStatic with
  | Some locs => Some locs
  | None =>
      match byThis with
      | Some locs => Some locs
      | None => byWord
      end
  end.

(** what the two file enumerations of the workspace deliver *)
Record Workspace : Type := mkWorkspace {
  routeFiles : list (option Document);
  phpFiles : list (option Document)
}.

Definition ensurePhpWorkspaceIndex (files : list (option Document)) (st : State) : State :=
  fold_left (fun st file =>
               match file with
               | Some doc => updatePhpIndexForDocument doc st
               | None => st
               end) files st.

(** the first step of [provideDefinition]: when the position is taken for a
    route name, the route index is brought up to date and the locations it
    holds for the name, if any, are the answer *)
Definition routeGate (w : Workspace) (document : Document) (position : Position)
  (rst : RouteState) : option (list Location) * RouteState :=
  let routeName := getLaravelRouteNameAtPosition document position in
  if Js.truthy routeName then
    let rst1 := ensureLaravelRouteIndex (routeFiles w) rst in
    (match laravelRouteIndex rst1 !! routeName with
     | Some (loc :: locs) => Some (loc :: locs)
     | _ => None
     end, rst1)
  else (None, rst).

(** [provideDefinition]: the locations returned, a single location as a
    list of one, and the two indices as the call leaves them *)
Definition provideDefinition (w : Workspace) (document : Document) (position : Position)
  (st : State) (rst : RouteState) : option (list Location) * State * RouteState :=
  let '(routeLocs, rst1) := routeGate w document position rst in
  match routeLocs with
  | Some locs => (Some locs, st, rst1)
  | None =>
      match getPhpReferenceAtPosition document position with
      | None => (None, st, rst1)
      | Some reference =>
          match findLocalPhpDefinition document position reference with
          | Some local => (Some [local], st, rst1)
          | None =>
              let st1 := ensurePhpWorkspaceIndex (phpFiles w) st in
              (resolvePhpReferenceFromIndex st1 document position reference, st1, rst1)
          end
      end
  end.

End Resolver.

(** ** Sample documents *)

Module Samples.

Definition fileC : string := "file:///c.php".

(** the file of the class-and-method scenario, under any identity *)
Definition greeter (u p : string) : Document :=
  mkDocument u p "php"
    "namespace App; class Greeter { public function hello(string $name): string { } }".

Definition classWithFoo : Document :=
  mkDocument fileC "/c.php" "php" "<?php class C { public $foo; }".

Definition classWithBar : Document :=
  mkDocument fileC "/c.php" "php" "<?php class C { public $bar; }".

Definition onlyFunction : Document :=
  mkDocument fileC "/c.php" "php" "<?php function g() { }".

Definition shoutingMethod : Document :=
  mkDocument fileC "/c.php" "php"
    "<?php class C { const MAX = 1; function FOO() { } function bar() { } }".

(** a doc comment that annotates [$x] twice and the return type twice *)
Definition twiceAnnotated : string :=
  "/**
 * @param int $x
 * @param string $x
 * @return Foo
 * @return Bar
 */".

(** a variable with a doc-comment annotation and a literal assignment *)
Definition annotatedAssignment : Document :=
  mkDocument "file:///v.php" "/v.php" "php" "<?php /** @param Foo $x */ $x = 5; ".

(** a class whose body brace is never closed, with a method inside *)
Definition unbalancedClass : Document :=
  mkDocument "file:///u.php" "/u.php" "php" "<?php class A { function foo() { }".

(** the assignment found in [annotatedAssignment] *)
Definition theAssignment : Re.result :=
  Eval vm_compute in
    match Re.execAll Inference.assignRe
            (Inference.windowText annotatedAssignment (mkPosition 0 35)) with
    | m :: _ => m
    | [] => Re.Result 0 "" [] (Re.start "")
    end.

(** a variable assigned a literal and then the result of a call of a
    function the index does not know *)
Definition reassigned : Document :=
  mkDocument "file:///w.php" "/w.php" "php" "<?php $x = 5; $x = foo(); ".

(** the two assignments found in [reassigned] *)
Definition literalAssignment : Re.result :=
  Eval vm_compute in
    match Re.execAll Inference.assignRe
            (Inference.windowText reassigned (mkPosition 0 26)) with
    | m :: _ => m
    | [] => Re.Result 0 "" [] (Re.start "")
    end.

Definition callAssignment : Re.result :=
  Eval vm_compute in
    match Re.execAll Inference.assignRe
            (Inference.windowText reassigned (mkPosition 0 26)) with
    | _ :: m :: _ => m
    | _ => Re.Result 0 "" [] (Re.start "")
    end.

Fixpoint repeatText (n : nat) (s : string) : string :=
  match n with
  | O => ""
  | S n' => (s ++ repeatText n' s)%string
  end.

(** file B before and after a call of [f] is added to it *)
Definition callerBefore : Document :=
  mkDocument "file:///b.php" "/b.php" "php" "<?php g(); ".

Definition callerAfter : Document :=
  mkDocument "file:///b.php" "/b.php" "php" "<?php g(); f(); ".

(** a file with 2500 static calls, which are recorded twice each, before
    calls of [g] and of [f] *)
Definition crowdedText : string :=
  Eval vm_compute in (repeatText 2500 "A::b();" ++ "g(); f();")%string.

Definition crowdedCaller : Document :=
  mkDocument "file:///b.php" "/b.php" "php" crowdedText.

(** the declaration [function f] of another file, as a code lens holds it *)
Definition declOfF : References.Decl :=
  References.mkDecl References.FunctionDecl "f" "" "file:///a.php".

Definition declRangeOfF : Range := mkRange (mkPosition 0 15) (mkPosition 0 16).

(** a file that declares [f] and calls it right after a route call *)
Definition routeThenCall : Document :=
  mkDocument "file:///app/f.php" "/app/f.php" "php"
    "<?php
function f() { }
route('ff');f();
".

(** a file that declares [f] and calls it *)
Definition declaresAndCalls : Document :=
  mkDocument "file:///app/f.php" "/app/f.php" "php"
    "<?php
function f() { }
f();
".

(** another file with its own [f] *)
Definition otherF : Document :=
  mkDocument "file:///lib/other.php" "/lib/other.php" "php"
    "<?php
function f() { }
".

(** a routes file that names a route [ff] *)
Definition routesFile : Document :=
  mkDocument "file:///routes/web.php" "/routes/web.php" "php"
    "<?php
Route::get('/x', 'C@x')->name('ff');
".

Definition sampleWorkspace : Resolver.Workspace :=
  Resolver.mkWorkspace [Some routesFile] [Some otherF; Some routesFile].

(** the index with the other file's [f] in it *)
Definition indexWithOtherF : Index.State :=
  Index.updatePhpIndexForDocument otherF Index.initial.

(** the declaration of [f] found in [declaresAndCalls] *)
Definition theDeclaration : Re.result :=
  Eval vm_compute in
    match Re.exec (Resolver.functionDeclOf "f") (getText declaresAndCalls) with
    | Some m => m
    | None => Re.Result 0 "" [] (Re.start "")
    end.

(** the call of [f] found in [callerAfter] and the reference recorded for it *)
Definition theCall : Re.result :=
  Eval vm_compute in
    List.last (Re.execAll References.fnCallRe (getText callerAfter))
              (Re.Result 0 "" [] (Re.start "")).

Definition theCallReference : References.Reference :=
  Eval vm_compute in
    References.reference callerAfter "fn:f" 11 1.

Definition plainText : Document :=
  mkDocument "file:///notes.txt" "/notes.txt" "plaintext" "class C { }".

End Samples.

(** * Further functions of the extension and the notions their properties use *)

(** ** Brace matching *)

Module BraceSpec.

(** what a unit adds to the nesting depth *)
Definition braceStep (c : ascii) : Z :=
  if Chars.isC "{" c then 1%Z else if Chars.isC "}" c then (-1)%Z else 0%Z.

(** the nesting depth after the units of [s], starting from 0 *)
Fixpoint depthOf (s : string) : Z :=
  match s with
  | EmptyString => 0%Z
  | String c s' => (braceStep c + depthOf s')%Z
  end.

(** the unit at offset [n] of [s] is a closing brace that brings a scan
    entered at depth [d] back to depth 0 *)
Definition closesAt (d : Z) (s : string) (n : nat) : bool :=
  match String.get n s with
  | Some c => Chars.isC "}" c && (d + depthOf (Js.take (S n) s) =? 0)%Z
  | None => false
  end.

End BraceSpec.

(** ** The body of a type declaration, told from the text alone *)

Module DeclarationSpec.
Import BraceSpec.

(** no opening brace stands in [text] at or after offset [i] *)
Definition NoBraceFrom (text : string) (i : nat) : Prop :=
  forall k, i <= k -> String.get k text <> Some "{"%char.

(** [o] is the offset of the first opening brace of [text] at or after
    offset [i] *)
Definition FirstBraceFrom (text : string) (i o : nat) : Prop :=
  i <= o
  /\ String.get o text = Some "{"%char
  /\ forall k, i <= k < o -> String.get k text <> Some "{"%char.

(** counting every opening and closing brace from offset [o] on, the unit
    [n] places further is the first closing brace that brings the count
    back to zero *)
Definition ClosedAt (text : string) (o n : nat) : Prop :=
  closesAt 0 (Js.drop o text) n = true
  /\ forall j, j < n -> closesAt 0 (Js.drop o text) j = false.

(** counting from offset [o] on, no closing brace brings the count back to
    zero *)
Definition NeverClosed (text : string) (o : nat) : Prop :=
  forall n, closesAt 0 (Js.drop o text) n = false.

(** A declaration that starts at offset [i] has no body that can be
    delimited: the rest of the text holds no opening brace, or the first
    one it holds, wherever it stands, is never closed. *)
Definition Unclosed (text : string) (i : nat) : Prop :=
  NoBraceFrom text i
  \/ exists o, FirstBraceFrom text i o /\ NeverClosed text o.

(** [body] is the text from the first opening brace at or after offset [i]
    to the closing brace that closes it, both included *)
Definition BodyOf (text : string) (i : nat) (body : string) : Prop :=
  exists o n, FirstBraceFrom text i o /\ ClosedAt text o n
              /\ body = Js.take (S n) (Js.drop o text).

End DeclarationSpec.

(** ** Ranges delimited by braces *)

Module CallHierarchy.
Import Scanner.

(** [findPhpFunctionBodyRangeAtOffset(text, offset)] for [0 <= offset]; the
    object returned is the pair of its [start] and [end] *)
Definition findPhpFunctionBodyRangeAtOffset (text : string) (offset : nat)
  : option (Z * Z) :=
  let head := Js.slice 0 (Z.of_nat offset + 1) text in
  let fnIndex := Js.lastIndexOf "function" head in
  if (fnIndex =? -1)%Z then None
  else
    let braceStart := Js.indexOf "{" (Z.to_nat fnIndex) text in
    if (braceStart =? -1)%Z then None
    else
      let braceEnd := findMatchingBrace text braceStart in
      if (braceEnd =? -1)%Z then None
      else Some ((braceStart + 1)%Z, braceEnd).

End CallHierarchy.

Module RangeSpec.
Import BraceSpec.

(** the units of [text] at offsets [open] and [close] are an opening brace
    and the closing brace that matches it: the braces of the text between
    them are nested and balance *)
Definition Braced (text : string) (open close : nat) : Prop :=
  String.get open text = Some "{"%char
  /\ String.get close text = Some "}"%char
  /\ open < close
  /\ (forall k, k <= close - S open ->
        (0 <= depthOf (Js.take k (Js.drop (S open) text)))%Z)
  /\ depthOf (Js.take (close - S open) (Js.drop (S open) text)) = 0%Z.

End RangeSpec.

(** ** Counting the arguments before the cursor *)

Module Calls.
Import Scanner.

(** the variables of the loop of [countPhpActiveParameter] *)
Record CountState : Type := mkCount {
  commas : nat;
  c_depthParen : nat;
  c_depthBracket : nat;
  c_depthBrace : nat;
  c_inSingle : bool;
  c_inDouble : bool;
  c_escape : bool
}.

Definition countStep (st : CountState) (ch : ascii) : CountState :=
  let '(mkCount n dp dk db sq dq esc) := st in
  if sq || dq then
    if esc then mkCount n dp dk db sq dq false
    else if Chars.isC "\" ch then mkCount n dp dk db sq dq true
    else
      let sq' := if sq && Chars.isC "'" ch then false else sq in
      let dq' := if dq && Chars.isC "034" ch then false else dq in
      mkCount n dp dk db sq' dq' esc
  else if Chars.isC "'" ch then mkCount n dp dk db true dq esc
  else if Chars.isC "034" ch then mkCount n dp dk db sq true esc
  else
    let dp' := if Chars.isC "(" ch then S dp
               else if Chars.isC ")" ch then Nat.pred dp else dp in
    let dk' := if Chars.isC "(" ch || Chars.isC ")" ch then dk
               else if Chars.isC "[" ch then S dk
               else if Chars.isC "]" ch then Nat.pred dk else dk in
    let db' := if Chars.isC "(" ch || Chars.isC ")" ch
                  || Chars.isC "[" ch || Chars.isC "]" ch then db
               else if Chars.isC "{" ch then S db
               else if Chars.isC "}" ch then Nat.pred db else db in
    if Chars.isC "," ch && (dp' =? 0)%nat && (dk' =? 0)%nat && (db' =? 0)%nat
    then mkCount (S n) dp' dk' db' sq dq esc
    else mkCount n dp' dk' db' sq dq esc.

Fixpoint countRun (st : CountState) (s : string) : CountState :=
  match s with
  | EmptyString => st
  | String ch s' => countRun (countStep st ch) s'
  end.

Definition countPhpActiveParameter (argText : string) : nat :=
  commas (countRun (mkCount 0 0 0 0 false false false) argText).

End Calls.

Module CallsSpec.
Import Scanner Calls.

(** the number of units of [s] that satisfy [p] *)
Fixpoint countUnits (p : ascii -> bool) (s : string) : nat :=
  match s with
  | EmptyString => 0
  | String c s' => (if p c then 1 else 0) + countUnits p s'
  end.

(** a quote or a bracket of one of the three kinds *)
Definition nesting (c : ascii) : bool :=
  Chars.isC "'" c || Chars.isC "034" c
  || Chars.isC "(" c || Chars.isC ")" c
  || Chars.isC "[" c || Chars.isC "]" c
  || Chars.isC "{" c || Chars.isC "}" c.

(** the two scans agree on where they are: same depths, same quote state *)
Definition InStep (a : SplitState) (b : CountState) : Prop :=
  depthParen a = c_depthParen b /\ depthBracket a = c_depthBracket b
  /\ depthBrace a = c_depthBrace b /\ inSingle a = c_inSingle b
  /\ inDouble a = c_inDouble b /\ escape a = c_escape b.

(** what holds of the parts collected when the units [consumed] are read *)
Definition PartsOk (consumed : string) (st : SplitState) : Prop :=
  (exists pre, consumed = (pre ++ current st)%string)
  /\ forall p, p ∈ parts st ->
       p <> "" /\ Js.trim p = p /\ exists a b, consumed = (a ++ p ++ b)%string.

(** outside quotes and brackets every comma is counted *)
Definition Neutral (st : CountState) : Prop :=
  c_depthParen st = 0 /\ c_depthBracket st = 0 /\ c_depthBrace st = 0
  /\ c_inSingle st = false /\ c_inDouble st = false.

End CallsSpec.

(** ** Notions used to state further properties of the symbol index *)

Module IndexInvariant.
Import Extractor Index.

(** what a retraction of the file [u] leaves of a list of locations *)
Definition kept (u : string) (o : option (list Location)) : option (list Location) :=
  match o with
  | None => None
  | Some l => match List.filter (notFrom u) l with [] => None | l' => Some l' end
  end.

(** the locations the symbols contribute under the key [k], in their order *)
Definition locsOf (k : string) (symbols : list Symbol) : list Location :=
  List.map location
    (List.filter (fun s => Js.truthy (key s) && String.eqb (key s) k) symbols).

(** no key of the index maps to an empty list *)
Definition NoEmpty (m : gmap string (list Location)) : Prop :=
  forall k, m !! k <> Some [].

(** no location of the file [u] is listed *)
Definition Without (u : string) (m : gmap string (list Location)) : Prop :=
  forall k loc, loc ∈ default [] (m !! k) -> loc_uri loc <> u.

(** every location listed under a key belongs to a file whose recorded key
    set holds the key *)
Definition Tracked (st : State) : Prop :=
  forall k loc, loc ∈ lookup k st ->
    exists keys, phpWorkspaceIndexKeysByUri st !! loc_uri loc = Some keys /\ k ∈ keys.

(** the documents that could be opened *)
Definition opened (files : list (option Document)) : list Document :=
  omap id files.

End IndexInvariant.

(** ** Notions used to state further properties of the member lists *)

Module MembersInvariant.
Import Index.

(** none of the three lists names a member twice *)
Definition Distinct (m : Members) : Prop :=
  NoDup (methods m) /\ NoDup (properties m) /\ NoDup (constants m).

End MembersInvariant.

(** ** Cursors and the subject they run over *)

Module CursorSpec.
Import Re.

(** the cursor [c] stands at its offset in the subject [s] *)
Definition At (s : string) (c : cursor) : Prop :=
  Js.drop (N.to_nat (pos c)) s = rest c.

End CursorSpec.

(** ** The table of built-in functions by category *)

Module Categories.
Import Index.

Section Normalize.

(** [xs.sort((a, b) => a.localeCompare(b))]: the order is the host's
    collation, of which only that it rearranges the list is used *)
Variable order : list string -> list string.

(** [Array.from(new Set(xs))] *)
Definition distinct (xs : list string) : list string :=
  fold_left (fun acc x => setAdd x acc) xs [].

(** [source[category]] on the object [source], kept as the list of its
    entries *)
Fixpoint entry (category : string) (source : list (string * list string))
  : option (list string) :=
  match source with
  | [] => None
  | (c, funcs) :: source' =>
      if String.eqb c category then Some funcs else entry category source'
  end.

(** the categories in the order they are gone through: the preferred ones,
    then the keys of [source] in collation order, each once *)
Definition categoriesOf (source : list (string * list string))
  (preferredOrder : list string) : list string :=
  fold_left (fun cats c => setAdd c cats) (order (List.map fst source))
            (distinct preferredOrder).

(** [sortedUnique.filter(...)] with the set [seen] it updates on the way *)
Definition keepUnseen (seen : list string) (funcs : list string)
  : list string * list string :=
  fold_left (fun '(seen, kept) fn =>
               if bool_decide (fn ∈ seen) then (seen, kept)
               else (setAdd fn seen, kept ++ [fn]))
            funcs (seen, []).

(** the body of the loop over the categories *)
Definition categoryStep (source : list (string * list string))
  (acc : list string * list (string * list string)) (category : string)
  : list string * list (string * list string) :=
  let '(seen, normalized) := acc in
  match entry category source with
  | None => acc
  | Some [] => acc
  | Some funcs =>
      let sortedUnique := order (distinct funcs) in
      let '(seen', filtered) := keepUnseen seen sortedUnique in
      match filtered with
      | [] => (seen', normalized)
      | _ => (seen', orderedSet category filtered normalized)
      end
  end.

Definition normalizePhpFunctionsByCategory (source : list (string * list string))
  (preferredOrder : list string) : list (string * list string) :=
  snd (fold_left (categoryStep source) (categoriesOf source preferredOrder) ([], [])).

End Normalize.

End Categories.

Module CategoriesSpec.
Import Categories.

(** the function [f] is listed under the category [c] *)
Definition Listed (table : list (string * list string)) (c f : string) : Prop :=
  exists fs, (c, fs) ∈ table /\ f ∈ fs.

(** what the loop keeps: the names seen are the names listed, every list
    is non-empty and without repetition and comes from the source, no name
    is listed under two categories, and no category has two lists *)
Definition Normal (source : list (string * list string))
  (seen : list string) (table : list (string * list string)) : Prop :=
  (forall f, f ∈ seen <-> exists c, Listed table c f)
  /\ (forall c fs, (c, fs) ∈ table ->
        fs <> [] /\ NoDup fs
        /\ forall f, f ∈ fs -> exists funcs, entry c source = Some funcs /\ f ∈ funcs)
  /\ (forall c1 c2 f, Listed table c1 f -> Listed table c2 f -> c1 = c2)
  /\ NoDup (List.map fst table).

End CategoriesSpec.

(** ** The debouncer of lib/debouncer.js *)

Module Debounce.

Section Debouncer.

(** the functions handed to [debounce] *)
Variable Fn : Type.

(** A debouncer with the part of the host it acts on: [timers] is the map
    of the object, from keys to timer ids; [pending] holds the timers it
    has set with [setTimeout] and that have neither expired nor been
    cleared, each with the key and the function its callback closes over;
    [nextId] is the id the next [setTimeout] returns; [called] lists the
    functions called so far. *)
Record State : Type := mkState {
  timers : gmap string nat;
  pending : gmap nat (string * Fn);
  nextId : nat;
  called : list Fn
}.

Definition initial : State := mkState ∅ ∅ 0 [].

(** [clearTimeout(this.timers.get(key))] when the map has the key *)
Definition clearFor (key : string) (st : State) : gmap nat (string * Fn) :=
  match timers st !! key with
  | Some id => delete id (pending st)
  | None => pending st
  end.

(** [debounce(key, fn)] *)
Definition debounce (key : string) (fn : Fn) (st : State) : State :=
  let timer := nextId st in
  mkState (<[key := timer]> (timers st))
          (<[timer := (key, fn)]> (clearFor key st))
          (S (nextId st)) (called st).

(** the host runs the callback of the timer [id], if it is still pending:
    [this.timers.delete(key); fn.call(thisArg)] *)
Definition expire (id : nat) (st : State) : State :=
  match pending st !! id with
  | Some (key, fn) =>
      mkState (delete key (timers st)) (delete id (pending st)) (nextId st)
              (called st ++ [fn])
  | None => st
  end.

(** [cancel(key)] *)
Definition cancel (key : string) (st : State) : State :=
  match timers st !! key with
  | Some id =>
      mkState (delete key (timers st)) (delete id (pending st)) (nextId st) (called st)
  | None => st
  end.

(** [cancelAll()] *)
Definition cancelAll (st : State) : State :=
  mkState ∅
          (fold_left (fun p id => delete id p) (List.map snd (map_to_list (timers st)))
                     (pending st))
          (nextId st) (called st).

(** the states a debouncer and its timers can be in *)
Inductive Reachable : State -> Prop :=
  | reach_initial : Reachable initial
  | reach_debounce key fn st : Reachable st -> Reachable (debounce key fn st)
  | reach_expire id st : Reachable st -> Reachable (expire id st)
  | reach_cancel key st : Reachable st -> Reachable (cancel key st)
  | reach_cancelAll st : Reachable st -> Reachable (cancelAll st).

(** the map of the object names exactly the pending timers, and no timer
    has an id still to be given out *)
Definition Consistent (st : State) : Prop :=
  (forall key id, timers st !! key = Some id <->
                  exists fn, pending st !! id = Some (key, fn))
  /\ (forall id, is_Some (pending st !! id) -> id < nextId st).

End Debouncer.

Arguments mkState {Fn}.
Arguments timers {Fn}.
Arguments pending {Fn}.
Arguments nextId {Fn}.
Arguments called {Fn}.
Arguments initial {Fn}.
Arguments clearFor {Fn}.
Arguments debounce {Fn}.
Arguments expire {Fn}.
Arguments cancel {Fn}.
Arguments cancelAll {Fn}.
Arguments Reachable {Fn}.
Arguments Consistent {Fn}.

End Debounce.

(** ** Inputs of the worked instances of the further properties *)

Module MoreSamples.
Import Re Extractor Index.

Definition nestedBraces : string := "a{b{c}d}e".

Definition smallClass : string := "class A { }".

Definition smallFunction : string := "function f() { g(); }".

Definition twoParameters : string := "int $a, string $b".

(** the location of the declaration of [f] in [Samples.otherF] *)
Definition otherFDeclared : list Location :=
  [mkLocation "file:///lib/other.php" (mkRange (mkPosition 1 9) (mkPosition 1 9))].

(** the location of the declaration of [f] in [Samples.declaresAndCalls] *)
Definition localFDeclared : list Location :=
  [mkLocation "file:///app/f.php" (mkRange (mkPosition 1 0) (mkPosition 1 0))].

(** a table of functions in which [count] stands under two categories *)
Definition functionTable : list (string * list string) :=
  [("String", ["strlen"; "trim"; "count"]); ("Array", ["count"; "sort"; "count"]);
   ("Empty", [])].

Definition preferred : list string := ["Array"; "Math"; "Array"].

(** a declaration without a body of its own, followed by a class with one *)
Definition bodilessThenClass : Document :=
  mkDocument "file:///h.php" "/h.php" "php"
    "<?php abstract class A extends B
class C { function m() { } }".

End MoreSamples.

(** ** Notions used to relate the extractor to the member lists *)

Module MemberKeys.
Import MembersSpec.

(** a non-empty name made of identifier units *)
Definition plainName (x : string) : Prop :=
  x <> "" /\ every Chars.identChar x = true.

(** the text [classBody] that the loop over the type declarations scans for
    the members of the declaration matched by [m] *)
Definition classBodyOf (text : string) (m : Re.result) : string :=
  let braceStart := Js.indexOf "{" (Re.index m) text in
  Js.slice braceStart (Scanner.findMatchingBrace text braceStart + 1) text.

End MemberKeys.

(** ** Inputs of the worked instance of the member keys *)

Module MemberSamples.
Import Re Extractor Samples MemberKeys.

Definition noMatch : Re.result := Re.Result 0 "" [] (Re.start "").

(** the declaration of the class in [Samples.shoutingMethod] *)
Definition theClass : Re.result :=
  Eval vm_compute in
    match Re.execAll classDeclRe (getText shoutingMethod) with
    | m :: _ => m
    | [] => noMatch
    end.

(** the declaration of [bar] in that class *)
Definition theMethod : Re.result :=
  Eval vm_compute in
    match Re.execAll functionRe (classBodyOf (getText shoutingMethod) theClass) with
    | _ :: m :: _ => m
    | _ => noMatch
    end.

End MemberSamples.

(** * Properties *)

(** ** Auxiliary facts on the helpers *)

Lemma truthy_true (s : string) : Js.truthy s = true <-> s <> "".
Proof.
  unfold Js.truthy. rewrite negb_true_iff. apply String.eqb_neq.
Qed.

Lemma truthy_false (s : string) : Js.truthy s = false <-> s = "".
Proof.
  unfold Js.truthy. rewrite negb_false_iff. apply String.eqb_eq.
Qed.

Module IndexFacts.
Import Extractor Index IndexSpec.

(** *** Retraction *)

Lemma notFrom_true u l : notFrom u l = true <-> loc_uri l <> u.
Proof. unfold notFrom. rewrite negb_true_iff. apply String.eqb_neq. Qed.

Lemma retain_lookup_ne {V} (f : V -> bool) k k' (m : gmap string (list V)) :
  k <> k' -> retain f k m !! k' = m !! k'.
Proof.
  intros Hne. unfold retain. destruct (m !! k) as [l|] eqn:E; [|done].
  destruct (List.filter f l); [by rewrite lookup_delete_ne | by rewrite lookup_insert_ne].
Qed.

Lemma retain_lookup_eq {V} (f : V -> bool) k (m : gmap string (list V)) :
  retain f k m !! k =
    match m !! k with
    | None => None
    | Some l => match List.filter f l with [] => None | l' => Some l' end
    end.
Proof.
  unfold retain. destruct (m !! k) as [l|] eqn:E; [|done].
  destruct (List.filter f l); [by rewrite lookup_delete_eq | by rewrite lookup_insert_eq].
Qed.

Lemma filter_notFrom u (l : list Location) :
  Forall (fun x => loc_uri x <> u) (List.filter (notFrom u) l).
Proof.
  apply List.Forall_forall. intros x Hx. apply List.filter_In in Hx as [_ Hx].
  by apply notFrom_true.
Qed.

Lemma retain_clean_same u k m : Clean u (retain (notFrom u) k m) k.
Proof.
  intros locs. rewrite retain_lookup_eq.
  destruct (m !! k) as [l|]; [|done].
  pose proof (filter_notFrom u l) as HF.
  destruct (List.filter (notFrom u) l) as [|x l'] eqn:E; [done|].
  intros [= <-]. split; [done | exact HF].
Qed.

Lemma retain_clean_keep u k k' m : Clean u m k' -> Clean u (retain (notFrom u) k m) k'.
Proof.
  intros Hc. destruct (decide (k = k')) as [->|Hne].
  - apply retain_clean_same.
  - intros locs. rewrite retain_lookup_ne by done. apply Hc.
Qed.

Lemma retractAll_keep u keys m k : Clean u m k -> Clean u (retractAll u keys m) k.
Proof.
  revert m. induction keys as [|k0 keys IH]; intros m Hc; simpl; [done|].
  apply IH. by apply retain_clean_keep.
Qed.

Lemma retractAll_clean u keys m k : k ∈ keys -> Clean u (retractAll u keys m) k.
Proof.
  revert m. induction keys as [|k0 keys IH]; intros m Hin; simpl.
  - by apply elem_of_nil in Hin.
  - apply elem_of_cons in Hin as [->|Hin].
    + apply retractAll_keep, retain_clean_same.
    + by apply IH.
Qed.

Lemma retractAll_other u keys m k : k ∉ keys -> retractAll u keys m !! k = m !! k.
Proof.
  revert m. induction keys as [|k0 keys IH]; intros m Hin; simpl; [done|].
  apply not_elem_of_cons in Hin as [Hne Hin].
  rewrite IH by done. by apply retain_lookup_ne.
Qed.

Lemma retractKey_index u st k :
  phpWorkspaceIndex (retractKey u st k) = retain (notFrom u) k (phpWorkspaceIndex st).
Proof.
  unfold retractKey. destruct (phpWorkspaceIndex st !! k) eqn:E; [done|].
  unfold retain. by rewrite E.
Qed.

Lemma retractKey_keys u st k :
  phpWorkspaceIndexKeysByUri (retractKey u st k) = phpWorkspaceIndexKeysByUri st.
Proof. unfold retractKey. by destruct (phpWorkspaceIndex st !! k). Qed.

Lemma retractKey_version u st k :
  phpWorkspaceIndexVersion (retractKey u st k) = phpWorkspaceIndexVersion st.
Proof. unfold retractKey. by destruct (phpWorkspaceIndex st !! k). Qed.

Lemma retractKey_cache u st k :
  phpWorkspaceMembersCache (retractKey u st k) = phpWorkspaceMembersCache st.
Proof. unfold retractKey. by destruct (phpWorkspaceIndex st !! k). Qed.

Lemma fold_retract_index u keys st :
  phpWorkspaceIndex (fold_left (retractKey u) keys st)
  = retractAll u keys (phpWorkspaceIndex st).
Proof.
  revert st. induction keys as [|k keys IH]; intros st; simpl; [done|].
  by rewrite IH, retractKey_index.
Qed.

Lemma fold_retract_keys u keys st :
  phpWorkspaceIndexKeysByUri (fold_left (retractKey u) keys st)
  = phpWorkspaceIndexKeysByUri st.
Proof.
  revert st. induction keys as [|k keys IH]; intros st; simpl; [done|].
  by rewrite IH, retractKey_keys.
Qed.

Lemma fold_retract_version u keys st :
  phpWorkspaceIndexVersion (fold_left (retractKey u) keys st)
  = phpWorkspaceIndexVersion st.
Proof.
  revert st. induction keys as [|k keys IH]; intros st; simpl; [done|].
  by rewrite IH, retractKey_version.
Qed.

Lemma fold_retract_cache u keys st :
  phpWorkspaceMembersCache (fold_left (retractKey u) keys st)
  = phpWorkspaceMembersCache st.
Proof.
  revert st. induction keys as [|k keys IH]; intros st; simpl; [done|].
  by rewrite IH, retractKey_cache.
Qed.

(** the components of the state after [deletePhpIndexForUri] *)
Lemma delete_index u st :
  phpWorkspaceIndex (deletePhpIndexForUri u st) =
    match phpWorkspaceIndexKeysByUri st !! u with
    | None => phpWorkspaceIndex st
    | Some keys => retractAll u keys (phpWorkspaceIndex st)
    end.
Proof.
  unfold deletePhpIndexForUri.
  destruct (phpWorkspaceIndexKeysByUri st !! u); [|done].
  simpl. apply fold_retract_index.
Qed.

Lemma delete_keys_lookup u st :
  phpWorkspaceIndexKeysByUri (deletePhpIndexForUri u st) !! u = None.
Proof.
  unfold deletePhpIndexForUri.
  destruct (phpWorkspaceIndexKeysByUri st !! u) eqn:E; [|done].
  simpl. apply lookup_delete_eq.
Qed.

Lemma delete_version u st :
  phpWorkspaceIndexVersion (deletePhpIndexForUri u st) =
    match phpWorkspaceIndexKeysByUri st !! u with
    | None => phpWorkspaceIndexVersion st
    | Some _ => (phpWorkspaceIndexVersion st + 1)%Z
    end.
Proof.
  unfold deletePhpIndexForUri.
  destruct (phpWorkspaceIndexKeysByUri st !! u); [|done].
  simpl. by rewrite fold_retract_version.
Qed.

Lemma delete_cache u st :
  phpWorkspaceMembersCache (deletePhpIndexForUri u st) = phpWorkspaceMembersCache st.
Proof.
  unfold deletePhpIndexForUri.
  destruct (phpWorkspaceIndexKeysByUri st !! u); [|done].
  simpl. by rewrite fold_retract_cache.
Qed.

(** *** Insertion *)

Lemma fold_insert_index u symbols keys st :
  phpWorkspaceIndex (snd (fold_left (insertSymbol u) symbols (keys, st)))
  = insertAll symbols (phpWorkspaceIndex st).
Proof.
  revert keys st. induction symbols as [|s symbols IH]; intros keys st; simpl; [done|].
  destruct (Js.truthy (key s)); simpl; by rewrite IH.
Qed.

Lemma fold_insert_keys u symbols keys st :
  fst (fold_left (insertSymbol u) symbols (keys, st)) = collectKeys symbols keys.
Proof.
  revert keys st. induction symbols as [|s symbols IH]; intros keys st; simpl; [done|].
  destruct (Js.truthy (key s)); simpl; by rewrite IH.
Qed.

Lemma fold_insert_version u symbols keys st :
  phpWorkspaceIndexVersion (snd (fold_left (insertSymbol u) symbols (keys, st)))
  = phpWorkspaceIndexVersion st.
Proof.
  revert keys st. induction symbols as [|s symbols IH]; intros keys st; simpl; [done|].
  destruct (Js.truthy (key s)); simpl; by rewrite IH.
Qed.

Lemma fold_insert_cache u symbols keys st :
  phpWorkspaceMembersCache (snd (fold_left (insertSymbol u) symbols (keys, st)))
  = phpWorkspaceMembersCache st.
Proof.
  revert keys st. induction symbols as [|s symbols IH]; intros keys st; simpl; [done|].
  destruct (Js.truthy (key s)); simpl; by rewrite IH.
Qed.

Lemma fold_insert_keysByUri u symbols keys st :
  phpWorkspaceIndexKeysByUri (snd (fold_left (insertSymbol u) symbols (keys, st)))
  = phpWorkspaceIndexKeysByUri st.
Proof.
  revert keys st. induction symbols as [|s symbols IH]; intros keys st; simpl; [done|].
  destruct (Js.truthy (key s)); simpl; by rewrite IH.
Qed.

Lemma setAdd_elem k k' ks : k' ∈ setAdd k ks <-> k' = k \/ k' ∈ ks.
Proof.
  unfold setAdd. case_bool_decide as H.
  - split; [auto | intros [->|]; done].
  - rewrite elem_of_app, list_elem_of_singleton. tauto.
Qed.

Lemma collectKeys_elem symbols keys k :
  k ∈ collectKeys symbols keys <->
  k ∈ keys \/ exists s, s ∈ symbols /\ key s = k /\ k <> "".
Proof.
  revert keys. induction symbols as [|s symbols IH]; intros keys; simpl.
  - split; [auto | intros [H | (s & Hs & _)]; [done | by apply elem_of_nil in Hs]].
  - rewrite IH. destruct (Js.truthy (key s)) eqn:Ht.
    + apply truthy_true in Ht. rewrite setAdd_elem. split.
      * intros [[-> | H] | (s' & Hs' & Hk)]; [right | left | right]; eauto.
        -- exists s. split; [apply elem_of_cons | ]; auto.
        -- exists s'. split; [apply elem_of_cons | ]; auto.
      * intros [H | (s' & Hs' & Hk & Hne)]; [auto|].
        apply elem_of_cons in Hs' as [-> | Hs']; [auto | right; eauto].
    + apply truthy_false in Ht. split.
      * intros [H | (s' & Hs' & Hk)]; [auto | right].
        exists s'. split; [apply elem_of_cons | ]; auto.
      * intros [H | (s' & Hs' & Hk & Hne)]; [auto|].
        apply elem_of_cons in Hs' as [-> | Hs']; [congruence | right; eauto].
Qed.

Lemma pushAt_lookup_ne {V} k k' (x : V) m : k <> k' -> pushAt k x m !! k' = m !! k'.
Proof. intros. unfold pushAt. by rewrite lookup_insert_ne. Qed.

Lemma pushAt_lookup_eq {V} k (x : V) m :
  pushAt k x m !! k = Some (default [] (m !! k) ++ [x]).
Proof. unfold pushAt. by rewrite lookup_insert_eq. Qed.

Lemma insertAll_other symbols m k :
  (forall s, s ∈ symbols -> key s <> "" -> key s <> k) ->
  insertAll symbols m !! k = m !! k.
Proof.
  revert m. induction symbols as [|s symbols IH]; intros m Hk; simpl; [done|].
  rewrite IH by (intros s' Hs'; apply Hk, elem_of_cons; auto).
  destruct (Js.truthy (key s)) eqn:Ht; [|done].
  apply pushAt_lookup_ne, Hk; [apply elem_of_cons; auto | by apply truthy_true].
Qed.

Lemma insertAll_mono symbols m k l :
  l ∈ default [] (m !! k) -> l ∈ default [] (insertAll symbols m !! k).
Proof.
  revert m. induction symbols as [|s symbols IH]; intros m Hl; simpl; [done|].
  apply IH. destruct (Js.truthy (key s)); [|done].
  destruct (decide (key s = k)) as [<-|Hne].
  - rewrite pushAt_lookup_eq. simpl. apply elem_of_app. auto.
  - by rewrite pushAt_lookup_ne.
Qed.

Lemma insertAll_elem symbols m s :
  s ∈ symbols -> key s <> "" ->
  location s ∈ default [] (insertAll symbols m !! key s).
Proof.
  revert m. induction symbols as [|s0 symbols IH]; intros m Hin Hne; simpl.
  - by apply elem_of_nil in Hin.
  - apply elem_of_cons in Hin as [<- | Hin]; [|by apply IH].
    apply insertAll_mono. apply truthy_true in Hne. rewrite Hne.
    rewrite pushAt_lookup_eq. simpl. apply elem_of_app. right. apply list_elem_of_singleton.
    done.
Qed.

Lemma fileKeys_elem d k :
  k ∈ fileKeys d <->
  exists s, s ∈ extractPhpSymbolsFromDocument d /\ key s = k /\ k <> "".
Proof.
  unfold fileKeys. rewrite collectKeys_elem. split; [|auto].
  intros [H|H]; [by apply elem_of_nil in H | done].
Qed.

(** the components of the state after [updatePhpIndexForDocument] *)
Lemma update_unfold d st :
  languageId d = "php" ->
  updatePhpIndexForDocument d st =
    let r := fold_left (insertSymbol (uri d)) (extractPhpSymbolsFromDocument d)
                       ([], deletePhpIndexForUri (uri d) st) in
    bumpVersion (rebuildPhpClassFqnMaps (rememberKeys (uri d) (fst r) (snd r))).
Proof.
  intros Hphp. unfold updatePhpIndexForDocument. rewrite Hphp. simpl.
  by destruct (fold_left _ _ _).
Qed.

Lemma update_index d st :
  languageId d = "php" ->
  phpWorkspaceIndex (updatePhpIndexForDocument d st) =
    insertAll (extractPhpSymbolsFromDocument d)
              (phpWorkspaceIndex (deletePhpIndexForUri (uri d) st)).
Proof.
  intros Hphp. rewrite update_unfold by done. simpl. apply fold_insert_index.
Qed.

Lemma update_version d st :
  languageId d = "php" ->
  phpWorkspaceIndexVersion (updatePhpIndexForDocument d st) =
    (phpWorkspaceIndexVersion (deletePhpIndexForUri (uri d) st) + 1)%Z.
Proof.
  intros Hphp. rewrite update_unfold by done. simpl. by rewrite fold_insert_version.
Qed.

Lemma update_cache d st :
  phpWorkspaceMembersCache (updatePhpIndexForDocument d st) = phpWorkspaceMembersCache st.
Proof.
  unfold updatePhpIndexForDocument. destruct (negb _); [done|].
  destruct (fold_left _ _ _) as [ks st2] eqn:E. simpl.
  change st2 with (snd (ks, st2)). rewrite <- E.
  by rewrite fold_insert_cache, delete_cache.
Qed.

Lemma update_keys_lookup d st :
  languageId d = "php" ->
  phpWorkspaceIndexKeysByUri (updatePhpIndexForDocument d st) !! uri d =
    match fileKeys d with [] => None | ks => Some ks end.
Proof.
  intros Hphp. rewrite update_unfold by done. simpl.
  rewrite fold_insert_keys, fold_insert_keysByUri. fold (fileKeys d).
  destruct (fileKeys d); [apply delete_keys_lookup | by rewrite lookup_insert_eq].
Qed.

End IndexFacts.

(** ** Every extracted symbol is located in the scanned document *)

Module ReFacts.
Import Re ReSpec.

Lemma in_flat_map_run {A} (f : A -> list cursor) l e :
  In e (flat_map f l) -> exists c, In c l /\ In e (f c).
Proof. intros H. apply in_flat_map in H. exact H. Qed.

Lemma eat_pos lit c e : In e (eat lit c) -> (pos c <= pos e)%N.
Proof.
  revert c. induction lit as [|a lit IH]; intros c H; simpl in H.
  - destruct H as [<-|[]]. lia.
  - destruct (rest c) as [|b t]; [done|].
    destruct (Ascii.eqb a b); [|done].
    apply IH in H. simpl in H. lia.
Qed.

Lemma iterate_pos body g n c e :
  (forall c e, In e (body c) -> (pos c <= pos e)%N) ->
  In e (iterate body g n c) -> (pos c <= pos e)%N.
Proof.
  intros Hb. revert c. induction n as [|n IH]; intros c H; simpl in H.
  - destruct H as [<-|[]]. lia.
  - assert (Hmore : In e (flat_map (fun c' => if (pos c <? pos c')%N
                                              then iterate body g n c' else [])
                             (body c)) -> (pos c <= pos e)%N).
    { intros Hin. apply in_flat_map_run in Hin as (c' & Hc' & He).
      destruct (pos c <? pos c')%N eqn:E; [|done].
      apply N.ltb_lt in E. apply IH in He. lia. }
    destruct g.
    + apply in_app_or in H as [H|[<-|[]]]; [auto | lia].
    + destruct H as [<-|H]; [lia | auto].
Qed.

(** a match never ends before it starts *)
Lemma run_pos b r c e : In e (run b r c) -> (pos c <= pos e)%N.
Proof.
  revert c e. induction r as [|p|a IHa b' IHb|a IHa b' IHb|g a IHa|n a IHa|n| | |];
    intros c e H; cbn [run] in H.
  - destruct H as [<-|[]]. lia.
  - destruct (next c) as [x|] eqn:En; [|done]. destruct (p x); [|done].
    unfold step in H. unfold next in En. destruct (rest c); [done|].
    destruct H as [<-|[]]. simpl. lia.
  - apply in_flat_map_run in H as (c' & Hc' & He).
    apply IHa in Hc'. apply IHb in He. lia.
  - apply in_app_or in H as [H|H]; auto.
  - eapply iterate_pos; [|exact H]. auto.
  - apply in_map_iff in H as (e' & <- & He'). simpl. auto.
  - by apply eat_pos in H.
  - destruct (xorb _ _); [|done]. destruct H as [<-|[]]. lia.
  - destruct (prev c) as [x|]; [destruct (_ && _)|];
      try done; destruct H as [<-|[]]; lia.
  - destruct (next c) as [x|]; [destruct (_ && _)|];
      try done; destruct H as [<-|[]]; lia.
Qed.

Lemma eat_caps lit c e : In e (eat lit c) -> caps e = caps c.
Proof.
  revert c. induction lit as [|a lit IH]; intros c H; simpl in H.
  - by destruct H as [<-|[]].
  - destruct (rest c) as [|b t]; [done|].
    destruct (Ascii.eqb a b); [|done]. by apply IH in H.
Qed.

Lemma iterate_property (P : cursor -> cursor -> Prop) body g n c e :
  (forall c, P c c) -> (forall a b c, P a b -> P b c -> P a c) ->
  (forall c e, In e (body c) -> P c e) ->
  In e (iterate body g n c) -> P c e.
Proof.
  intros Hrefl Htrans Hb. revert c. induction n as [|n IH]; intros c H; simpl in H.
  - destruct H as [<-|[]]. apply Hrefl.
  - assert (Hmore : In e (flat_map (fun c' => if (pos c <? pos c')%N
                                              then iterate body g n c' else [])
                             (body c)) -> P c e).
    { intros Hin. apply in_flat_map_run in Hin as (c' & Hc' & He).
      destruct (pos c <? pos c')%N; [|done]. eauto. }
    destruct g.
    + apply in_app_or in H as [H|[<-|[]]]; auto.
    + destruct H as [<-|H]; auto.
Qed.

Lemma capture_other k n s cs : k <> n -> capture n ((k, s) :: cs) = capture n cs.
Proof.
  intros Hne. unfold capture. cbn [List.find fst].
  apply Nat.eqb_neq in Hne. by rewrite Hne.
Qed.

(** a pattern without group [n] leaves the capture of group [n] as it was *)
Lemma run_untouched b n r c e :
  untouched n r = true -> In e (run b r c) -> capture n (caps e) = capture n (caps c).
Proof.
  revert c e. induction r as [|p|a IHa b' IHb|a IHa b' IHb|g a IHa|k a IHa|k| | |];
    intros c e Hu H; cbn [run untouched] in H, Hu.
  - by destruct H as [<-|[]].
  - destruct (next c) as [x|]; [|done]. destruct (p x); [|done].
    unfold step in H. destruct (rest c); [done|]. by destruct H as [<-|[]].
  - apply andb_true_iff in Hu as [Hua Hub].
    apply in_flat_map_run in H as (c' & Hc' & He).
    rewrite (IHb _ _ Hub He). by apply IHa.
  - apply andb_true_iff in Hu as [Hua Hub].
    apply in_app_or in H as [H|H]; auto.
  - apply (iterate_property
             (fun c e => capture n (caps e) = capture n (caps c)) (run b a) g b c e);
      [done | intros x y z Hxy Hyz; congruence | auto | done].
  - apply andb_true_iff in Hu as [Hk Hua]. apply negb_true_iff, Nat.eqb_neq in Hk.
    apply in_map_iff in H as (e' & <- & He'). cbn [caps].
    rewrite capture_other by done. auto.
  - apply eat_caps in H. by rewrite H.
  - destruct (xorb _ _); [|done]. by destruct H as [<-|[]].
  - destruct (prev c) as [x|]; [destruct (_ && _)|];
      try done; by destruct H as [<-|[]].
  - destruct (next c) as [x|]; [destruct (_ && _)|];
      try done; by destruct H as [<-|[]].
Qed.

Lemma run_captures b n x r c e :
  Captures n x r -> In e (run b r c) ->
  exists c' e', In e' (run b x c') /\ capture n (caps e) = between c' e'.
Proof.
  intros Hc. revert c e. induction Hc as [|a r _ IH|r b' _ IH Hu]; intros c e H;
    cbn [run] in H.
  - apply in_map_iff in H as (e' & <- & He'). exists c, e'. split; [done|].
    unfold capture. cbn. by rewrite Nat.eqb_refl.
  - apply in_flat_map_run in H as (c' & _ & He). eauto.
  - apply in_flat_map_run in H as (c1 & Hc1 & He).
    destruct (IH _ _ Hc1) as (c' & e' & He' & Hcap).
    exists c', e'. split; [done|]. by rewrite (run_untouched _ _ _ _ _ Hu He).
Qed.

Lemma take_nonempty n s : 0 < n -> s <> "" -> Js.take n s <> "".
Proof. destruct n; [lia|]. by destruct s. Qed.

(** a unit of a class followed by a run of a class spans at least one unit *)
Lemma run_class_run_advances b p q g c e :
  In e (run b (Seq (Chr p) (Star g (Chr q))) c) -> between c e <> "".
Proof.
  intros H. cbn [run] in H. apply in_flat_map_run in H as (c1 & Hc1 & He).
  unfold next, step in Hc1. destruct (rest c) as [|a t] eqn:Er; [done|].
  destruct (p a); [|done]. destruct Hc1 as [<-|[]].
  change (In e (run b (Star g (Chr q)) (Cursor (N.succ (pos c)) (Some a) t (caps c))))
    in He.
  apply run_pos in He. simpl in He. unfold between. rewrite Er.
  apply take_nonempty; [lia | done].
Qed.

Lemma searchFrom_matchAt b r p pv s m :
  searchFrom b r p pv s = Some m ->
  exists p' pv' s', matchAt b r (Cursor p' pv' s' []) = Some m.
Proof.
  revert p pv. induction s as [|a s IH]; intros p pv H; cbn [searchFrom] in H.
  - destruct (matchAt b r _) eqn:E; [|done]. injection H as <-. eauto.
  - destruct (matchAt b r _) eqn:E; [injection H as <-; eauto | eauto].
Qed.

Lemma matchAt_run b r c m :
  matchAt b r c = Some m ->
  exists e, In e (run b r (Cursor (pos c) (prev c) (rest c) []))
            /\ groups m = caps e /\ index m = N.to_nat (pos c)
            /\ m0 m = between c e
            /\ pos (after m) = pos e.
Proof.
  unfold matchAt. destruct (run b r _) as [|e l] eqn:E; [done|].
  intros [= <-]. exists e. cbn. repeat split; auto.
Qed.

(** the group put around a unit of a class and a run of a class is never
    empty in a match *)
Lemma search_group_nonempty b n p q g r c m :
  Captures n (Seq (Chr p) (Star g (Chr q))) r ->
  search b r c = Some m -> group n m <> "".
Proof.
  intros Hc H. unfold search in H.
  apply searchFrom_matchAt in H as (p' & pv' & s' & H).
  apply matchAt_run in H as (e & He & Hg & _).
  destruct (run_captures _ _ _ _ _ _ Hc He) as (c' & e' & He' & Hcap).
  unfold group. rewrite Hg, Hcap. by apply run_class_run_advances in He'.
Qed.

Lemma exec_group_nonempty n p q g r s m :
  Captures n (Seq (Chr p) (Star g (Chr q))) r ->
  exec r s = Some m -> group n m <> "".
Proof. intros Hc H. by apply (search_group_nonempty _ _ _ _ _ _ _ _ Hc H). Qed.

Lemma execLoop_search fuel b r c m :
  In m (execLoop fuel b r c) -> exists c', search b r c' = Some m.
Proof.
  revert c. induction fuel as [|fuel IH]; intros c H; cbn [execLoop] in H; [done|].
  destruct (search b r c) as [m'|] eqn:E; [|done].
  destruct H as [<-|H]; eauto.
Qed.

Lemma execAll_group_nonempty n p q g r s m :
  Captures n (Seq (Chr p) (Star g (Chr q))) r ->
  In m (execAll r s) -> group n m <> "".
Proof.
  intros Hc H. apply execLoop_search in H as (c' & H).
  by apply (search_group_nonempty _ _ _ _ _ _ _ _ Hc H).
Qed.

Lemma iterate_here body g n c : In c (iterate body g n c).
Proof.
  destruct n as [|n]; cbn [iterate]; [by left|].
  destruct g; [apply in_or_app; right|]; by left.
Qed.

Lemma in_run_seq b r1 r2 c c' e :
  In c' (run b r1 c) -> In e (run b r2 c') -> In e (run b (Seq r1 r2) c).
Proof. intros H1 H2. cbn [run]. apply in_flat_map. eauto. Qed.

Lemma in_run_class b (p : ascii -> bool) a t n pv cs :
  p a = true ->
  In (Cursor (N.succ n) (Some a) t cs) (run b (Chr p) (Cursor n pv (String a t) cs)).
Proof. intros H. cbn [run next step rest pos caps]. rewrite H. by left. Qed.

Lemma in_run_boundary b a t n pv cs :
  isWordOpt pv = false -> Chars.word a = true ->
  In (Cursor n pv (String a t) cs) (run b WordB (Cursor n pv (String a t) cs)).
Proof.
  intros Hpv Ha. cbn [run next rest prev isWordOpt]. rewrite Hpv, Ha. by left.
Qed.

Lemma isC_refl a : Chars.isC a a = true.
Proof. unfold Chars.isC. by destruct a as [[] [] [] [] [] [] [] []]. Qed.

(** a literal matches where the subject continues with it *)
Lemma in_run_lit b s t n pv cs :
  exists n' pv', In (Cursor n' pv' t cs) (run b (Lit s) (Cursor n pv (s ++ t) cs)).
Proof.
  revert n pv. induction s as [|a s IH]; intros n pv.
  - exists n, pv. by left.
  - destruct s as [|a' s'].
    + exists (N.succ n), (Some a). apply in_run_class, isC_refl.
    + destruct (IH (N.succ n) (Some a)) as (n' & pv' & H).
      exists n', pv'. change (Lit (String a (String a' s')))
        with (Seq (C a) (Lit (String a' s'))).
      eapply in_run_seq; [|exact H]. apply in_run_class, isC_refl.
Qed.

Lemma matchAt_some b r c e :
  In e (run b r (Cursor (pos c) (prev c) (rest c) [])) -> is_Some (matchAt b r c).
Proof. unfold matchAt. destruct (run b r _); [done | eauto]. Qed.

(** a match at a later offset makes the search succeed *)
Lemma searchFrom_passed b r pre s p pv :
  is_Some (matchAt b r (Cursor (fst (passed pre p pv)) (snd (passed pre p pv)) s [])) ->
  is_Some (searchFrom b r p pv (pre ++ s)).
Proof.
  revert p pv. induction pre as [|a pre IH]; intros p pv H; cbn [passed fst snd] in H.
  - change ("" ++ s)%string with s.
    destruct s; cbn [searchFrom]; destruct H as [m H]; rewrite H; eauto.
  - change (String a pre ++ s)%string with (String a (pre ++ s)).
    cbn [searchFrom].
    destruct (matchAt b r (Cursor p pv (String a (pre ++ s)) []));
      [by eexists | by apply IH].
Qed.

End ReFacts.

Module ExtractorFacts.
Import Re ReSpec Scanner Extractor IndexSpec ExtractorSpec ReFacts.

Lemma Forall_flat_map_all {A B} (P : B -> Prop) (f : A -> list B) (l : list A) :
  (forall x, Forall P (f x)) -> Forall P (flat_map f l).
Proof.
  intros H. induction l as [|x l IH]; simpl; [constructor|].
  apply Forall_app. auto.
Qed.

Lemma memberSymbols_from d ns cn cf b body :
  Forall (FromDoc d) (memberSymbols d ns cn cf b body).
Proof.
  unfold memberSymbols. rewrite !Forall_app. repeat split;
    apply Forall_flat_map_all; intros m.
  - unfold methodSymbols. destruct (Js.truthy ns); repeat constructor.
  - unfold propSymbols. destruct (Js.truthy ns); repeat constructor.
  - unfold constSymbols. destruct (Js.truthy ns); repeat constructor.
Qed.

Lemma classDecl_from d ns acc m :
  Forall (FromDoc d) (snd acc) -> Forall (FromDoc d) (snd (classDecl d ns acc m)).
Proof.
  intros H. unfold classDecl.
  destruct (_ =? -1)%Z; [done|]. destruct (_ =? -1)%Z; [done|].
  simpl. rewrite Forall_app. split; [done|].
  rewrite Forall_cons. split; [done|].
  rewrite Forall_app. split; [|apply memberSymbols_from].
  destruct (Js.truthy ns); repeat constructor.
Qed.

Lemma fold_classDecl_from d ns ms acc :
  Forall (FromDoc d) (snd acc) ->
  Forall (FromDoc d) (snd (fold_left (classDecl d ns) ms acc)).
Proof.
  revert acc. induction ms as [|m ms IH]; intros acc H; simpl; [done|].
  by apply IH, classDecl_from.
Qed.

Lemma extract_from d : Forall (FromDoc d) (extractPhpSymbolsFromDocument d).
Proof.
  unfold extractPhpSymbolsFromDocument.
  pose proof (fold_classDecl_from d (getPhpNamespace (getText d))
                (execAll classDeclRe (getText d)) ([], []) (List.Forall_nil _)) as H.
  destruct (fold_left _ _ _) as [ranges symbols]. simpl in H.
  rewrite !Forall_app. repeat split; [done| | |];
    apply Forall_flat_map_all; intros m.
  - unfold freeFunction. destruct (insideClass _ _); [constructor|].
    destruct (Js.truthy _); repeat constructor.
  - unfold globalConst, constantSymbols. destruct (insideClass _ _); [constructor|].
    destruct (Js.truthy _); repeat constructor.
  - unfold constantSymbols. destruct (Js.truthy _); repeat constructor.
Qed.

Ltac captures :=
  first [ apply captures_here
        | apply captures_before; [captures | reflexivity]
        | apply captures_later; captures ].

Lemma append_nonempty_r (a b : string) : b <> "" -> (a ++ b)%string <> "".
Proof. intros Hb E. destruct a; [done | discriminate]. Qed.

Lemma qualify_nonempty ns name : name <> "" -> qualify ns name <> "".
Proof.
  intros H. unfold qualify. destruct (Js.truthy ns); [|done].
  by apply append_nonempty_r, append_nonempty_r.
Qed.

Lemma className_nonempty s m : In m (execAll classDeclRe s) -> group 2 m <> "".
Proof.
  intros H. eapply execAll_group_nonempty; [|exact H].
  unfold classDeclRe, seqs, ident. cbn [fold_right]. captures.
Qed.

Lemma functionName_nonempty s m : In m (execAll functionRe s) -> group 1 m <> "".
Proof.
  intros H. eapply execAll_group_nonempty; [|exact H].
  unfold functionRe, seqs, ident. cbn [fold_right]. captures.
Qed.

Lemma globalConstName_nonempty s m : In m (execAll globalConstRe s) -> group 1 m <> "".
Proof.
  intros H. eapply execAll_group_nonempty; [|exact H].
  unfold globalConstRe, seqs, ident. cbn [fold_right]. captures.
Qed.

Lemma defineName_nonempty s m : In m (execAll defineRe s) -> group 1 m <> "".
Proof.
  intros H. eapply execAll_group_nonempty; [|exact H].
  unfold defineRe, seqs, Plus. cbn [fold_right]. captures.
Qed.

Lemma Forall_flat_map_in {A B} (P : B -> Prop) (f : A -> list B) (l : list A) :
  (forall x, In x l -> Forall P (f x)) -> Forall P (flat_map f l).
Proof.
  intros H. induction l as [|x l IH]; simpl; [constructor|].
  apply Forall_app. split; [apply H; by left | apply IH; intros y Hy; apply H; by right].
Qed.

Lemma memberSymbols_keyed d ns cn cf b body :
  Forall Keyed (memberSymbols d ns cn cf b body).
Proof.
  assert (Hsep : forall x sep y, sep <> "" -> (x ++ sep ++ y)%string <> "").
  { intros x sep y Hs. apply append_nonempty_r. by destruct sep. }
  unfold memberSymbols. rewrite !Forall_app. repeat split;
    apply Forall_flat_map_all; intros m.
  - unfold methodSymbols. destruct (Js.truthy ns); repeat constructor;
      by apply Hsep.
  - unfold propSymbols. destruct (Js.truthy ns); repeat constructor;
      by apply Hsep.
  - unfold constSymbols. destruct (Js.truthy ns); repeat constructor;
      by apply Hsep.
Qed.

Lemma classDecl_keyed d ns acc m :
  group 2 m <> "" ->
  Forall Keyed (snd acc) -> Forall Keyed (snd (classDecl d ns acc m)).
Proof.
  intros Hm H. unfold classDecl.
  destruct (_ =? -1)%Z; [done|]. destruct (_ =? -1)%Z; [done|].
  simpl. rewrite Forall_app. split; [done|].
  rewrite Forall_cons. split; [done|].
  rewrite Forall_app. split; [|apply memberSymbols_keyed].
  destruct (Js.truthy ns); repeat constructor. by apply qualify_nonempty.
Qed.

Lemma fold_classDecl_keyed d ns ms acc :
  (forall m, In m ms -> group 2 m <> "") ->
  Forall Keyed (snd acc) ->
  Forall Keyed (snd (fold_left (classDecl d ns) ms acc)).
Proof.
  revert acc. induction ms as [|m ms IH]; intros acc Hms H; simpl; [done|].
  apply IH; [intros m' Hm'; apply Hms; by right|].
  apply classDecl_keyed; [apply Hms; by left | done].
Qed.

(** every symbol the extractor returns has a key that is not empty, so the
    test [if (!symbol.key) continue] of the update never skips one *)
Lemma extract_keyed d : Forall Keyed (extractPhpSymbolsFromDocument d).
Proof.
  assert (Hns : forall ns name, name <> "" -> (ns ++ "\" ++ name)%string <> "").
  { intros ns name _. by apply append_nonempty_r. }
  unfold extractPhpSymbolsFromDocument.
  pose proof (fold_classDecl_keyed d (getPhpNamespace (getText d))
                (execAll classDeclRe (getText d)) ([], [])
                (className_nonempty (getText d)) (List.Forall_nil _)) as H.
  destruct (fold_left _ _ _) as [ranges symbols]. simpl in H.
  rewrite !Forall_app. repeat split; [done| | |];
    apply Forall_flat_map_in; intros m Hm.
  - apply functionName_nonempty in Hm.
    unfold freeFunction. destruct (insideClass _ _); [constructor|].
    destruct (Js.truthy _); repeat constructor;
      unfold Keyed; cbn [key]; auto.
  - apply globalConstName_nonempty in Hm.
    unfold globalConst, constantSymbols. destruct (insideClass _ _); [constructor|].
    destruct (Js.truthy _); repeat constructor;
      unfold Keyed; cbn [key]; auto.
  - apply defineName_nonempty in Hm.
    unfold constantSymbols. destruct (Js.truthy _); repeat constructor;
      unfold Keyed; cbn [key]; auto.
Qed.

End ExtractorFacts.

(** ** Exact retraction and the version counter *)

Module Retraction.
Import Extractor Index IndexSpec IndexFacts ExtractorFacts.

(** C1. After [updatePhpIndexForDocument] of a PHP document with key set X
    and a second one of the same file with a key set disjoint from X, no key
    of X maps to a location of the file and none maps to an empty list, and
    every symbol of the second content has its key in the key set Y and is
    listed under that key with its location, which lies in the file. *)
Theorem exact_retraction (st : State) (d1 d2 : Document) :
  languageId d1 = "php" ->
  languageId d2 = "php" ->
  uri d2 = uri d1 ->
  (forall k, k ∈ fileKeys d1 -> k ∉ fileKeys d2) ->
  let st' := updatePhpIndexForDocument d2 (updatePhpIndexForDocument d1 st) in
  (forall k loc, k ∈ fileKeys d1 -> loc ∈ lookup k st' -> loc_uri loc <> uri d1)
  /\ (forall k, k ∈ fileKeys d1 -> phpWorkspaceIndex st' !! k <> Some [])
  /\ (forall s, s ∈ extractPhpSymbolsFromDocument d2 ->
        key s ∈ fileKeys d2
        /\ location s ∈ lookup (key s) st' /\ loc_uri (location s) = uri d1).
Proof.
  intros Hphp1 Hphp2 Huri Hdisj st'.
  assert (Hclean : forall k, k ∈ fileKeys d1 -> Clean (uri d1) (phpWorkspaceIndex st') k).
  { intros k Hk locs. unfold st'. rewrite update_index by done.
    rewrite insertAll_other.
    - rewrite delete_index, Huri, update_keys_lookup by done.
      destruct (fileKeys d1) as [|k0 ks] eqn:E; [by apply elem_of_nil in Hk|].
      by apply retractAll_clean.
    - intros s Hs Hne Heq. apply (Hdisj k Hk). apply fileKeys_elem.
      exists s. subst k. auto. }
  split; [|split].
  - intros k loc Hk Hloc. unfold lookup in Hloc.
    destruct (phpWorkspaceIndex st' !! k) as [locs|] eqn:E; simpl in Hloc;
      [|by apply elem_of_nil in Hloc].
    destruct (Hclean k Hk locs E) as [_ HF].
    rewrite Forall_forall in HF. by apply HF.
  - intros k Hk E. by destruct (Hclean k Hk [] E).
  - intros s Hs.
    assert (Hne : key s <> "").
    { pose proof (extract_keyed d2) as HK. rewrite Forall_forall in HK.
      by apply HK. }
    split; [|split].
    + apply fileKeys_elem. eauto.
    + unfold lookup, st'. rewrite update_index by done. by apply insertAll_elem.
    + pose proof (extract_from d2) as HF. rewrite Forall_forall in HF.
      rewrite <- Huri. by apply HF.
Qed.

End Retraction.

Module Version.
Import Extractor Index IndexFacts.

(** C2, as stated, fails: [deletePhpIndexForUri] returns before the
    increment when the file has no recorded key set. *)
Lemma delete_unknown_file_keeps_version :
  ~ (phpWorkspaceIndexVersion Index.initial
     < phpWorkspaceIndexVersion (deletePhpIndexForUri "file:///gone.php" Index.initial))%Z.
Proof. vm_compute. discriminate. Qed.

(** C2, amended. [updatePhpIndexForDocument] of a PHP document leaves the
    version strictly greater than before; [deletePhpIndexForUri] adds one
    when the file has a recorded key set and otherwise returns the state as
    it was; [updatePhpIndexForDocument] of a document of another language
    returns the state as it was. *)
Theorem version_after_mutation (st : State) (d : Document) (u : string) :
  (languageId d = "php" ->
     (phpWorkspaceIndexVersion st
      < phpWorkspaceIndexVersion (updatePhpIndexForDocument d st))%Z)
  /\ (is_Some (phpWorkspaceIndexKeysByUri st !! u) ->
        phpWorkspaceIndexVersion (deletePhpIndexForUri u st)
        = (phpWorkspaceIndexVersion st + 1)%Z)
  /\ (phpWorkspaceIndexKeysByUri st !! u = None -> deletePhpIndexForUri u st = st)
  /\ (languageId d <> "php" -> updatePhpIndexForDocument d st = st).
Proof.
  repeat split.
  - intros Hphp. rewrite update_version, delete_version by done.
    destruct (phpWorkspaceIndexKeysByUri st !! uri d); lia.
  - intros [ks Hks]. by rewrite delete_version, Hks.
  - intros Hnone. unfold deletePhpIndexForUri. by rewrite Hnone.
  - intros Hne. unfold updatePhpIndexForDocument.
    apply String.eqb_neq in Hne. by rewrite Hne.
Qed.

End Version.

(** ** The constant-name pattern *)

Module PatternFacts.
Import Re ReSpec Index MembersSpec.

Lemma iterate_chr_cons q b k p pv a t cs :
  iterate (run b (Chr q)) true (S k) (Cursor p pv (String a t) cs)
  = (if q a then iterate (run b (Chr q)) true k (Cursor (N.succ p) (Some a) t cs)
     else [])
    ++ [Cursor p pv (String a t) cs].
Proof.
  cbn [iterate run rest pos next step flat_map].
  destruct (q a); cbn [flat_map pos app]; [|reflexivity].
  rewrite (proj2 (N.ltb_lt p (N.succ p))) by lia. by rewrite app_nil_r.
Qed.

Lemma run_eol b c : run b (Eol false) c = if atEnd c then [c] else [].
Proof. unfold atEnd. destruct c as [p pv [|a t] cs]; reflexivity. Qed.

Lemma flat_map_eol_nil b (l : list cursor) :
  flat_map (run b (Eol false)) l = [] <-> existsb atEnd l = false.
Proof.
  induction l as [|c l IH]; cbn [flat_map existsb]; [done|].
  rewrite run_eol. destruct (atEnd c); simpl; [split; discriminate | exact IH].
Qed.

(** a greedy run of a class reaches the end of the subject exactly when
    every remaining unit is in the class *)
Lemma star_reaches_end q b t k p pv cs :
  String.length t < k ->
  existsb atEnd (iterate (run b (Chr q)) true k (Cursor p pv t cs)) = every q t.
Proof.
  revert k p pv. induction t as [|a t IH]; intros k p pv Hk;
    (destruct k as [|k]; [simpl in Hk; lia|]).
  - reflexivity.
  - rewrite iterate_chr_cons, existsb_app. cbn [every existsb atEnd rest orb].
    destruct (q a); cbn [andb existsb orb].
    + rewrite IH by (simpl in Hk; lia). by rewrite orb_false_r.
    + reflexivity.
Qed.

Lemma run_anchored_start b R p s cs :
  run b (Seq (Bol false) R) (Cursor p None s cs) = run b R (Cursor p None s cs).
Proof.
  change (run b (Seq (Bol false) R) (Cursor p None s cs))
    with (flat_map (run b R) [Cursor p None s cs]).
  cbn [flat_map]. apply app_nil_r.
Qed.

Lemma anchored_after_start b R p a s :
  searchFrom b (Seq (Bol false) R) p (Some a) s = None.
Proof.
  revert p a. induction s as [|c s IH]; intros p a; [reflexivity|].
  cbn [searchFrom]. change (matchAt b (Seq (Bol false) R) _) with (@None result).
  apply IH.
Qed.

(** an anchored pattern is only tried at the start of the subject *)
Lemma test_anchored R s :
  test (Seq (Bol false) R) s
  = match run (boundFor s) R (start s) with [] => false | _ => true end.
Proof.
  unfold test, exec, search, start. cbn [pos prev rest].
  generalize (boundFor s). intros b.
  assert (Hm : matchAt b (Seq (Bol false) R) (Cursor 0 None s [])
               = match run b R (Cursor 0 None s []) with
                 | e :: _ =>
                     Some (Result (N.to_nat 0) (between (Cursor 0 None s []) e) (caps e)
                             (Cursor (pos e) (prev e) (rest e) []))
                 | [] => None
                 end).
  { unfold matchAt. cbn [pos prev rest]. by rewrite run_anchored_start. }
  destruct s as [|c t]; cbn [searchFrom]; rewrite Hm;
    destruct (run b R _); try reflexivity.
  by rewrite anchored_after_start.
Qed.

Lemma run_chr_cons b p n pv a t cs :
  run b (Chr p) (Cursor n pv (String a t) cs)
  = if p a then [Cursor (N.succ n) (Some a) t cs] else [].
Proof. reflexivity. Qed.

Lemma run_seq n a b c : run n (Seq a b) c = flat_map (run n b) (run n a c).
Proof. reflexivity. Qed.

Lemma run_star n g a c : run n (Star g a) c = iterate (run n a) g n c.
Proof. reflexivity. Qed.

Lemma constantNameRe_spec (m : string) : test constantNameRe m = isConstantName m.
Proof.
  set (p := fun c => Chars.upper c || Chars.isC "_" c).
  set (q := fun c => Chars.upper c || Chars.digit c || Chars.isC "_" c).
  change constantNameRe
    with (Seq (Bol false) (Seq (Chr p) (Seq (Star true (Chr q)) (Eol false)))).
  rewrite test_anchored. unfold start.
  destruct m as [|c t]; [reflexivity|].
  set (b := boundFor (String c t)).
  rewrite run_seq, run_chr_cons. cbn [isConstantName]. fold (p c). fold q.
  destruct (p c); cbn [flat_map andb]; [|reflexivity].
  rewrite app_nil_r, run_seq, run_star.
  assert (Hb : String.length t < b) by (unfold b, boundFor; simpl; lia).
  pose proof (star_reaches_end q b t b 1 (Some c) [] Hb) as H.
  pose proof (flat_map_eol_nil b
                (iterate (run b (Chr q)) true b (Cursor 1 (Some c) t []))) as HN.
  change (N.succ 0) with 1%N.
  destruct (flat_map (run b (Eol false))
              (iterate (run b (Chr q)) true b (Cursor 1 (Some c) t [])))
    as [|e es] eqn:E.
  - rewrite <- H. symmetry. by apply HN.
  - rewrite <- H. destruct (existsb atEnd _) eqn:Ex; [done|].
    destruct HN as [_ HN]. discriminate (HN eq_refl).
Qed.

End PatternFacts.

(** ** The members of a class *)

Module MembersFacts.
Import Re Scanner Extractor Index IndexSpec MembersSpec IndexFacts PatternFacts.

Lemma insertSorted_elem x y l : x ∈ insertSorted y l <-> x = y \/ x ∈ l.
Proof.
  induction l as [|z l IH]; simpl.
  - rewrite list_elem_of_singleton. split; [auto | intros [|H]; [done | by apply elem_of_nil in H]].
  - destruct (String.leb y z); rewrite !elem_of_cons; [tauto|]. rewrite IH. tauto.
Qed.

Lemma sortNames_elem x l : x ∈ sortNames l <-> x ∈ l.
Proof.
  induction l as [|y l IH]; simpl; [done|].
  rewrite insertSorted_elem, elem_of_cons, IH. tauto.
Qed.

(** what one key adds to the constants and to the methods *)
Lemma scanKey_constants ck cn acc key :
  constants (scanKey ck cn acc key) =
    let member := Js.pop (Js.split "::" key) in
    if (Js.startsWith (ck ++ "::") key || Js.startsWith (cn ++ "::") key)
       && Js.truthy member && test constantNameRe member
    then setAdd member (constants acc) else constants acc.
Proof.
  unfold scanKey. cbn zeta.
  destruct (Js.startsWith (ck ++ "::") key || Js.startsWith (cn ++ "::") key);
    cbn [andb]; destruct (Js.truthy (Js.pop (Js.split "::" key)));
    cbn [andb]; try destruct (test constantNameRe _);
    repeat match goal with |- context [if ?b then _ else _] => destruct b end;
    reflexivity.
Qed.

Lemma scanKey_methods ck cn acc key :
  methods (scanKey ck cn acc key) =
    let member := Js.pop (Js.split "::" key) in
    if (Js.startsWith (ck ++ "::") key || Js.startsWith (cn ++ "::") key)
       && Js.truthy member && negb (test constantNameRe member)
    then setAdd member (methods acc) else methods acc.
Proof.
  unfold scanKey. cbn zeta.
  destruct (Js.startsWith (ck ++ "::") key || Js.startsWith (cn ++ "::") key);
    cbn [andb]; destruct (Js.truthy (Js.pop (Js.split "::" key)));
    cbn [andb]; try destruct (test constantNameRe _); cbn [negb];
    repeat match goal with |- context [if ?b then _ else _] => destruct b end;
    reflexivity.
Qed.

(** a loop that adds [val k] to one of the sets whenever [cond k] holds *)
Lemma fold_conditional_add {A} (f : Members -> A -> Members)
  (proj : Members -> list string) (cond : A -> bool) (val : A -> string) :
  (forall acc k, proj (f acc k) = if cond k then setAdd (val k) (proj acc) else proj acc) ->
  forall keys acc m,
    m ∈ proj (fold_left f keys acc) <->
    m ∈ proj acc \/ exists k, k ∈ keys /\ cond k = true /\ val k = m.
Proof.
  intros Hf keys. induction keys as [|k keys IH]; intros acc m; simpl.
  - split; [auto | intros [H | (k & Hk & _)]; [done | by apply elem_of_nil in Hk]].
  - rewrite IH, Hf. split.
    + intros [H | (k' & Hk' & Hc & Hv)].
      * destruct (cond k) eqn:Hc; [|auto].
        apply setAdd_elem in H as [-> | H]; [right | auto].
        exists k. rewrite elem_of_cons. auto.
      * right. exists k'. rewrite elem_of_cons. auto.
    + intros [H | (k' & Hk' & Hc & Hv)].
      * left. destruct (cond k); [apply setAdd_elem|]; auto.
      * apply elem_of_cons in Hk' as [-> | Hk'].
        -- left. rewrite Hc. apply setAdd_elem. auto.
        -- right. eauto.
Qed.

Lemma fold_scanKey_constants ck cn keys acc m :
  m ∈ constants (fold_left (scanKey ck cn) keys acc) <->
  m ∈ constants acc \/
  exists key, key ∈ keys
    /\ (Js.startsWith (ck ++ "::") key || Js.startsWith (cn ++ "::") key) = true
    /\ Js.pop (Js.split "::" key) = m /\ m <> "" /\ isConstantName m = true.
Proof.
  rewrite (fold_conditional_add (scanKey ck cn) constants _ _ (scanKey_constants ck cn)).
  apply or_iff_compat_l. split; intros (key & Hk & H); exists key; (split; [done|]).
  - destruct H as [Hc <-]. rewrite !andb_true_iff, constantNameRe_spec in Hc.
    destruct Hc as [[Hp Ht] Hc]. by apply truthy_true in Ht.
  - destruct H as (Hp & <- & Hne & Hc). split; [|done].
    rewrite !andb_true_iff, constantNameRe_spec. by apply truthy_true in Hne.
Qed.

Lemma fold_scanKey_methods ck cn keys acc m :
  m ∈ methods (fold_left (scanKey ck cn) keys acc) <->
  m ∈ methods acc \/
  exists key, key ∈ keys
    /\ (Js.startsWith (ck ++ "::") key || Js.startsWith (cn ++ "::") key) = true
    /\ Js.pop (Js.split "::" key) = m /\ m <> "" /\ isConstantName m = false.
Proof.
  rewrite (fold_conditional_add (scanKey ck cn) methods _ _ (scanKey_methods ck cn)).
  apply or_iff_compat_l. split; intros (key & Hk & H); exists key; (split; [done|]).
  - destruct H as [Hc <-].
    rewrite !andb_true_iff, negb_true_iff, constantNameRe_spec in Hc.
    destruct Hc as [[Hp Ht] Hc]. by apply truthy_true in Ht.
  - destruct H as (Hp & <- & Hne & Hc). split; [|done].
    rewrite !andb_true_iff, negb_true_iff, constantNameRe_spec.
    by apply truthy_true in Hne.
Qed.

Lemma index_keys_elem (index : gmap string (list Location)) key :
  key ∈ List.map fst (map_to_list index) <-> is_Some (index !! key).
Proof.
  rewrite list_elem_of_In, in_map_iff. split.
  - intros ([k v] & Hk & Hin). simpl in Hk. subst k.
    apply list_elem_of_In, elem_of_map_to_list in Hin. eauto.
  - intros [v Hv]. exists (key, v). split; [done|].
    by apply list_elem_of_In, elem_of_map_to_list.
Qed.

End MembersFacts.

(** ** The members cache *)

Module CacheFacts.
Import Re Scanner Extractor Index IndexSpec MembersSpec IndexFacts MembersFacts.

Lemma delete_version_le u st :
  (phpWorkspaceIndexVersion st <= phpWorkspaceIndexVersion (deletePhpIndexForUri u st))%Z.
Proof. rewrite delete_version. destruct (_ !! u); lia. Qed.

(** a mutation that keeps the cache and raises the version keeps [CacheOk] *)
Lemma cacheOk_aged st st' :
  phpWorkspaceMembersCache st' = phpWorkspaceMembersCache st ->
  (phpWorkspaceIndexVersion st < phpWorkspaceIndexVersion st')%Z ->
  CacheOk st -> CacheOk st'.
Proof.
  intros Hc Hv Hok ck e He. rewrite Hc in He.
  destruct (Hok ck e He) as [Hle _]. split; lia.
Qed.

Lemma cacheOk_delete u st : CacheOk st -> CacheOk (deletePhpIndexForUri u st).
Proof.
  intros Hok.
  destruct (phpWorkspaceIndexKeysByUri st !! u) as [ks|] eqn:E.
  - apply (cacheOk_aged st); [apply delete_cache | | done].
    rewrite delete_version, E. lia.
  - unfold deletePhpIndexForUri. by rewrite E.
Qed.

Lemma cacheOk_update d st : CacheOk st -> CacheOk (updatePhpIndexForDocument d st).
Proof.
  intros Hok. destruct (String.eqb (languageId d) "php") eqn:E.
  - apply String.eqb_eq in E.
    apply (cacheOk_aged st); [apply update_cache | | done].
    rewrite update_version by done. pose proof (delete_version_le (uri d) st). lia.
  - unfold updatePhpIndexForDocument. by rewrite E.
Qed.

Lemma cacheOk_store ck st :
  CacheOk st -> CacheOk (storeMembers ck (computeMembers ck (phpWorkspaceIndex st)) st).
Proof.
  intros Hok ck' e. unfold storeMembers. cbn.
  destruct (decide (ck = ck')) as [<-|Hne].
  - rewrite lookup_insert_eq. intros [= <-]. cbn. split; [lia | done].
  - rewrite lookup_insert_ne by done. apply Hok.
Qed.

Lemma cacheOk_members c st : CacheOk st -> CacheOk (snd (getPhpMembersForClass c st)).
Proof.
  intros Hok. unfold getPhpMembersForClass.
  destruct (negb _); [done|]. cbn zeta.
  destruct (phpWorkspaceMembersCache st !! _) as [e|] eqn:E;
    [destruct (_ =? _)%Z|]; cbn [snd]; auto using cacheOk_store.
Qed.

Lemma reachable_cacheOk st : Reachable st -> CacheOk st.
Proof.
  induction 1 as [|d st _ IH|u st _ IH|c st _ IH].
  - intros ck e He. cbn in He. by rewrite lookup_empty in He.
  - by apply cacheOk_update.
  - by apply cacheOk_delete.
  - by apply cacheOk_members.
Qed.

(** the value returned is the one a scan of the current index gives, whether
    or not it is taken from the cache *)
Lemma members_fresh c st :
  CacheOk st ->
  stripLeadingBackslashes c <> "" ->
  fst (getPhpMembersForClass c st)
  = computeMembers (stripLeadingBackslashes c) (phpWorkspaceIndex st).
Proof.
  intros Hok Hne. unfold getPhpMembersForClass.
  apply truthy_true in Hne. rewrite Hne. cbn [negb]. cbn zeta.
  destruct (phpWorkspaceMembersCache st !! _) as [e|] eqn:E; [|done].
  destruct (_ =? _)%Z eqn:Ev; [|done].
  apply Z.eqb_eq in Ev. cbn [fst]. by apply (Hok _ _ E).
Qed.

(** after a call the class has a cache entry stamped with the current version *)
Lemma members_stamped c st :
  stripLeadingBackslashes c <> "" ->
  exists e,
    phpWorkspaceMembersCache (snd (getPhpMembersForClass c st))
      !! stripLeadingBackslashes c = Some e
    /\ cached_version e = phpWorkspaceIndexVersion st
    /\ cached_value e = fst (getPhpMembersForClass c st).
Proof.
  intros Hne. unfold getPhpMembersForClass.
  apply truthy_true in Hne. rewrite Hne. cbn [negb]. cbn zeta.
  destruct (phpWorkspaceMembersCache st !! _) as [e|] eqn:E;
    [destruct (_ =? _)%Z eqn:Ev|].
  - apply Z.eqb_eq in Ev. exists e. cbn [fst snd]. auto.
  - eexists. cbn [fst snd storeMembers phpWorkspaceMembersCache].
    rewrite lookup_insert_eq. auto.
  - eexists. cbn [fst snd storeMembers phpWorkspaceMembersCache].
    rewrite lookup_insert_eq. auto.
Qed.

Lemma members_empty c st :
  stripLeadingBackslashes c = "" ->
  fst (getPhpMembersForClass c st) = mkMembers [] [] [].
Proof.
  intros He. unfold getPhpMembersForClass. apply truthy_false in He. by rewrite He.
Qed.

Lemma computeMembers_constants ck index m :
  ck <> "" ->
  m ∈ constants (computeMembers ck index) <->
  FoundUnder index ck m /\ isConstantName m = true.
Proof.
  intros Hck. unfold computeMembers. cbn [constants].
  rewrite sortNames_elem, fold_scanKey_constants. cbn [constants].
  unfold FoundUnder, memberKeyOf. split.
  - intros [H | (key & Hk & Hp & Hm & Hne & Hc)]; [by apply elem_of_nil in H|].
    apply index_keys_elem in Hk. split; [|done]. split; [done|]. eauto 10.
  - intros [(_ & key & Hk & Hp & Hm & Hne) Hc]. right.
    exists key. apply index_keys_elem in Hk. auto.
Qed.

Lemma computeMembers_methods ck index m :
  ck <> "" ->
  m ∈ methods (computeMembers ck index) <->
  FoundUnder index ck m /\ isConstantName m = false.
Proof.
  intros Hck. unfold computeMembers. cbn [methods].
  rewrite sortNames_elem, fold_scanKey_methods. cbn [methods].
  unfold FoundUnder, memberKeyOf. split.
  - intros [H | (key & Hk & Hp & Hm & Hne & Hc)]; [by apply elem_of_nil in H|].
    apply index_keys_elem in Hk. split; [|done]. split; [done|]. eauto 10.
  - intros [(_ & key & Hk & Hp & Hm & Hne) Hc]. right.
    exists key. apply index_keys_elem in Hk. auto.
Qed.

End CacheFacts.

Module Classification.
Import Re Scanner Extractor Index IndexSpec MembersSpec CacheFacts.

(** C10. In every state the index operations can reach, a name is among
    the constants [getPhpMembersForClass] reports exactly when the index
    holds it under a [Class::member] key of the class and it has the constant
    shape (an uppercase letter or underscore, then uppercase letters, digits
    or underscores); it is among the methods exactly when it is held so and
    lacks that shape.  Hence a name of that shape, an all-uppercase method
    name included, is never among the methods. *)
Theorem constant_or_method (st : State) (c m : string) :
  Reachable st ->
  let classKey := stripLeadingBackslashes c in
  let members := fst (getPhpMembersForClass c st) in
  (m ∈ constants members <->
     FoundUnder (phpWorkspaceIndex st) classKey m /\ isConstantName m = true)
  /\ (m ∈ methods members <->
        FoundUnder (phpWorkspaceIndex st) classKey m /\ isConstantName m = false)
  /\ (isConstantName m = true -> m ∉ methods members).
Proof.
  intros Hr classKey members. apply reachable_cacheOk in Hr.
  assert (Hboth :
    (m ∈ constants members <->
       FoundUnder (phpWorkspaceIndex st) classKey m /\ isConstantName m = true)
    /\ (m ∈ methods members <->
          FoundUnder (phpWorkspaceIndex st) classKey m /\ isConstantName m = false)).
  { destruct (decide (classKey = "")) as [He|Hne].
    - unfold members. rewrite members_empty by done. cbn.
      split; (split; [intros H; by apply elem_of_nil in H | intros [[H _] _]; done]).
    - unfold members. rewrite members_fresh by done.
      split; [by apply computeMembers_constants | by apply computeMembers_methods]. }
  destruct Hboth as [Hc Hm]. split; [exact Hc | split; [exact Hm |]].
  intros Hcn Hin. apply Hm in Hin as [_ Hf]. congruence.
Qed.

End Classification.

Module Cache.
Import Re Scanner Extractor Index IndexSpec MembersSpec CacheFacts Samples.

(** C7. In every state the index operations can reach,
    [getPhpMembersForClass] returns what a scan of the current index gives
    and leaves a cache entry stamped with the current version, so no value
    computed for an older version is served.  In particular, after indexing
    [class C { public $foo; }] the properties of [C] contain [foo], and after
    re-indexing the file with [$bar] in place of [$foo] they contain [bar]
    and not [foo], although the first answer was cached. *)
Theorem members_follow_index :
  (forall st c,
     Reachable st -> stripLeadingBackslashes c <> "" ->
     fst (getPhpMembersForClass c st)
     = computeMembers (stripLeadingBackslashes c) (phpWorkspaceIndex st)
     /\ exists e,
          phpWorkspaceMembersCache (snd (getPhpMembersForClass c st))
            !! stripLeadingBackslashes c = Some e
          /\ cached_version e = phpWorkspaceIndexVersion st
          /\ cached_value e = fst (getPhpMembersForClass c st))
  /\ (let s1 := updatePhpIndexForDocument classWithFoo Index.initial in
      let r1 := getPhpMembersForClass "C" s1 in
      let s2 := updatePhpIndexForDocument classWithBar (snd r1) in
      let r2 := getPhpMembersForClass "C" s2 in
      "foo" ∈ properties (fst r1)
      /\ is_Some (phpWorkspaceMembersCache s2 !! "C")
      /\ "bar" ∈ properties (fst r2)
      /\ "foo" ∉ properties (fst r2)).
Proof.
  split.
  - intros st c Hr Hne. split.
    + apply members_fresh; [by apply reachable_cacheOk | done].
    + by apply members_stamped.
  - cbn zeta.
    assert (E1 : properties (fst (getPhpMembersForClass "C"
                   (updatePhpIndexForDocument classWithFoo Index.initial))) = ["foo"])
      by (vm_compute; reflexivity).
    assert (E2 : properties (fst (getPhpMembersForClass "C"
                   (updatePhpIndexForDocument classWithBar
                      (snd (getPhpMembersForClass "C"
                         (updatePhpIndexForDocument classWithFoo Index.initial))))))
                 = ["bar"])
      by (vm_compute; reflexivity).
    rewrite E1, E2. repeat split.
    + by apply list_elem_of_singleton.
    + vm_compute. eauto.
    + by apply list_elem_of_singleton.
    + intros H%list_elem_of_singleton. discriminate H.
Qed.

End Cache.

(** ** Signatures recorded by an update *)

Module SignatureFacts.
Import Re Scanner Extractor Index IndexSpec IndexFacts.

Lemma fold_insert_functionInfo u symbols keys st :
  phpWorkspaceFunctionInfoByKey (snd (fold_left (insertSymbol u) symbols (keys, st)))
  = recordAll u symbols (phpWorkspaceFunctionInfoByKey st).
Proof.
  revert keys st. induction symbols as [|s symbols IH]; intros keys st; simpl; [done|].
  destruct (Js.truthy (key s)); simpl; rewrite IH; [|done].
  by destruct (signature s).
Qed.

Lemma recordAll_mono u symbols m k x :
  x ∈ default [] (m !! k) -> x ∈ default [] (recordAll u symbols m !! k).
Proof.
  revert m. induction symbols as [|s symbols IH]; intros m Hx; simpl; [done|].
  apply IH. destruct (Js.truthy (key s)); [|done].
  destruct (signature s) as [sig|]; [|done].
  destruct (decide (key s = k)) as [<-|Hne].
  - rewrite pushAt_lookup_eq. simpl. apply elem_of_app. auto.
  - by rewrite pushAt_lookup_ne.
Qed.

Lemma recordAll_elem u symbols m s sig :
  s ∈ symbols -> key s <> "" -> signature s = Some sig ->
  mkFunctionInfo u sig ∈ default [] (recordAll u symbols m !! key s).
Proof.
  revert m. induction symbols as [|s0 symbols IH]; intros m Hin Hne Hsig; simpl.
  - by apply elem_of_nil in Hin.
  - apply elem_of_cons in Hin as [<- | Hin]; [|by apply IH].
    apply recordAll_mono. apply truthy_true in Hne. rewrite Hne, Hsig.
    rewrite pushAt_lookup_eq. simpl. apply elem_of_app. right.
    by apply list_elem_of_singleton.
Qed.

Lemma update_functionInfo d st :
  languageId d = "php" ->
  phpWorkspaceFunctionInfoByKey (updatePhpIndexForDocument d st) =
    recordAll (uri d) (extractPhpSymbolsFromDocument d)
              (phpWorkspaceFunctionInfoByKey (deletePhpIndexForUri (uri d) st)).
Proof.
  intros Hphp. rewrite update_unfold by done. simpl. apply fold_insert_functionInfo.
Qed.

(** an update lists every keyed symbol of the document under its key *)
Lemma update_lists_symbol d st s :
  languageId d = "php" -> s ∈ extractPhpSymbolsFromDocument d -> key s <> "" ->
  location s ∈ lookup (key s) (updatePhpIndexForDocument d st).
Proof.
  intros Hphp Hs Hne. unfold lookup. rewrite update_index by done.
  by apply insertAll_elem.
Qed.

(** and records its signature, if it has one, under the same key *)
Lemma update_records_signature d st s sig :
  languageId d = "php" -> s ∈ extractPhpSymbolsFromDocument d -> key s <> "" ->
  signature s = Some sig ->
  mkFunctionInfo (uri d) sig ∈ signatureFor (key s) (updatePhpIndexForDocument d st).
Proof.
  intros Hphp Hs Hne Hsig. unfold signatureFor. rewrite update_functionInfo by done.
  by apply recordAll_elem.
Qed.

End SignatureFacts.

Module Scenario.
Import Re Scanner Extractor Index IndexSpec IndexFacts SignatureFacts Samples.

(** the symbols the extractor yields for the scenario file *)
Lemma greeter_symbols u p :
  List.map (fun s => (key s, label <$> signature s))
           (extractPhpSymbolsFromDocument (greeter u p))
  = [("Greeter", None); ("App\Greeter", None);
     ("Greeter::hello", Some "hello(string $name): string");
     ("App\Greeter::hello", Some "hello(string $name): string")].
Proof. vm_compute. reflexivity. Qed.

(** C4. Indexing the file
    [namespace App; class Greeter { public function hello(string $name): string { } }],
    whatever its identity and whatever the index held before, leaves the keys
    [Greeter], [App\Greeter], [Greeter::hello] and [App\Greeter::hello]
    present with a location of the file, and records for the file under
    [Greeter::hello] a signature whose label is
    [hello(string $name): string]: it contains [string $name] and ends with
    [: string]. *)
Theorem greeter_indexed (st : State) (u p : string) :
  let st' := updatePhpIndexForDocument (greeter u p) st in
  (forall k, k ∈ ["Greeter"; "App\Greeter"; "Greeter::hello"; "App\Greeter::hello"] ->
     exists loc, loc ∈ lookup k st' /\ loc_uri loc = u)
  /\ exists sig,
       mkFunctionInfo u sig ∈ signatureFor "Greeter::hello" st'
       /\ label sig = "hello(string $name): string"
       /\ Js.includes "string $name" (label sig) = true
       /\ Js.endsWith ": string" (label sig) = true.
Proof.
  intros st'.
  pose proof (ExtractorFacts.extract_from (greeter u p)) as Hfrom.
  rewrite Forall_forall in Hfrom.
  assert (Hfind : forall k sl,
            In (k, sl) [("Greeter", None); ("App\Greeter", None);
                        ("Greeter::hello", Some "hello(string $name): string");
                        ("App\Greeter::hello", Some "hello(string $name): string")] ->
            exists s, s ∈ extractPhpSymbolsFromDocument (greeter u p)
                      /\ key s = k /\ label <$> signature s = sl).
  { intros k sl Hin. rewrite <- (greeter_symbols u p) in Hin.
    destruct (proj1 (in_map_iff _ _ _) Hin) as (s & Hf & Hs). exists s.
    split; [exact (proj2 (list_elem_of_In _ _) Hs)|].
    injection Hf as Hk Hl. by split. }
  assert (Hlisted : forall k sl,
            k <> "" ->
            In (k, sl) [("Greeter", None); ("App\Greeter", None);
                        ("Greeter::hello", Some "hello(string $name): string");
                        ("App\Greeter::hello", Some "hello(string $name): string")] ->
            exists loc, loc ∈ lookup k st' /\ loc_uri loc = u).
  { intros k sl Hne Hin. destruct (Hfind k sl Hin) as (s & Hs & <- & _).
    exists (location s). split.
    - by apply (update_lists_symbol (greeter u p) st s).
    - by apply (Hfrom s). }
  split.
  - intros k Hk.
    repeat (apply elem_of_cons in Hk as [-> | Hk]); [| | | |by apply elem_of_nil in Hk].
    + apply (Hlisted _ None); [discriminate | simpl; auto].
    + apply (Hlisted _ None); [discriminate | simpl; auto].
    + apply (Hlisted _ (Some "hello(string $name): string")); [discriminate | simpl; auto].
    + apply (Hlisted _ (Some "hello(string $name): string")); [discriminate | simpl; auto 6].
  - destruct (Hfind "Greeter::hello" (Some "hello(string $name): string"))
      as (s & Hs & Hk & Hl); [simpl; auto|].
    destruct (signature s) as [sig|] eqn:Hsig; [|discriminate Hl].
    injection Hl as Hl. exists sig. split; [|rewrite Hl; repeat split; reflexivity].
    rewrite <- Hk.
    apply (update_records_signature (greeter u p)); [reflexivity | done | | done].
    rewrite Hk. discriminate.
Qed.

End Scenario.

(** ** General facts on matching *)

(** ** The doc-comment parser *)

Module DocFacts.
Import Re ReSpec Scanner DocSpec ReFacts.

Lemma docLine_params result line name :
  params (docLine result line) !! name =
    match annotates name line with
    | Some t => Some t
    | None => params result !! name
    end.
Proof.
  unfold docLine, annotates, paramOf.
  destruct (exec paramTagRe line) as [pm|];
    destruct (exec returnTagRe line) as [rm|];
    try destruct (negb (Js.truthy (returns _))); cbn [params]; try reflexivity;
    (destruct (String.eqb (group 2 pm) name) eqn:E;
     [apply String.eqb_eq in E; subst name; by rewrite lookup_insert_eq
     |apply String.eqb_neq in E; by rewrite lookup_insert_ne]).
Qed.

Lemma docLine_returns result line :
  returns (docLine result line) =
    match returnOf line with
    | Some t => if Js.truthy (returns result) then returns result else t
    | None => returns result
    end.
Proof.
  unfold docLine, returnOf.
  destruct (exec paramTagRe line) as [pm|];
    destruct (exec returnTagRe line) as [rm|]; cbn [returns params];
    try destruct (Js.truthy (returns result)); reflexivity.
Qed.

Lemma returnOf_nonempty line t : returnOf line = Some t -> t <> "".
Proof.
  unfold returnOf. destruct (exec returnTagRe line) as [m|] eqn:E; [|done].
  intros [= <-]. eapply exec_group_nonempty; [|exact E].
  unfold returnTagRe, seqs, Plus, Not. repeat apply captures_later. apply captures_here.
Qed.

Lemma fold_docLine_params lines result name :
  params (fold_left docLine lines result) !! name =
    match lastParamType name lines with
    | Some t => Some t
    | None => params result !! name
    end.
Proof.
  revert result. induction lines as [|l ls IH]; intros result; simpl; [done|].
  rewrite IH. destruct (lastParamType name ls); [done|]. apply docLine_params.
Qed.

Lemma fold_docLine_returns lines result :
  returns (fold_left docLine lines result) =
    if Js.truthy (returns result) then returns result else firstReturnType lines.
Proof.
  revert result. induction lines as [|l ls IH]; intros result; simpl.
  - destruct (Js.truthy (returns result)) eqn:E; [done|]. by apply truthy_false in E.
  - rewrite IH, docLine_returns.
    destruct (returnOf l) as [t|] eqn:Er; [|done].
    destruct (Js.truthy (returns result)) eqn:E; [by rewrite E|].
    apply returnOf_nonempty, truthy_true in Er. by rewrite Er.
Qed.

End DocFacts.

Module DocComments.
Import Re Scanner DocSpec DocFacts Samples.

(** C8, as stated, fails for parameters: of two annotations of [$x] the
    parser keeps the type of the second. *)
Lemma later_param_annotation_wins :
  firstParamType "$x" (docLines twiceAnnotated) = Some "int"
  /\ params (parsePhpDocblock twiceAnnotated) !! "$x" = Some "string".
Proof. split; vm_compute; reflexivity. Qed.

(** C8, amended. For every doc comment, the type recorded for a parameter
    is the one given by the last line of the block that annotates it (within
    a line, by the first annotation the line carries), and the return type
    recorded is the one given by the first line with a return annotation. *)
Theorem docblock_types (docblock name : string) :
  params (parsePhpDocblock docblock) !! name = lastParamType name (docLines docblock)
  /\ returns (parsePhpDocblock docblock) = firstReturnType (docLines docblock).
Proof.
  unfold parsePhpDocblock. destruct (Js.truthy docblock) eqn:E; cbn [negb].
  - rewrite fold_docLine_params, fold_docLine_returns. cbn [params returns].
    rewrite lookup_empty. split; [|done].
    unfold docLines. by destruct (lastParamType _ _).
  - apply truthy_false in E. subst docblock. cbn [params returns].
    rewrite lookup_empty. split; vm_compute; reflexivity.
Qed.

End DocComments.

(** ** Variable type inference *)

Module InferenceFacts.
Import Re Scanner Index Inference Samples.

Lemma assignStep_other st ns al map m n :
  group 1 m <> n -> assignStep st ns al map m !! n = map !! n.
Proof.
  intros Hne. unfold assignStep. cbn zeta.
  destruct (Js.truthy _); [by rewrite lookup_insert_ne | done].
Qed.

Lemma fold_assign_other st ns al ms map n :
  (forall m, m ∈ ms -> group 1 m <> n) ->
  fold_left (assignStep st ns al) ms map !! n = map !! n.
Proof.
  revert map. induction ms as [|m ms IH]; intros map H; simpl; [done|].
  rewrite IH by (intros m' Hm'; apply H, elem_of_cons; auto).
  apply assignStep_other, H, elem_of_cons. auto.
Qed.

(** C9, as stated, fails: a variable with a doc-comment annotation [Foo]
    and the assignment [$x = 5] is reported as [int]. *)
Lemma assignment_overrides_annotation :
  inferPhpVariableTypes Index.initial annotatedAssignment (mkPosition 0 35) !! "$x"
  = Some "int".
Proof. vm_compute. reflexivity. Qed.

Lemma fold_assign_last st ns al after : forall map n t,
  map !! n = Some t ->
  (forall pre m' post, after = pre ++ m' :: post -> group 1 m' = n ->
     inferPhpTypeFromExpression st (Js.trim (group 2 m')) ns al
       (fold_left (assignStep st ns al) pre map) = "") ->
  fold_left (assignStep st ns al) after map !! n = Some t.
Proof.
  induction after as [|a rest IH]; intros map n t Hmap Hlater; cbn [fold_left]; [done|].
  apply IH.
  - destruct (decide (group 1 a = n)) as [Ha|Ha].
    + unfold assignStep. cbn zeta.
      pose proof (Hlater [] a rest eq_refl Ha) as H0. cbn [fold_left] in H0.
      rewrite H0. exact Hmap.
    + by rewrite assignStep_other.
  - intros pre m' post -> Hm'.
    apply (Hlater (a :: pre) m' post); done.
Qed.

(** C9, amended. When the window holds an assignment to a variable whose
    right-hand side the classifier can type, the type reported for the
    variable is the one the classifier gives for the right-hand side of
    the last such assignment: an assignment [m] that is typed, each in
    turn with the variable types recorded before it, and that is followed
    by no typed assignment to the same variable, decides, whatever type
    the doc-comment pass recorded and whatever untyped assignments to the
    variable follow. *)
Theorem typed_assignment_reported
  (st : State) (document : Document) (position : Position)
  (before after : list result) (m : result) :
  let namespace := getPhpNamespace (getText document) in
  let useAliases := parsePhpUseAliases (getText document) in
  let typeAfter (seen : list result) (a : result) :=
    inferPhpTypeFromExpression st (Js.trim (group 2 a)) namespace useAliases
      (fold_left (assignStep st namespace useAliases) seen
                 (docVarTypes document position)) in
  execAll assignRe (windowText document position) = before ++ m :: after ->
  typeAfter before m <> "" ->
  (forall pre m' post,
     after = pre ++ m' :: post -> group 1 m' = group 1 m ->
     typeAfter (before ++ m :: pre) m' = "") ->
  inferPhpVariableTypes st document position !! group 1 m = Some (typeAfter before m).
Proof.
  intros namespace useAliases typeAfter Hms Hne Hafter.
  unfold inferPhpVariableTypes. cbn zeta. rewrite Hms.
  rewrite fold_left_app. cbn [fold_left].
  fold namespace useAliases.
  apply fold_assign_last.
  - unfold assignStep at 1. cbn zeta. fold (typeAfter before m).
    apply truthy_true in Hne. rewrite Hne. apply lookup_insert_eq.
  - intros pre m' post Hsplit Hname.
    pose proof (Hafter pre m' post Hsplit Hname) as H.
    unfold typeAfter in H. rewrite fold_left_app in H. exact H.
Qed.

End InferenceFacts.

(** ** The reference index *)

Module ReferenceFacts.
Import Re Scanner Extractor Index References ReferencesSpec IndexFacts.

Lemma addAll_mono refs m k x :
  x ∈ default [] (m !! k) -> x ∈ default [] (addAll refs m !! k).
Proof.
  revert m. induction refs as [|r refs IH]; intros m Hx; simpl; [done|].
  apply IH. destruct (decide (ref_key r = k)) as [<-|Hne].
  - rewrite pushAt_lookup_eq. simpl. apply elem_of_app. auto.
  - by rewrite pushAt_lookup_ne.
Qed.

Lemma addAll_elem refs m r :
  r ∈ refs -> ref_location r ∈ default [] (addAll refs m !! ref_key r).
Proof.
  revert m. induction refs as [|r0 refs IH]; intros m Hin; simpl.
  - by apply elem_of_nil in Hin.
  - apply elem_of_cons in Hin as [<- | Hin]; [|by apply IH].
    apply addAll_mono. rewrite pushAt_lookup_eq. simpl.
    apply elem_of_app. right. by apply list_elem_of_singleton.
Qed.

Lemma scanFile_mono file m k x :
  x ∈ default [] (m !! k) -> x ∈ default [] (scanFile m file !! k).
Proof.
  intros Hx. unfold scanFile. destruct file as [doc|]; [|done].
  destruct (negb _); [done|]. by apply addAll_mono.
Qed.

Lemma fold_scanFile_mono files m k x :
  x ∈ default [] (m !! k) -> x ∈ default [] (fold_left scanFile files m !! k).
Proof.
  revert m. induction files as [|f files IH]; intros m Hx; simpl; [done|].
  by apply IH, scanFile_mono.
Qed.

(** a rebuild lists every reference of every readable PHP file *)
Lemma fold_scanFile_elem files m doc r :
  Some doc ∈ files -> languageId doc = "php" ->
  r ∈ extractPhpReferencesFromDocument doc ->
  ref_location r ∈ default [] (fold_left scanFile files m !! ref_key r).
Proof.
  revert m. induction files as [|f files IH]; intros m Hin Hphp Hr; simpl.
  - by apply elem_of_nil in Hin.
  - apply elem_of_cons in Hin as [<- | Hin]; [|by apply IH].
    apply fold_scanFile_mono. unfold scanFile.
    replace (negb (String.eqb (languageId doc) "php")) with false
      by (rewrite Hphp; reflexivity).
    by apply addAll_elem.
Qed.

Lemma pushAll_elem locs unique x :
  x ∈ pushAll unique locs <-> x ∈ unique \/ x ∈ locs.
Proof.
  unfold pushAll. revert unique. induction locs as [|l locs IH]; intros unique; simpl.
  - split; [auto | intros [H|H]; [done | by apply elem_of_nil in H]].
  - rewrite IH, elem_of_cons. case_bool_decide as Hl.
    + split; [tauto | intros [H | [-> | H]]; auto].
    + rewrite elem_of_app, list_elem_of_singleton. tauto.
Qed.

Lemma pushAll_NoDup locs unique : NoDup unique -> NoDup (pushAll unique locs).
Proof.
  unfold pushAll. revert unique. induction locs as [|l locs IH]; intros unique Hnd; simpl;
    [done|].
  apply IH. case_bool_decide as Hl; [done|].
  apply NoDup_app. split; [done|]. split.
  - intros x Hx Hx'. apply list_elem_of_singleton in Hx'. by subst.
  - apply NoDup_singleton.
Qed.

(** a location in the bucket of a function, other than the declaration,
    occurs exactly once in the list the code lens is given *)
Lemma resolve_function_once data declRange rs loc :
  decl_kind data = FunctionDecl ->
  loc ∈ bucket ("fn:" ++ decl_name data) rs ->
  loc <> mkLocation (decl_uri data) declRange ->
  count_occ Location_eq_dec (resolvePhpReferenceLocationsForCodeLens data declRange rs) loc
  = 1.
Proof.
  intros Hk Hin Hne. unfold resolvePhpReferenceLocationsForCodeLens. rewrite Hk.
  apply NoDup_count_occ'.
  - apply List.NoDup_filter, NoDup_ListNoDup, pushAll_NoDup, NoDup_nil_2.
  - apply filter_In. split.
    + apply list_elem_of_In, pushAll_elem. auto.
    + apply negb_true_iff, bool_decide_eq_false. done.
Qed.

Lemma scanLoop_length pushes ms results :
  List.length results <= List.length (scanLoop pushes ms results).
Proof.
  revert results. induction ms as [|m ms IH]; intros results; cbn [scanLoop]; [done|].
  destruct (pushes m) as [|r new] eqn:E; [apply IH|].
  destruct (cap <=? List.length (results ++ r :: new))%nat.
  - rewrite length_app. lia.
  - etransitivity; [|apply IH]. rewrite length_app. lia.
Qed.

(** below the cap a loop has appended what every match pushes *)
Lemma scanLoop_uncapped pushes ms results :
  List.length (scanLoop pushes ms results) < cap ->
  scanLoop pushes ms results = results ++ flat_map pushes ms.
Proof.
  revert results. induction ms as [|m ms IH]; intros results H;
    cbn [scanLoop flat_map] in *.
  - by rewrite app_nil_r.
  - destruct (pushes m) as [|r new] eqn:E; [by apply IH|].
    destruct (cap <=? List.length (results ++ r :: new))%nat eqn:Ec.
    + apply Nat.leb_le in Ec. lia.
    + rewrite IH by done. by rewrite <- app_assoc.
Qed.

Lemma extract_uncapped d :
  List.length (extractPhpReferencesFromDocument d) < cap ->
  extractPhpReferencesFromDocument d =
    flat_map (staticRefs d) (execAll staticCallRe (getText d))
    ++ flat_map (methodRefs d) (execAll methodCallRe (getText d))
    ++ flat_map (fnRefs d) (execAll fnCallRe (getText d)).
Proof.
  unfold extractPhpReferencesFromDocument. cbn zeta. intros H.
  set (r1 := scanLoop (staticRefs d) _ []) in *.
  set (r2 := scanLoop (methodRefs d) _ r1) in *.
  pose proof (scanLoop_length (fnRefs d) (execAll fnCallRe (getText d)) r2) as H3.
  pose proof (scanLoop_length (methodRefs d) (execAll methodCallRe (getText d)) r1) as H2.
  fold r2 in H2.
  rewrite scanLoop_uncapped by done.
  unfold r2. rewrite scanLoop_uncapped by (fold r2; lia).
  unfold r1. rewrite scanLoop_uncapped by (fold r1; lia).
  by rewrite <- app_assoc.
Qed.

(** below the cap every call site the third loop accepts is recorded *)
Lemma call_site_recorded d m r :
  List.length (extractPhpReferencesFromDocument d) < cap ->
  m ∈ execAll fnCallRe (getText d) -> fnRefs d m = [r] ->
  r ∈ extractPhpReferencesFromDocument d.
Proof.
  intros Hcap Hm Hr. rewrite extract_uncapped by done.
  rewrite !elem_of_app. right. right.
  apply list_elem_of_In, in_flat_map. exists m. split; [by apply list_elem_of_In|].
  rewrite Hr. by left.
Qed.

End ReferenceFacts.

Module ReferenceIndex.
Import Re Scanner Extractor Index References ReferencesSpec IndexFacts ReferenceFacts Samples.



End ReferenceIndex.

(** ** Definition lookup *)

Module ResolverFacts.
Import Re ReSpec Scanner Extractor Index Routes Resolver ReFacts.

Lemma locOf_uri d z : loc_uri (locOf d z) = uri d.
Proof. reflexivity. Qed.

Lemma firstDecl_uri d base text rs loc :
  firstDecl d base text rs = Some loc -> loc_uri loc = uri d.
Proof.
  unfold firstDecl. induction rs as [|r rs IH]; simpl; [done|].
  destruct (exec r text); [by intros [= <-] | exact IH].
Qed.

(** the top-level search finds the first declaration of a type of that
    name, and else the first declaration of a function of that name *)
Lemma findTopLevel_function d wd m :
  exec (functionDeclOf (Js.pop (Js.split "\" wd))) (getText d) = Some m ->
  findTopLevel d wd =
    Some (locOf d (0 + Z.of_nat
            (match exec (typeDeclOf (Js.pop (Js.split "\" wd))) (getText d) with
             | Some m' => index m'
             | None => index m
             end))).
Proof.
  intros Hf. unfold findTopLevel, firstDecl. cbn zeta. cbn [firstSome].
  destruct (exec (typeDeclOf _) (getText d)); [done|]. by rewrite Hf.
Qed.

(** a text in which [function NAME(] follows a unit that is no word unit,
    or nothing, declares the function for the top-level search *)
Lemma declared_function_found pre name post :
  isWordOpt (snd (passed pre 0 None)) = false ->
  is_Some (exec (functionDeclOf name)
             (pre ++ "function " ++ name ++ "(" ++ post)).
Proof.
  intros Hpre. unfold exec, search, start. cbn [pos prev rest].
  apply searchFrom_passed.
  set (b := boundFor _). set (n := fst _). set (pv := snd _).
  destruct (in_run_lit b name ("(" ++ post) (n + 9) (Some " "%char) [])
    as (n' & pv' & Hname).
  apply matchAt_some with (e := Cursor (N.succ n') (Some "("%char) post []).
  cbn [pos prev rest]. unfold functionDeclOf, seqs.
  eapply in_run_seq.
  { apply in_run_boundary; [exact Hpre | reflexivity]. }
  eapply in_run_seq.
  { cbn -[N.succ]. by left. }
  eapply in_run_seq.
  { eapply in_run_seq; [by apply in_run_class | apply iterate_here]. }
  eapply in_run_seq.
  { unfold Opt. cbn [run]. apply in_or_app. right. by left. }
  eapply in_run_seq; [apply (iterate_here _ true)|].
  eapply in_run_seq.
  { replace (N.succ _) with (n + 9)%N by lia. exact Hname. }
  eapply in_run_seq; [apply (iterate_here _ true)|].
  apply in_run_class, isC_refl.
Qed.

End ResolverFacts.

Module LocalFirst.
Import Re ReSpec Scanner Extractor Index Routes Resolver ResolverFacts Samples.

(** C3, as stated, fails: in a file that declares [f], at a plain
    reference to [f] that the route step takes for the route name [ff],
    [provideDefinition] returns the location of the route, in another file,
    although the local search finds the declaration. *)
Lemma route_name_answered_first :
  let st := updatePhpIndexForDocument otherF Index.initial in
  let at_ := mkPosition 2 12 in
  getPhpReferenceAtPosition routeThenCall at_ = Some (mkReference Plain "f" "" "")
  /\ loc_uri <$> findLocalPhpDefinition routeThenCall at_ (mkReference Plain "f" "" "")
     = Some (uri routeThenCall)
  /\ List.map loc_uri <$>
       fst (fst (provideDefinition sampleWorkspace routeThenCall at_ st initialRoutes))
     = Some [uri routesFile].
Proof. vm_compute. repeat split. Qed.

(** C3, amended. For a file that declares a function [f] and a position
    in it at which the reference is a plain one to [f], [provideDefinition]
    returns one location of that file, the first declaration of a type named
    [f] if the file has one and else the first declaration of the function,
    whatever the workspace symbol index holds, and leaves that index as it
    was: unless the route step before it answers, which it does when the
    position is taken for a route name that the route index lists.  A file
    declares [f] when the pattern of the local search matches its text, as
    it does in every text that holds [function f(] after a unit that is no
    word unit. *)
Theorem local_definition_first
  (w : Workspace) (d : Document) (position : Position) (st : State) (rst : RouteState)
  (wd : string) :
  let name := Js.pop (Js.split "\" wd) in
  let answer := fst (fst (provideDefinition w d position st rst)) in
  getPhpReferenceAtPosition d position = Some (mkReference Plain wd "" "") ->
  wd <> "" ->
  fst (routeGate w d position rst) = None ->
  (forall m,
     exec (functionDeclOf name) (getText d) = Some m ->
     exists loc,
       answer = Some [loc]
       /\ loc_uri loc = uri d
       /\ snd (fst (provideDefinition w d position st rst)) = st
       /\ (forall st', fst (fst (provideDefinition w d position st' rst)) = Some [loc])
       /\ loc = locOf d (Z.of_nat
                  (match exec (typeDeclOf name) (getText d) with
                   | Some m' => index m'
                   | None => index m
                   end)))
  /\ (forall pre post,
        getText d = (pre ++ "function " ++ name ++ "(" ++ post)%string ->
        isWordOpt (snd (passed pre 0 None)) = false ->
        exists loc,
          answer = Some [loc]
          /\ loc_uri loc = uri d
          /\ snd (fst (provideDefinition w d position st rst)) = st
          /\ (forall st', fst (fst (provideDefinition w d position st' rst)) = Some [loc])).
Proof.
  intros name answer Href Hwd Hgate.
  assert (Hgen : forall m,
            exec (functionDeclOf name) (getText d) = Some m ->
            forall s,
              provideDefinition w d position s rst
              = (Some [locOf d (Z.of_nat
                         (match exec (typeDeclOf name) (getText d) with
                          | Some m' => index m'
                          | None => index m
                          end))], s, snd (routeGate w d position rst))).
  { intros m Hf s.
    assert (Hlocal : findLocalPhpDefinition d position (mkReference Plain wd "" "")
                     = Some (locOf d (Z.of_nat
                          (match exec (typeDeclOf name) (getText d) with
                           | Some m' => index m'
                           | None => index m
                           end)))).
    { unfold findLocalPhpDefinition. cbn [word ref_kind].
      pose proof (proj2 (truthy_true wd) Hwd) as Ht. rewrite Ht. cbn [negb].
      by rewrite (findTopLevel_function d wd m Hf). }
    unfold provideDefinition.
    destruct (routeGate w d position rst) as [gate rst1]. cbn [fst snd] in *.
    subst gate. by rewrite Href, Hlocal. }
  split.
  - intros m Hf. eexists. unfold answer. rewrite (Hgen m Hf). cbn [fst snd].
    repeat split. intros st'. by rewrite (Hgen m Hf).
  - intros pre post Htext Hpre.
    destruct (declared_function_found pre name post Hpre) as [m Hf].
    rewrite <- Htext in Hf.
    eexists. unfold answer. rewrite (Hgen m Hf). cbn [fst snd].
    repeat split. intros st'. by rewrite (Hgen m Hf).
Qed.

End LocalFirst.

(** * Properties of further functions *)

(** ** Brace matching *)

Module BraceFacts.
Import Scanner BraceSpec.

Lemma closesAt_head d c s :
  closesAt d (String c s) 0 = Chars.isC "}" c && (d + braceStep c =? 0)%Z.
Proof.
  unfold closesAt. cbn [String.get Js.take depthOf]. by rewrite Z.add_0_r.
Qed.

Lemma closesAt_tail d c s n :
  closesAt d (String c s) (S n) = closesAt (d + braceStep c) s n.
Proof.
  unfold closesAt. cbn [String.get Js.take depthOf].
  destruct (String.get n s); [|done]. by rewrite Z.add_assoc.
Qed.

Lemma isC_brace_open c : Chars.isC "{" c = true -> Chars.isC "}" c = false.
Proof.
  unfold Chars.isC.
  destruct c as [[] [] [] [] [] [] [] []]; vm_compute; congruence.
Qed.

Lemma findMatchingBraceAux_spec s : forall i d,
  (findMatchingBraceAux s i d = (-1)%Z /\ forall n, closesAt d s n = false)
  \/ (exists n, findMatchingBraceAux s i d = Z.of_nat (i + n)
                /\ closesAt d s n = true
                /\ forall j, j < n -> closesAt d s j = false).
Proof.
  induction s as [|c s IH]; intros i d.
  - left. split; [done|]. intros n. unfold closesAt. by destruct n.
  - assert (Hstep : forall d',
              (d' = d + braceStep c)%Z ->
              closesAt d (String c s) 0 = false ->
              (findMatchingBraceAux s (S i) d' = (-1)%Z
               /\ forall n, closesAt d' s n = false)
              \/ (exists n, findMatchingBraceAux s (S i) d' = Z.of_nat (S i + n)
                            /\ closesAt d' s n = true
                            /\ forall j, j < n -> closesAt d' s j = false) ->
              (findMatchingBraceAux s (S i) d' = (-1)%Z
               /\ forall n, closesAt d (String c s) n = false)
              \/ (exists n, findMatchingBraceAux s (S i) d' = Z.of_nat (i + n)
                            /\ closesAt d (String c s) n = true
                            /\ forall j, j < n -> closesAt d (String c s) j = false)).
    { intros d' -> H0 [[Hr Hn]|(n & Hr & Hc & Hj)].
      - left. split; [done|]. intros [|n]; [done|]. rewrite closesAt_tail. apply Hn.
      - right. exists (S n). split; [rewrite Hr; f_equal; lia|].
        split; [by rewrite closesAt_tail|].
        intros [|j] Hlt; [done|]. rewrite closesAt_tail. apply Hj. lia. }
    cbn [findMatchingBraceAux]. unfold braceStep in Hstep.
    destruct (Chars.isC "{" c) eqn:Eo.
    + apply Hstep; [done | | apply IH].
      rewrite closesAt_head. by rewrite (isC_brace_open c Eo).
    + destruct (Chars.isC "}" c) eqn:Ec.
      * destruct (d - 1 =? 0)%Z eqn:Ed.
        -- right. exists 0. split; [f_equal; lia|]. split; [|intros j Hj; lia].
           rewrite closesAt_head. unfold braceStep. rewrite Eo, Ec. cbn [andb].
           apply Z.eqb_eq in Ed. apply Z.eqb_eq. lia.
        -- apply Hstep; [lia | | apply IH].
           rewrite closesAt_head. unfold braceStep. rewrite Eo, Ec. cbn [andb].
           apply Z.eqb_neq in Ed. apply Z.eqb_neq. lia.
      * apply Hstep; [lia | | apply IH].
        rewrite closesAt_head. by rewrite Ec.
Qed.

End BraceFacts.

Module Braces.
Import Scanner BraceSpec BraceFacts.

(** X1. [findMatchingBrace] returns the offset of the first closing brace,
    at or after the start offset, at which the braces met since the start
    offset balance, and [-1] exactly when no unit from the start offset on
    is such a closing brace. *)
Theorem findMatchingBrace_first_balanced (text : string) (startIndex : nat) :
  let s := Js.drop startIndex text in
  let r := findMatchingBrace text (Z.of_nat startIndex) in
  (r = (-1)%Z /\ forall n, closesAt 0 s n = false)
  \/ (exists n, r = Z.of_nat (startIndex + n)
                /\ closesAt 0 s n = true
                /\ forall j, j < n -> closesAt 0 s j = false).
Proof.
  intros s r. unfold r, findMatchingBrace. rewrite Nat2Z.id.
  apply findMatchingBraceAux_spec.
Qed.

End Braces.

(** ** Ranges delimited by braces *)

Module RangeFacts.
Import Re Scanner BraceSpec BraceFacts RangeSpec.

Lemma get_drop k s n : String.get n (Js.drop k s) = String.get (k + n) s.
Proof.
  revert s. induction k as [|k IH]; intros s; [by destruct s|].
  destruct s as [|c s]; cbn [Js.drop Nat.add String.get]; [done | apply IH].
Qed.

Lemma same_eq a b : Chars.same a b = true -> a = b.
Proof.
  destruct a as [a0 a1 a2 a3 a4 a5 a6 a7], b as [b0 b1 b2 b3 b4 b5 b6 b7].
  cbn [Chars.same].
  repeat match goal with
         | |- (if Bool.eqb ?x ?y then _ else false) = true -> _ =>
             destruct (Bool.eqb x y) eqn:?; [|discriminate]
         end.
  intros H.
  repeat match goal with
         | E : Bool.eqb _ _ = true |- _ => apply Bool.eqb_prop in E
         end.
  by subst.
Qed.

Lemma isC_eq a c : Chars.isC a c = true -> c = a.
Proof. unfold Chars.isC. apply same_eq. Qed.

Lemma startsWith_unit a s :
  Js.startsWith (String a "") s = true -> String.get 0 s = Some a.
Proof.
  destruct s as [|b s]; cbn [Js.startsWith String.get]; [done|].
  rewrite andb_true_r. intros H. apply Ascii.eqb_eq in H. by subst.
Qed.

Lemma indexOfAux_found p s i r :
  Js.indexOfAux p s i = r -> r <> (-1)%Z ->
  exists n, r = Z.of_nat (i + n) /\ Js.startsWith p (Js.drop n s) = true.
Proof.
  revert i. induction s as [|c s IH]; intros i; cbn [Js.indexOfAux].
  - destruct (Js.startsWith p "") eqn:E; intros <- Hr; [|done].
    exists 0. split; [f_equal; lia | done].
  - destruct (Js.startsWith p (String c s)) eqn:E.
    + intros <- _. exists 0. split; [f_equal; lia | done].
    + intros H Hr. destruct (IH _ H Hr) as (n & -> & Hn).
      exists (S n). split; [f_equal; lia | done].
Qed.

Lemma drop_drop a b s : Js.drop a (Js.drop b s) = Js.drop (b + a) s.
Proof.
  revert s. induction b as [|b IH]; intros s; [done|].
  destruct s as [|c s]; cbn [Js.drop Nat.add]; [by destruct a | apply IH].
Qed.

Lemma indexOf_found p from s r :
  Js.indexOf p from s = r -> r <> (-1)%Z -> p <> "" ->
  exists n, r = Z.of_nat n /\ from <= n /\ Js.startsWith p (Js.drop n s) = true.
Proof.
  unfold Js.indexOf. intros H Hr Hp.
  destruct (String.length s <? from)%nat.
  - apply String.eqb_neq in Hp. rewrite Hp in H. by subst.
  - destruct (indexOfAux_found _ _ _ _ H Hr) as (n & -> & Hn).
    exists (from + n). split; [done|]. split; [lia|]. by rewrite <- drop_drop.
Qed.

Lemma take_succ_depth k s :
  depthOf (Js.take (S k) s)
  = (depthOf (Js.take k s)
     + match String.get k s with Some c => braceStep c | None => 0 end)%Z.
Proof.
  revert s. induction k as [|k IH]; intros s.
  - destruct s as [|c s]; cbn [Js.take depthOf String.get]; [done | lia].
  - destruct s as [|c s]; [done|].
    change (Js.take (S (S k)) (String c s)) with (String c (Js.take (S k) s)).
    change (Js.take (S k) (String c s)) with (String c (Js.take k s)).
    cbn [depthOf String.get]. rewrite IH. lia.
Qed.

Lemma braceStep_bounds c : (-1 <= braceStep c <= 1)%Z.
Proof. unfold braceStep. destruct (Chars.isC "{" c), (Chars.isC "}" c); lia. Qed.

Lemma braceStep_close c : braceStep c = (-1)%Z -> Chars.isC "}" c = true.
Proof. unfold braceStep. destruct (Chars.isC "{" c), (Chars.isC "}" c); done || lia. Qed.

(** from an opening brace to the first closing brace at depth 0 the depth
    stays positive *)
Lemma depth_positive_before_close c s n :
  Chars.isC "{" c = true ->
  (forall j, j < n -> closesAt 0 (String c s) j = false) ->
  forall k, 1 <= k <= n -> (1 <= depthOf (Js.take k (String c s)))%Z.
Proof.
  intros Hc Hfirst k. induction k as [|k IH]; [lia|]. intros [_ Hk].
  destruct k as [|k].
  - cbn [Js.take depthOf]. unfold braceStep. rewrite Hc. lia.
  - rewrite take_succ_depth.
    assert (Hprev : (1 <= depthOf (Js.take (S k) (String c s)))%Z) by (apply IH; lia).
    destruct (String.get (S k) (String c s)) as [x|] eqn:Ex; [|lia].
    pose proof (braceStep_bounds x) as Hb.
    destruct (Z.eq_dec (depthOf (Js.take (S k) (String c s)) + braceStep x) 0) as [Hz|Hz];
      [|lia].
    exfalso. assert (Hx : braceStep x = (-1)%Z) by lia.
    pose proof (Hfirst (S k) ltac:(lia)) as Hno.
    unfold closesAt in Hno. rewrite Ex, (braceStep_close x Hx) in Hno. cbn [andb] in Hno.
    rewrite take_succ_depth, Ex in Hno. apply Z.eqb_neq in Hno. lia.
Qed.

Lemma braced_range text (o : nat) r :
  String.get o text = Some "{"%char ->
  findMatchingBrace text (Z.of_nat o) = r -> r <> (-1)%Z ->
  exists c, r = Z.of_nat c /\ Braced text o c.
Proof.
  intros Ho Hr Hne.
  pose proof (findMatchingBraceAux_spec (Js.drop o text) o 0) as Hs.
  unfold findMatchingBrace in Hr. rewrite Nat2Z.id in Hr. rewrite Hr in Hs.
  destruct Hs as [[-> _]|(n & -> & Hc & Hfirst)]; [done|].
  destruct (Js.drop o text) as [|x s] eqn:Ed.
  { unfold closesAt in Hc. by destruct n. }
  assert (Hx : x = "{"%char).
  { pose proof (get_drop o text 0) as H0. rewrite Ed, Nat.add_0_r, Ho in H0.
    cbn in H0. congruence. }
  subst x.
  assert (Hn : 0 < n).
  { destruct n; [|lia]. by rewrite closesAt_head in Hc. }
  destruct n as [|n]; [lia|].
  unfold closesAt in Hc.
  destruct (String.get (S n) (String "{" s)) as [y|] eqn:Ey; [|done].
  apply andb_true_iff in Hc as [Hy Hz]. apply isC_eq in Hy. subst y.
  apply Z.eqb_eq in Hz. rewrite Z.add_0_l in Hz.
  assert (Hrest : Js.drop (S o) text = s).
  { replace (S o) with (o + 1) by lia. rewrite <- drop_drop, Ed. done. }
  exists (o + S n). split; [done|]. unfold Braced.
  split; [done|]. split.
  { rewrite <- get_drop, Ed. exact Ey. }
  split; [lia|]. rewrite Hrest.
  replace (o + S n - S o) with n by lia.
  assert (Hshift : forall k, depthOf (Js.take (S k) (String "{" s))
                             = (1 + depthOf (Js.take k s))%Z).
  { intros k. change (Js.take (S k) (String "{" s)) with (String "{" (Js.take k s)).
    cbn [depthOf]. done. }
  split.
  - intros k Hk.
    pose proof (depth_positive_before_close "{" s (S n) eq_refl Hfirst (S k)) as Hp.
    destruct (decide (k = n)) as [->|Hkn].
    + rewrite take_succ_depth, Ey in Hz. rewrite Hshift in Hz.
      change (braceStep "}") with (-1)%Z in Hz. lia.
    + rewrite Hshift in Hp. lia.
  - rewrite take_succ_depth, Ey, Hshift in Hz.
    change (braceStep "}") with (-1)%Z in Hz. lia.
Qed.

End RangeFacts.

(** ** Declarations whose body cannot be delimited *)

Module DeclarationFacts.
Import Re Scanner Extractor ExtractorSpec BraceSpec BraceFacts DeclarationSpec RangeFacts.

Lemma get_beyond s : forall k, String.length s <= k -> String.get k s = None.
Proof.
  induction s as [|c s IH]; intros k Hk; [by destruct k|].
  destruct k as [|k]; cbn [String.length] in Hk; [lia|].
  cbn [String.get]. apply IH. lia.
Qed.

Lemma indexOfAux_unit_spec a s : forall i,
  (Js.indexOfAux (String a "") s i = (-1)%Z /\ forall n, String.get n s <> Some a)
  \/ (exists n, Js.indexOfAux (String a "") s i = Z.of_nat (i + n)
                /\ String.get n s = Some a
                /\ forall j, j < n -> String.get j s <> Some a).
Proof.
  induction s as [|c s IH]; intros i.
  - left. split; [done|]. intros n. by destruct n.
  - cbn [Js.indexOfAux Js.startsWith]. rewrite andb_true_r.
    destruct (Ascii.eqb a c) eqn:E.
    + apply Ascii.eqb_eq in E. subst c. right. exists 0.
      split; [f_equal; lia|]. split; [done|]. intros j Hj. lia.
    + apply Ascii.eqb_neq in E.
      destruct (IH (S i)) as [[Hr Hn]|(n & Hr & Hg & Hj)].
      * left. split; [done|]. intros [|n]; cbn [String.get]; [congruence | apply Hn].
      * right. exists (S n). split; [rewrite Hr; f_equal; lia|]. split; [done|].
        intros [|j] Hlt; cbn [String.get]; [congruence | apply Hj; lia].
Qed.

(** what [text.indexOf('{', i)] returns *)
Lemma indexOf_brace_spec text i :
  (Js.indexOf "{" i text = (-1)%Z /\ NoBraceFrom text i)
  \/ (exists o, Js.indexOf "{" i text = Z.of_nat o /\ FirstBraceFrom text i o).
Proof.
  unfold Js.indexOf. destruct (String.length text <? i)%nat eqn:El.
  - left. split; [done|]. intros k Hk. apply Nat.ltb_lt in El.
    rewrite get_beyond by lia. done.
  - destruct (indexOfAux_unit_spec "{" (Js.drop i text) i) as [[Hr Hn]|(n & Hr & Hg & Hj)].
    + left. split; [done|]. intros k Hk.
      replace k with (i + (k - i)) by lia. rewrite <- get_drop. apply Hn.
    + right. exists (i + n). split; [done|]. split; [lia|].
      split; [by rewrite <- get_drop|].
      intros k Hk. replace k with (i + (k - i)) by lia. rewrite <- get_drop.
      apply Hj. lia.
Qed.

Lemma firstBrace_unique text i o1 o2 :
  FirstBraceFrom text i o1 -> FirstBraceFrom text i o2 -> o1 = o2.
Proof.
  intros (H1 & G1 & M1) (H2 & G2 & M2).
  destruct (Nat.lt_trichotomy o1 o2) as [Hlt|[->|Hlt]]; [|done|].
  - exfalso. apply (M2 o1); [lia | done].
  - exfalso. apply (M1 o2); [lia | done].
Qed.

Lemma firstBrace_some text i o :
  FirstBraceFrom text i o -> NoBraceFrom text i -> False.
Proof. intros (H1 & G1 & _) Hn. by apply (Hn o). Qed.

Lemma indexOf_first text i o :
  FirstBraceFrom text i o -> Js.indexOf "{" i text = Z.of_nat o.
Proof.
  intros Ho. destruct (indexOf_brace_spec text i) as [[_ Hn]|(o' & -> & Ho')].
  - by destruct (firstBrace_some text i o).
  - by rewrite (firstBrace_unique text i o o').
Qed.

Lemma indexOf_none text i : NoBraceFrom text i -> Js.indexOf "{" i text = (-1)%Z.
Proof.
  intros Hn. destruct (indexOf_brace_spec text i) as [[H _]|(o' & _ & Ho')]; [done|].
  by destruct (firstBrace_some text i o').
Qed.

(** what [findMatchingBrace(text, o)] returns *)
Lemma findMatchingBrace_spec text o :
  (findMatchingBrace text (Z.of_nat o) = (-1)%Z /\ NeverClosed text o)
  \/ (exists n, findMatchingBrace text (Z.of_nat o) = Z.of_nat (o + n)
                /\ ClosedAt text o n).
Proof.
  unfold findMatchingBrace. rewrite Nat2Z.id.
  destruct (findMatchingBraceAux_spec (Js.drop o text) o 0) as [[Hr Hn]|(n & Hr & Hc & Hj)].
  - by left.
  - right. exists n. by repeat split.
Qed.

Lemma closedAt_unique text o n1 n2 :
  ClosedAt text o n1 -> ClosedAt text o n2 -> n1 = n2.
Proof.
  intros [C1 M1] [C2 M2].
  destruct (Nat.lt_trichotomy n1 n2) as [Hlt|[->|Hlt]]; [|done|].
  - rewrite (M2 n1 Hlt) in C1. discriminate.
  - rewrite (M1 n2 Hlt) in C2. discriminate.
Qed.

Lemma findMatchingBrace_closed text o n :
  ClosedAt text o n -> findMatchingBrace text (Z.of_nat o) = Z.of_nat (o + n).
Proof.
  intros Hc. destruct (findMatchingBrace_spec text o) as [[_ Hn]|(n' & -> & Hc')].
  - destruct Hc as [Hc _]. rewrite Hn in Hc. discriminate.
  - by rewrite (closedAt_unique text o n n').
Qed.

Lemma findMatchingBrace_never text o :
  NeverClosed text o -> findMatchingBrace text (Z.of_nat o) = (-1)%Z.
Proof.
  intros Hn. destruct (findMatchingBrace_spec text o) as [[H _]|(n' & _ & [Hc _])]; [done|].
  rewrite Hn in Hc. discriminate.
Qed.

(** the two tests of the loop over the declarations fail exactly on the
    declarations whose body cannot be delimited *)
Lemma unbalanced_iff text m : unbalanced text m = true <-> Unclosed text (index m).
Proof.
  unfold unbalanced. cbn zeta. split.
  - intros H. destruct (indexOf_brace_spec text (index m)) as [[Hr Hn]|(o & Hr & Ho)].
    + by left.
    + right. exists o. split; [done|]. rewrite Hr in H.
      destruct (findMatchingBrace_spec text o) as [[_ Hn]|(n & Hf & _)]; [done|].
      rewrite Hf in H.
      rewrite (proj2 (Z.eqb_neq (Z.of_nat o) (-1)) ltac:(lia)) in H.
      rewrite (proj2 (Z.eqb_neq (Z.of_nat (o + n)) (-1)) ltac:(lia)) in H.
      discriminate.
  - intros [Hn|(o & Ho & Hn)].
    + by rewrite indexOf_none.
    + rewrite (indexOf_first text (index m) o Ho).
      rewrite findMatchingBrace_never by done. apply orb_true_r.
Qed.

Lemma classDecl_unbalanced d ns acc m :
  unbalanced (getText d) m = true -> classDecl d ns acc m = acc.
Proof.
  unfold unbalanced, classDecl. cbn zeta. intros H.
  destruct (Js.indexOf "{" (index m) (getText d) =? -1)%Z; [done|].
  cbn [orb] in H. by rewrite H.
Qed.

Lemma classDecl_balanced_grows d ns acc m :
  unbalanced (getText d) m = false ->
  List.length (fst (classDecl d ns acc m)) = S (List.length (fst acc)).
Proof.
  unfold unbalanced, classDecl. cbn zeta. intros H.
  apply orb_false_iff in H as [H1 H2]. rewrite H1, H2. cbn [fst].
  rewrite length_app. cbn [List.length]. lia.
Qed.

(** a turn of the loop adds to what was collected, whatever that was *)
Lemma classDecl_acc d ns acc m :
  snd (classDecl d ns acc m) = snd acc ++ snd (classDecl d ns ([], []) m).
Proof.
  unfold classDecl. cbn zeta.
  destruct (_ =? -1)%Z; [by rewrite app_nil_r|].
  destruct (_ =? -1)%Z; [by rewrite app_nil_r|].
  done.
Qed.

Lemma classDecl_skips_iff d ns acc m :
  classDecl d ns acc m = acc <-> Unclosed (getText d) (index m).
Proof.
  rewrite <- unbalanced_iff. split.
  - intros H. destruct (unbalanced (getText d) m) eqn:E; [done|].
    pose proof (classDecl_balanced_grows d ns acc m E) as Hl.
    rewrite H in Hl. lia.
  - apply classDecl_unbalanced.
Qed.

Lemma fold_classDecl_origin d ns ms : forall acc s,
  s ∈ snd (fold_left (classDecl d ns) ms acc) ->
  s ∈ snd acc
  \/ exists m, m ∈ ms /\ ~ Unclosed (getText d) (index m)
               /\ s ∈ snd (classDecl d ns ([], []) m).
Proof.
  induction ms as [|m ms IH]; intros acc s Hs; cbn [fold_left] in Hs; [by left|].
  destruct (IH _ _ Hs) as [Hacc|(m' & Hm' & Hc & Hin)].
  - rewrite classDecl_acc in Hacc. apply elem_of_app in Hacc as [Hacc|Hnew]; [by left|].
    right. exists m. split; [apply list_elem_of_here|]. split; [|done].
    intros Hu. apply (classDecl_skips_iff d ns ([], [])) in Hu.
    rewrite Hu in Hnew. by apply elem_of_nil in Hnew.
  - right. exists m'. split; [by apply list_elem_of_further | done].
Qed.

End DeclarationFacts.

Module Unbalanced.
Import Re Scanner Extractor ExtractorSpec DeclarationSpec DeclarationFacts Samples MoreSamples.

Ltac all_free :=
  repeat (apply List.Forall_cons; [split; [reflexivity | auto] |]);
  apply List.Forall_nil.

Lemma free_passes_free d ns ranges :
  Forall Free
    (flat_map (freeFunction d ns ranges) (execAll functionRe (getText d))
     ++ flat_map (globalConst d ns ranges) (execAll globalConstRe (getText d))
     ++ flat_map (constantSymbols d ns) (execAll defineRe (getText d))).
Proof.
  rewrite !Forall_app. repeat split;
    apply ExtractorFacts.Forall_flat_map_all; intros m.
  - unfold freeFunction. destruct (insideClass _ _); [constructor|].
    destruct (Js.truthy _); all_free.
  - unfold globalConst, constantSymbols. destruct (insideClass _ _); [constructor|].
    destruct (Js.truthy _); all_free.
  - unfold constantSymbols. destruct (Js.truthy _); all_free.
Qed.

(** the body of the one declaration of the sample file is never closed *)
Lemma unbalancedClass_declarations :
  Forall (fun m => Unclosed (getText unbalancedClass) (index m))
         (execAll classDeclRe (getText unbalancedClass)).
Proof.
  assert (E : List.map (unbalanced (getText unbalancedClass))
                (execAll classDeclRe (getText unbalancedClass)) = [true])
    by (vm_compute; reflexivity).
  destruct (execAll classDeclRe (getText unbalancedClass)) as [|m [|m' ms]];
    try discriminate E.
  injection E as E. apply List.Forall_cons; [|apply List.Forall_nil].
  by apply unbalanced_iff.
Qed.

(** C5, as stated, fails: the class body of [class A { function foo() { }]
    is never closed, and the method inside is indexed, as the free
    function [foo]. *)
Lemma nested_method_indexed_as_function :
  Forall (fun m => Unclosed (getText unbalancedClass) (index m))
         (execAll classDeclRe (getText unbalancedClass))
  /\ List.map (fun s => (key s, kind s)) (extractPhpSymbolsFromDocument unbalancedClass)
     = [("foo", Function)].
Proof. split; [exact unbalancedClass_declarations | vm_compute; reflexivity]. Qed.

(** A declaration without a body of its own is not skipped when the text
    goes on with a brace: [abstract class A extends B] takes the body of
    the class [C] that follows it, and [m] is indexed for both. *)
Lemma declaration_takes_next_brace :
  List.map (fun s => (key s, kind s)) (extractPhpSymbolsFromDocument bodilessThenClass)
  = [("A", Class); ("A::m", Method); ("C", Class); ("C::m", Method)].
Proof. vm_compute. reflexivity. Qed.

(** C5, amended. The loop over the type declarations skips a declaration
    exactly when its body cannot be delimited: the text from the start of
    the declaration on holds no opening brace, or the first opening brace
    it holds, wherever it stands, has no closing brace at which the braces
    counted from it balance.  Such a declaration adds neither a class
    range nor a symbol, so the pass gives what it gives without the
    declaration; every symbol the extractor returns is a function or a
    constant that belongs to no class, or comes from a declaration whose
    body is delimited; and when no declaration of a file has a body that
    can be delimited, all the extractor yields are functions and constants
    that belong to no class. *)
Theorem unbalanced_declaration_skipped (d : Document) :
  let text := getText d in
  let namespace := getPhpNamespace text in
  (forall acc m, classDecl d namespace acc m = acc <-> Unclosed text (index m))
  /\ (forall before m after acc,
        Unclosed text (index m) ->
        fold_left (classDecl d namespace) (before ++ m :: after) acc
        = fold_left (classDecl d namespace) (before ++ after) acc)
  /\ (forall s, s ∈ extractPhpSymbolsFromDocument d ->
        Free s
        \/ exists m, m ∈ execAll classDeclRe text
                     /\ ~ Unclosed text (index m)
                     /\ s ∈ snd (classDecl d namespace ([], []) m))
  /\ ((forall m, m ∈ execAll classDeclRe text -> Unclosed text (index m)) ->
      forall s, s ∈ extractPhpSymbolsFromDocument d -> Free s).
Proof.
  intros text namespace.
  assert (Horigin : forall s, s ∈ extractPhpSymbolsFromDocument d ->
            Free s
            \/ exists m, m ∈ execAll classDeclRe text
                         /\ ~ Unclosed text (index m)
                         /\ s ∈ snd (classDecl d namespace ([], []) m)).
  { intros s Hs. unfold extractPhpSymbolsFromDocument in Hs. cbn zeta in Hs.
    fold text namespace in Hs.
    pose proof (fold_classDecl_origin d namespace (execAll classDeclRe text) ([], []) s)
      as Ho.
    destruct (fold_left _ _ _) as [ranges symbols]. cbn [snd] in Ho.
    apply elem_of_app in Hs as [Hs|Hs].
    - destruct (Ho Hs) as [Hnil|Hm]; [by apply elem_of_nil in Hnil | by right].
    - left. pose proof (free_passes_free d namespace ranges) as HF.
      rewrite Forall_forall in HF. by apply HF. }
  split; [intros acc m; apply classDecl_skips_iff|].
  split; [|split; [exact Horigin|]].
  - intros before m after acc Hu.
    rewrite !fold_left_app. cbn [fold_left].
    by rewrite (proj2 (classDecl_skips_iff d namespace _ m) Hu).
  - intros Hall s Hs. destruct (Horigin s Hs) as [Hf|(m & Hm & Hc & _)]; [done|].
    destruct Hc. by apply Hall.
Qed.

End Unbalanced.

Module Ranges.
Import Re Scanner BraceSpec RangeSpec RangeFacts Resolver CallHierarchy.

(** X2. When [findPhpClassMemberRange] returns a range, the range starts
    at an opening brace and ends just after the closing brace that matches
    it: the braces between the two are nested and balance. *)
Theorem class_member_range_braced (text className : string) (a b : Z) :
  findPhpClassMemberRange text className = Some (a, b) ->
  exists o c, a = Z.of_nat o /\ b = Z.of_nat (S c) /\ Braced text o c.
Proof.
  unfold findPhpClassMemberRange.
  destruct (exec (typeDeclOf className) text) as [m|]; [|done].
  destruct (Js.indexOf "{" (index m) text =? -1)%Z eqn:Es; [done|].
  destruct (findMatchingBrace text (Js.indexOf "{" (index m) text) =? -1)%Z eqn:Ee;
    [done|].
  intros [= <- <-]. apply Z.eqb_neq in Es, Ee.
  destruct (indexOf_found "{" (index m) text _ eq_refl Es ltac:(done))
    as (o & Ho & _ & Hstart).
  rewrite Ho in Ee |- *.
  apply startsWith_unit in Hstart. rewrite get_drop, Nat.add_0_r in Hstart.
  destruct (braced_range text o _ Hstart eq_refl Ee) as (c & Hc & HB).
  exists o, c. rewrite Hc. split; [done|]. split; [lia | done].
Qed.

(** X3. When [findPhpFunctionBodyRangeAtOffset] returns a range, the range
    is the text between an opening brace and the closing brace that matches
    it, both excluded. *)
Theorem function_body_range_braced (text : string) (offset : nat) (a b : Z) :
  findPhpFunctionBodyRangeAtOffset text offset = Some (a, b) ->
  exists o c, a = Z.of_nat (S o) /\ b = Z.of_nat c /\ Braced text o c.
Proof.
  unfold findPhpFunctionBodyRangeAtOffset. cbn zeta.
  set (fnIndex := Js.lastIndexOf _ _).
  destruct (fnIndex =? -1)%Z; [done|].
  destruct (Js.indexOf "{" (Z.to_nat fnIndex) text =? -1)%Z eqn:Es; [done|].
  destruct (findMatchingBrace text (Js.indexOf "{" (Z.to_nat fnIndex) text) =? -1)%Z
    eqn:Ee; [done|].
  intros [= <- <-]. apply Z.eqb_neq in Es, Ee.
  destruct (indexOf_found "{" (Z.to_nat fnIndex) text _ eq_refl Es ltac:(done))
    as (o & Ho & _ & Hstart).
  rewrite Ho in Ee |- *.
  apply startsWith_unit in Hstart. rewrite get_drop, Nat.add_0_r in Hstart.
  destruct (braced_range text o _ Hstart eq_refl Ee) as (c & Hc & HB).
  exists o, c. rewrite Hc. split; [lia|]. split; [done | done].
Qed.

End Ranges.

(** ** Parameter lists and argument counts *)

Module TrimFacts.

Lemma append_cons x (a b : string) : (String x a ++ b)%string = String x (a ++ b).
Proof. reflexivity. Qed.

Lemma append_assoc (a b c : string) : (a ++ (b ++ c))%string = ((a ++ b) ++ c)%string.
Proof. induction a as [|x a IH]; [done|]. rewrite !append_cons. by f_equal. Qed.

Lemma length_append (a b : string) :
  String.length (a ++ b) = String.length a + String.length b.
Proof.
  induction a as [|x a IH]; [done|]. rewrite append_cons.
  cbn [String.length Nat.add]. by f_equal.
Qed.

Lemma rev_acc s acc : Js.rev s acc = (Js.rev s "" ++ acc)%string.
Proof.
  revert acc. induction s as [|c s IH]; intros acc; cbn [Js.rev]; [done|].
  rewrite (IH (String c acc)), (IH (String c "")).
  by rewrite <- append_assoc.
Qed.

Lemma append_empty_r (s : string) : (s ++ "")%string = s.
Proof. induction s as [|c s IH]; [done|]. rewrite append_cons. by f_equal. Qed.

Lemma rev_append a b : Js.rev (a ++ b) "" = (Js.rev b "" ++ Js.rev a "")%string.
Proof.
  induction a as [|c a IH].
  - change ("" ++ b)%string with b. cbn [Js.rev]. by rewrite append_empty_r.
  - rewrite append_cons. cbn [Js.rev].
    rewrite (rev_acc (a ++ b)), (rev_acc a), IH. by rewrite append_assoc.
Qed.

Lemma rev_involutive s : Js.rev (Js.rev s "") "" = s.
Proof.
  induction s as [|c s IH]; cbn [Js.rev]; [done|].
  rewrite (rev_acc s), rev_append, IH. done.
Qed.

Lemma trimStart_suffix s : exists w, s = (w ++ Js.trimStart s)%string.
Proof.
  induction s as [|c s [w IH]]; cbn [Js.trimStart]; [by exists ""|].
  destruct (Chars.space c).
  - exists (String c w). rewrite append_cons. by rewrite <- IH.
  - by exists "".
Qed.

Lemma trimStart_idem s : Js.trimStart (Js.trimStart s) = Js.trimStart s.
Proof.
  induction s as [|c s IH]; cbn [Js.trimStart]; [done|].
  destruct (Chars.space c) eqn:E; [done|]. cbn [Js.trimStart]. by rewrite E.
Qed.

Lemma trimEnd_prefix s : exists w, s = (Js.trimEnd s ++ w)%string.
Proof.
  unfold Js.trimEnd. destruct (trimStart_suffix (Js.rev s "")) as [w Hw].
  exists (Js.rev w ""). rewrite <- rev_append, <- Hw. by rewrite rev_involutive.
Qed.

Lemma trimEnd_idem s : Js.trimEnd (Js.trimEnd s) = Js.trimEnd s.
Proof. unfold Js.trimEnd. by rewrite rev_involutive, trimStart_idem. Qed.

Lemma trimStart_fixed_prefix t u w :
  Js.trimStart t = t -> t = (u ++ w)%string -> u <> "" -> Js.trimStart u = u.
Proof.
  intros Ht -> Hu. destruct u as [|c u]; [done|].
  rewrite append_cons in Ht. cbn [Js.trimStart] in Ht |- *.
  destruct (Chars.space c); [|done].
  exfalso. destruct (trimStart_suffix (u ++ w)) as [x Hx].
  rewrite Ht in Hx. apply (f_equal String.length) in Hx.
  repeat first [rewrite length_append in Hx | progress (cbn [String.length] in Hx)].
  lia.
Qed.

Lemma trim_idem s : Js.trim (Js.trim s) = Js.trim s.
Proof.
  unfold Js.trim. set (t := Js.trimStart s).
  assert (Ht : Js.trimStart t = t) by apply trimStart_idem.
  destruct (trimEnd_prefix t) as [w Hw].
  destruct (string_dec (Js.trimEnd t) "") as [E|E]; [by rewrite E|].
  rewrite (trimStart_fixed_prefix t (Js.trimEnd t) w Ht Hw E).
  apply trimEnd_idem.
Qed.

Lemma trim_within s : exists a b, s = (a ++ Js.trim s ++ b)%string.
Proof.
  unfold Js.trim. destruct (trimStart_suffix s) as [a Ha].
  destruct (trimEnd_prefix (Js.trimStart s)) as [b Hb].
  exists a, b. by rewrite <- Hb.
Qed.

End TrimFacts.

Module SplitFacts.
Import Scanner Calls CallsSpec TrimFacts.

Ltac split_cases :=
  repeat match goal with
         | |- context [if ?x then _ else _] => destruct x eqn:?; cbn
         end.

(** a step of the scan of [splitPhpParameters] either adds the unit to the
    current part or closes the current part *)
Lemma splitStep_shape st ch :
  (parts (splitStep st ch) = parts st
   /\ current (splitStep st ch) = pushCh ch (current st))
  \/ (current (splitStep st ch) = ""
      /\ parts (splitStep st ch)
         = if Js.truthy (Js.trim (current st))
           then parts st ++ [Js.trim (current st)] else parts st).
Proof.
  destruct st as [ps cur dp dk db sq dq esc]. unfold splitStep.
  cbn [parts current].
  destruct (sq || dq).
  - left. destruct esc; [done|]. destruct (Chars.isC "\" ch); [done|]. done.
  - destruct (Chars.isC "'" ch); [by left|].
    destruct (Chars.isC "034" ch); [by left|].
    match goal with
    | |- context [if ?c then mkSplit _ "" _ _ _ _ _ _ else _] => destruct c
    end; [right | left]; done.
Qed.

Lemma steps_in_step a b ch :
  InStep a b ->
  InStep (splitStep a ch) (countStep b ch)
  /\ (List.length (parts a) <= commas b ->
      List.length (parts (splitStep a ch)) <= commas (countStep b ch)).
Proof.
  destruct a as [ps cur dp dk db sq dq esc], b as [n dp' dk' db' sq' dq' esc'].
  unfold InStep. cbn [depthParen depthBracket depthBrace inSingle inDouble escape
                        c_depthParen c_depthBracket c_depthBrace c_inSingle c_inDouble
                        c_escape parts commas].
  intros (<- & <- & <- & <- & <- & <-).
  unfold splitStep, countStep.
  destruct (sq || dq).
  - destruct esc; [by repeat split|].
    destruct (Chars.isC "\" ch); [by repeat split|]. by repeat split.
  - destruct (Chars.isC "'" ch); [by repeat split|].
    destruct (Chars.isC "034" ch); [by repeat split|].
    match goal with
    | |- context [if ?c then mkSplit _ "" _ _ _ _ _ _ else _] => destruct c
    end; cbn; (split; [by repeat split|]); intros H; [|done].
    destruct (Js.truthy _); [rewrite length_app; cbn; lia | lia].
Qed.

Lemma runs_in_step s : forall a b,
  InStep a b -> List.length (parts a) <= commas b ->
  List.length (parts (splitRun a s)) <= commas (countRun b s).
Proof.
  induction s as [|ch s IH]; intros a b Hab Hle; cbn [splitRun countRun]; [done|].
  destruct (steps_in_step a b ch Hab) as [Hab' Hle']. apply IH; auto.
Qed.

Lemma trimmed_part consumed pre cur :
  consumed = (pre ++ cur)%string -> Js.trim cur <> "" ->
  Js.trim cur <> "" /\ Js.trim (Js.trim cur) = Js.trim cur
  /\ exists a b, consumed = (a ++ Js.trim cur ++ b)%string.
Proof.
  intros -> Hne. split; [done|]. split; [apply trim_idem|].
  destruct (trim_within cur) as (a & b & Hab).
  exists (pre ++ a)%string, b. rewrite <- append_assoc. by rewrite <- Hab.
Qed.

Lemma splitStep_ok consumed st ch :
  PartsOk consumed st -> PartsOk (consumed ++ String ch "") (splitStep st ch).
Proof.
  intros [[pre Hpre] Hparts].
  assert (Hold : forall p, p ∈ parts st ->
            p <> "" /\ Js.trim p = p
            /\ exists a b, (consumed ++ String ch "")%string = (a ++ p ++ b)%string).
  { intros p Hp. destruct (Hparts p Hp) as (H1 & H2 & a & b & Hab).
    split; [done|]. split; [done|]. exists a, (b ++ String ch "")%string.
    rewrite Hab. by rewrite <- !append_assoc. }
  destruct (splitStep_shape st ch) as [[Hp Hc]|[Hc Hp]]; split.
  - exists pre. rewrite Hc, Hpre. unfold pushCh. by rewrite append_assoc.
  - rewrite Hp. exact Hold.
  - exists (consumed ++ String ch "")%string. rewrite Hc. by rewrite append_empty_r.
  - rewrite Hp. destruct (Js.truthy (Js.trim (current st))) eqn:E; [|exact Hold].
    intros p Hin. apply elem_of_app in Hin as [Hin|Hin]; [by apply Hold|].
    apply list_elem_of_singleton in Hin. subst p.
    apply truthy_true in E.
    destruct (trimmed_part consumed pre (current st) Hpre E) as (H1 & H2 & a & b & Hab).
    split; [done|]. split; [done|]. exists a, (b ++ String ch "")%string.
    rewrite Hab. by rewrite <- !append_assoc.
Qed.

Lemma splitRun_ok s : forall consumed st,
  PartsOk consumed st -> PartsOk (consumed ++ s) (splitRun st s).
Proof.
  induction s as [|ch s IH]; intros consumed st H; cbn [splitRun].
  - by rewrite append_empty_r.
  - replace (consumed ++ String ch s)%string
      with ((consumed ++ String ch "") ++ s)%string
      by (by rewrite <- append_assoc).
    apply IH. by apply splitStep_ok.
Qed.

Lemma countStep_le st ch :
  commas (countStep st ch) <= commas st + (if Chars.isC "," ch then 1 else 0).
Proof.
  destruct st as [n dp dk db sq dq esc]. unfold countStep. cbn [commas].
  destruct (sq || dq).
  - destruct esc; cbn; [lia|]. destruct (Chars.isC "\" ch); cbn; lia.
  - destruct (Chars.isC "'" ch); cbn; [lia|].
    destruct (Chars.isC "034" ch); cbn; [lia|].
    destruct (Chars.isC "," ch); cbn; [|lia].
    match goal with |- context [if ?c then _ else _] => destruct c end; cbn; lia.
Qed.

Lemma countRun_le s : forall st,
  commas (countRun st s) <= commas st + countUnits (Chars.isC ",") s.
Proof.
  induction s as [|ch s IH]; intros st; cbn [countRun countUnits]; [lia|].
  pose proof (IH (countStep st ch)). pose proof (countStep_le st ch). lia.
Qed.

Lemma countStep_neutral st ch :
  Neutral st -> nesting ch = false ->
  Neutral (countStep st ch)
  /\ commas (countStep st ch) = commas st + (if Chars.isC "," ch then 1 else 0).
Proof.
  destruct st as [n dp dk db sq dq esc]. unfold Neutral, nesting.
  cbn [c_depthParen c_depthBracket c_depthBrace c_inSingle c_inDouble commas].
  intros (-> & -> & -> & -> & ->) Hn.
  repeat (apply orb_false_iff in Hn as [Hn ?]).
  unfold countStep. cbn [orb].
  repeat match goal with H : Chars.isC _ ch = false |- _ => rewrite H; clear H end.
  cbn. destruct (Chars.isC "," ch); cbn; (split; [by repeat split | lia]).
Qed.

Lemma countRun_neutral s : forall st,
  Neutral st -> countUnits nesting s = 0 ->
  commas (countRun st s) = commas st + countUnits (Chars.isC ",") s.
Proof.
  induction s as [|ch s IH]; intros st Hst Hs; cbn [countRun countUnits] in *; [lia|].
  destruct (nesting ch) eqn:E; [lia|].
  destruct (countStep_neutral st ch Hst E) as [Hn Hc].
  rewrite (IH _ Hn) by lia. lia.
Qed.

End SplitFacts.

Module Parameters.
Import Scanner Calls CallsSpec TrimFacts SplitFacts.

(** X4. [splitPhpParameters] never returns more parts than
    [countPhpActiveParameter] counts commas, plus one: both scans skip the
    same commas, those inside quotes and brackets. *)
Theorem parts_within_comma_count (s : string) :
  List.length (splitPhpParameters s) <= countPhpActiveParameter s + 1.
Proof.
  unfold splitPhpParameters, countPhpActiveParameter. cbn zeta.
  pose proof (runs_in_step s (mkSplit [] "" 0 0 0 false false false)
                (mkCount 0 0 0 0 false false false)) as H.
  cbn [parts commas List.length] in H.
  assert (Hle : List.length
                  (parts (splitRun (mkSplit [] "" 0 0 0 false false false) s))
                <= commas (countRun (mkCount 0 0 0 0 false false false) s)).
  { apply H; [by repeat split | lia]. }
  destruct (Js.truthy _); [rewrite length_app; cbn; lia | lia].
Qed.

(** X5. Every part [splitPhpParameters] returns is non-empty, has no white
    space at either end, and stands in the parameter list as it is. *)
Theorem parts_trimmed_substrings (s p : string) :
  p ∈ splitPhpParameters s ->
  p <> "" /\ Js.trim p = p /\ exists a b, s = (a ++ p ++ b)%string.
Proof.
  unfold splitPhpParameters. cbn zeta.
  pose proof (splitRun_ok s "" (mkSplit [] "" 0 0 0 false false false)) as H.
  change ("" ++ s)%string with s in H.
  destruct H as [[pre Hpre] Hparts].
  { split; [by exists ""|]. intros q Hq. by apply elem_of_nil in Hq. }
  destruct (Js.truthy _) eqn:E; [|apply Hparts].
  intros Hin. apply elem_of_app in Hin as [Hin|Hin]; [by apply Hparts|].
  apply list_elem_of_singleton in Hin. subst p.
  apply truthy_true in E. by apply (trimmed_part s pre).
Qed.

(** X6. [countPhpActiveParameter] never counts more than the commas of the
    text, and counts them all when the text holds no quote and no bracket. *)
Theorem active_parameter_bounds (s : string) :
  countPhpActiveParameter s <= countUnits (Chars.isC ",") s
  /\ (countUnits nesting s = 0 ->
      countPhpActiveParameter s = countUnits (Chars.isC ",") s).
Proof.
  unfold countPhpActiveParameter. split.
  - pose proof (countRun_le s (mkCount 0 0 0 0 false false false)) as H.
    cbn [commas] in H. lia.
  - intros Hplain.
    rewrite (countRun_neutral s (mkCount 0 0 0 0 false false false)); [done | | done].
    by repeat split.
Qed.

End Parameters.

(** ** Further properties of the symbol index *)

Module IndexFacts2.
Import Extractor Index IndexSpec IndexInvariant IndexFacts ExtractorFacts MembersSpec.

Lemma filter_idem {A} (f : A -> bool) l :
  List.filter f (List.filter f l) = List.filter f l.
Proof.
  induction l as [|x l IH]; [done|]. cbn [List.filter].
  destruct (f x) eqn:E; [|done]. cbn [List.filter]. by rewrite E, IH.
Qed.

Lemma filter_all {A} (f : A -> bool) l :
  (forall x, In x l -> f x = true) -> List.filter f l = l.
Proof.
  induction l as [|x l IH]; intros H; [done|]. cbn [List.filter].
  rewrite (H x) by (by left). f_equal. apply IH. intros y Hy. apply H. by right.
Qed.

Lemma filter_none {A} (f : A -> bool) l :
  (forall x, In x l -> f x = false) -> List.filter f l = [].
Proof.
  induction l as [|x l IH]; intros H; [done|]. cbn [List.filter].
  rewrite (H x) by (by left). apply IH. intros y Hy. apply H. by right.
Qed.

Lemma kept_idem u o : kept u (kept u o) = kept u o.
Proof.
  destruct o as [l|]; [|done]. cbn [kept].
  destruct (List.filter (notFrom u) l) as [|x l'] eqn:E; [done|].
  cbn [kept]. rewrite <- E, filter_idem. by rewrite E.
Qed.

Lemma kept_never_empty u o : kept u o <> Some [].
Proof.
  destruct o as [l|]; [|done]. cbn [kept].
  by destruct (List.filter (notFrom u) l).
Qed.

Lemma kept_listed u o : default [] (kept u o) = List.filter (notFrom u) (default [] o).
Proof.
  destruct o as [l|]; [|done]. change (default [] (Some l)) with l. cbn [kept].
  destruct (List.filter (notFrom u) l); reflexivity.
Qed.

Lemma kept_filter u o :
  List.filter (notFrom u) (default [] (kept u o))
  = List.filter (notFrom u) (default [] o).
Proof.
  by rewrite kept_listed, filter_idem.
Qed.

Lemma kept_elem u o loc :
  loc ∈ default [] (kept u o) <-> loc ∈ default [] o /\ loc_uri loc <> u.
Proof.
  rewrite kept_listed, !list_elem_of_In, List.filter_In, notFrom_true. done.
Qed.

(** what the retraction of a file leaves under each key *)
Lemma retractAll_lookup u keys m k :
  retractAll u keys m !! k = if bool_decide (k ∈ keys) then kept u (m !! k) else m !! k.
Proof.
  revert m. induction keys as [|k0 keys IH]; intros m; cbn [retractAll fold_left].
  - by rewrite bool_decide_eq_false_2 by apply not_elem_of_nil.
  - change (fold_left _ keys (retain (notFrom u) k0 m))
      with (retractAll u keys (retain (notFrom u) k0 m)).
    rewrite IH. destruct (decide (k = k0)) as [->|Hne].
    + rewrite (bool_decide_eq_true_2 (k0 ∈ k0 :: keys)) by (apply elem_of_cons; auto).
      rewrite retain_lookup_eq. fold (kept u (m !! k0)).
      case_bool_decide; [apply kept_idem | done].
    + rewrite retain_lookup_ne by done.
      case_bool_decide as H1; case_bool_decide as H2; try done.
      * exfalso. apply H2, elem_of_cons. auto.
      * exfalso. apply elem_of_cons in H2 as [|]; done.
Qed.

(** what the insertion of the symbols leaves under each key *)
Lemma insertAll_lookup symbols m k :
  insertAll symbols m !! k
  = match locsOf k symbols with
    | [] => m !! k
    | l => Some (default [] (m !! k) ++ l)
    end.
Proof.
  revert m. induction symbols as [|s symbols IH]; intros m; [done|].
  unfold insertAll. cbn [fold_left].
  change (fold_left _ symbols ?x) with (insertAll symbols x).
  rewrite IH. unfold locsOf. cbn [List.filter].
  destruct (Js.truthy (key s)) eqn:Et; cbn [andb]; [|done].
  destruct (String.eqb (key s) k) eqn:Ek.
  - apply String.eqb_eq in Ek. subst k. rewrite pushAt_lookup_eq.
    cbn [List.map from_option id].
    destruct (List.map location _) as [|x l]; [done|].
    by rewrite <- app_assoc.
  - apply String.eqb_neq in Ek. by rewrite pushAt_lookup_ne.
Qed.

Lemma insertAll_listed symbols m k :
  default [] (insertAll symbols m !! k) = default [] (m !! k) ++ locsOf k symbols.
Proof.
  rewrite insertAll_lookup. destruct (locsOf k symbols); [by rewrite app_nil_r | done].
Qed.

Lemma locsOf_elem k symbols loc :
  loc ∈ locsOf k symbols <->
  exists s, s ∈ symbols /\ key s = k /\ k <> "" /\ location s = loc.
Proof.
  unfold locsOf. rewrite list_elem_of_In, in_map_iff. split.
  - intros (s & <- & Hs). apply List.filter_In in Hs as [Hs Hc].
    apply andb_true_iff in Hc as [Ht Hk]. apply String.eqb_eq in Hk.
    apply truthy_true in Ht. exists s. rewrite list_elem_of_In. subst. auto.
  - intros (s & Hs & <- & Hne & <-). exists s. split; [done|].
    apply List.filter_In. split; [by apply list_elem_of_In|].
    apply andb_true_iff. split; [by apply truthy_true | apply String.eqb_refl].
Qed.

Lemma locsOf_from d k loc :
  loc ∈ locsOf k (extractPhpSymbolsFromDocument d) -> loc_uri loc = uri d.
Proof.
  intros H. apply locsOf_elem in H as (s & Hs & _ & _ & <-).
  pose proof (extract_from d) as HF. rewrite Forall_forall in HF. by apply HF.
Qed.

Lemma locsOf_keys d k :
  locsOf k (extractPhpSymbolsFromDocument d) <> [] <-> k ∈ fileKeys d.
Proof.
  rewrite fileKeys_elem. split.
  - intros H. destruct (locsOf k _) as [|loc l] eqn:E; [done|].
    assert (Hin : loc ∈ locsOf k (extractPhpSymbolsFromDocument d))
      by (rewrite E; apply list_elem_of_here).
    apply locsOf_elem in Hin as (s & Hs & Hk & Hne & _). eauto.
  - intros (s & Hs & Hk & Hne) E.
    assert (Hin : location s ∈ locsOf k (extractPhpSymbolsFromDocument d))
      by (apply locsOf_elem; eauto).
    rewrite E in Hin. by apply elem_of_nil in Hin.
Qed.

Lemma filter_locsOf d k :
  List.filter (notFrom (uri d)) (locsOf k (extractPhpSymbolsFromDocument d)) = [].
Proof.
  apply filter_none. intros loc Hloc. apply list_elem_of_In, locsOf_from in Hloc.
  unfold notFrom. rewrite Hloc, String.eqb_refl. done.
Qed.

Lemma without_filter u m k : Without u m -> List.filter (notFrom u) (default [] (m !! k))
                                            = default [] (m !! k).
Proof.
  intros H. apply filter_all. intros loc Hloc. apply notFrom_true.
  apply (H k). by apply list_elem_of_In.
Qed.

(** retracting a file right after its symbols were inserted gives back the
    index, when the index held nothing of the file *)
Lemma retract_insert_cancel d m :
  NoEmpty m -> Without (uri d) m ->
  retractAll (uri d) (fileKeys d) (insertAll (extractPhpSymbolsFromDocument d) m) = m.
Proof.
  intros Hne Hwo. apply map_eq. intros k.
  rewrite retractAll_lookup, insertAll_lookup.
  pose proof (locsOf_keys d k) as Hk.
  case_bool_decide as Hin.
  - destruct (locsOf k (extractPhpSymbolsFromDocument d)) as [|x l] eqn:E.
    { exfalso. by apply Hk in Hin. }
    cbn [kept]. rewrite <- E, List.filter_app, filter_locsOf, app_nil_r.
    rewrite (without_filter _ _ _ Hwo).
    destruct (m !! k) as [[|y l0]|] eqn:Em; cbn [default]; try done.
    by destruct (Hne k).
  - destruct (locsOf k (extractPhpSymbolsFromDocument d)) as [|x l] eqn:E; [done|].
    exfalso. apply Hin, Hk. done.
Qed.

Lemma tracked_without st u :
  Tracked st -> phpWorkspaceIndexKeysByUri st !! u = None ->
  Without u (phpWorkspaceIndex st).
Proof.
  intros Ht Hu k loc Hloc Huri. destruct (Ht k loc Hloc) as (keys & Hk & _).
  rewrite Huri in Hk. congruence.
Qed.

Lemma delete_keys u st :
  phpWorkspaceIndexKeysByUri (deletePhpIndexForUri u st)
  = delete u (phpWorkspaceIndexKeysByUri st).
Proof.
  unfold deletePhpIndexForUri.
  destruct (phpWorkspaceIndexKeysByUri st !! u) eqn:E.
  - cbn. by rewrite fold_retract_keys.
  - symmetry. by apply delete_id.
Qed.

Lemma update_keys d st :
  languageId d = "php" ->
  phpWorkspaceIndexKeysByUri (updatePhpIndexForDocument d st)
  = match fileKeys d with
    | [] => delete (uri d) (phpWorkspaceIndexKeysByUri st)
    | ks => <[uri d := ks]> (delete (uri d) (phpWorkspaceIndexKeysByUri st))
    end.
Proof.
  intros Hphp. rewrite update_unfold by done. cbn.
  rewrite fold_insert_keys, fold_insert_keysByUri, delete_keys. fold (fileKeys d).
  by destruct (fileKeys d).
Qed.

Lemma noEmpty_delete u st :
  NoEmpty (phpWorkspaceIndex st) -> NoEmpty (phpWorkspaceIndex (deletePhpIndexForUri u st)).
Proof.
  intros H k. rewrite delete_index.
  destruct (phpWorkspaceIndexKeysByUri st !! u); [|apply H].
  rewrite retractAll_lookup. case_bool_decide; [apply kept_never_empty | apply H].
Qed.

Lemma tracked_delete u st : Tracked st -> Tracked (deletePhpIndexForUri u st).
Proof.
  intros Ht k loc. unfold lookup. rewrite delete_index, delete_keys.
  destruct (phpWorkspaceIndexKeysByUri st !! u) as [keys0|] eqn:Eu.
  - rewrite retractAll_lookup. case_bool_decide as Hin.
    + rewrite kept_elem. intros [Hloc Hne].
      destruct (Ht k loc Hloc) as (keys & Hk & Hkin).
      exists keys. by rewrite lookup_delete_ne.
    + intros Hloc. destruct (Ht k loc Hloc) as (keys & Hk & Hkin).
      exists keys. split; [|done]. rewrite lookup_delete_ne; [done|].
      intros Heq. rewrite <- Heq, Eu in Hk. congruence.
  - intros Hloc. destruct (Ht k loc Hloc) as (keys & Hk & Hkin).
    exists keys. split; [|done]. rewrite lookup_delete_ne; [done|].
    intros Heq. rewrite <- Heq, Eu in Hk. congruence.
Qed.

Lemma without_delete u st :
  Tracked st -> Without u (phpWorkspaceIndex (deletePhpIndexForUri u st)).
Proof.
  intros Ht. apply tracked_without; [by apply tracked_delete | apply delete_keys_lookup].
Qed.

Lemma noEmpty_insertAll symbols m : NoEmpty m -> NoEmpty (insertAll symbols m).
Proof.
  intros H k. rewrite insertAll_lookup.
  destruct (locsOf k symbols) as [|x l]; [apply H|].
  intros [= E]. by destruct (default [] (m !! k)).
Qed.

Lemma noEmpty_update d st :
  NoEmpty (phpWorkspaceIndex st) -> NoEmpty (phpWorkspaceIndex (updatePhpIndexForDocument d st)).
Proof.
  intros H. destruct (String.eqb (languageId d) "php") eqn:E.
  - apply String.eqb_eq in E. rewrite update_index by done.
    by apply noEmpty_insertAll, noEmpty_delete.
  - unfold updatePhpIndexForDocument. by rewrite E.
Qed.

Lemma tracked_update d st : Tracked st -> Tracked (updatePhpIndexForDocument d st).
Proof.
  intros Ht. destruct (String.eqb (languageId d) "php") eqn:E;
    [|unfold updatePhpIndexForDocument; by rewrite E].
  apply String.eqb_eq in E. intros k loc. unfold lookup.
  rewrite update_index, update_keys by done. rewrite insertAll_listed.
  rewrite elem_of_app. intros [Hloc|Hloc].
  - pose proof (tracked_delete (uri d) st Ht k loc Hloc) as (keys & Hk & Hkin).
    rewrite delete_keys in Hk.
    assert (Hne : loc_uri loc <> uri d).
    { intros Heq. rewrite Heq, lookup_delete_eq in Hk. congruence. }
    exists keys. split; [|done].
    destruct (fileKeys d); [done | by rewrite lookup_insert_ne].
  - pose proof (locsOf_from d k loc Hloc) as Hu.
    assert (Hk : k ∈ fileKeys d).
    { apply locsOf_keys. intros E0. rewrite E0 in Hloc. by apply elem_of_nil in Hloc. }
    exists (fileKeys d). split; [|done]. rewrite Hu.
    destruct (fileKeys d) as [|k0 ks] eqn:Ek; [by apply elem_of_nil in Hk|].
    by rewrite lookup_insert_eq.
Qed.

Lemma members_index c st :
  phpWorkspaceIndex (snd (getPhpMembersForClass c st)) = phpWorkspaceIndex st
  /\ phpWorkspaceIndexKeysByUri (snd (getPhpMembersForClass c st))
     = phpWorkspaceIndexKeysByUri st.
Proof.
  unfold getPhpMembersForClass. destruct (negb _); [done|]. cbn zeta.
  destruct (phpWorkspaceMembersCache st !! _) as [e|]; [|done].
  by destruct (_ =? _)%Z.
Qed.

Lemma reachable_invariant st :
  Reachable st -> NoEmpty (phpWorkspaceIndex st) /\ Tracked st.
Proof.
  induction 1 as [|d st _ [IH1 IH2]|u st _ [IH1 IH2]|c st _ [IH1 IH2]].
  - split.
    + intros k. change (phpWorkspaceIndex Index.initial) with (∅ : gmap string (list Location)).
      by rewrite lookup_empty.
    + intros k loc Hloc. unfold lookup in Hloc.
      change (phpWorkspaceIndex Index.initial) with (∅ : gmap string (list Location)) in Hloc.
      rewrite lookup_empty in Hloc. by apply elem_of_nil in Hloc.
  - split; [by apply noEmpty_update | by apply tracked_update].
  - split; [by apply noEmpty_delete | by apply tracked_delete].
  - destruct (members_index c st) as [Hi Hk].
    split; [by rewrite Hi|].
    intros k loc. unfold lookup. rewrite Hi, Hk. apply IH2.
Qed.

(** the locations of other files under a key are what they were *)
Lemma delete_others u st k :
  List.filter (notFrom u) (lookup k (deletePhpIndexForUri u st))
  = List.filter (notFrom u) (lookup k st).
Proof.
  unfold lookup. rewrite delete_index.
  destruct (phpWorkspaceIndexKeysByUri st !! u); [|done].
  rewrite retractAll_lookup. case_bool_decide; [apply kept_filter | done].
Qed.

Lemma update_others d st k :
  List.filter (notFrom (uri d)) (lookup k (updatePhpIndexForDocument d st))
  = List.filter (notFrom (uri d)) (lookup k st).
Proof.
  destruct (String.eqb (languageId d) "php") eqn:E;
    [|unfold updatePhpIndexForDocument; by rewrite E].
  apply String.eqb_eq in E. unfold lookup. rewrite update_index by done.
  rewrite insertAll_listed, List.filter_app, filter_locsOf, app_nil_r.
  apply delete_others.
Qed.

End IndexFacts2.

Module IndexLaws.
Import Extractor Index IndexSpec IndexInvariant IndexFacts ExtractorFacts MembersSpec
       IndexFacts2 Resolver.

(** X7. Indexing a document, or deleting a file, leaves the locations that
    other files have under every key as they were, in their order. *)
Theorem other_files_untouched (st : State) (d : Document) (u k : string) :
  List.filter (notFrom (uri d)) (lookup k (updatePhpIndexForDocument d st))
  = List.filter (notFrom (uri d)) (lookup k st)
  /\ List.filter (notFrom u) (lookup k (deletePhpIndexForUri u st))
     = List.filter (notFrom u) (lookup k st).
Proof. split; [apply update_others | apply delete_others]. Qed.

(** X8. In every state the index operations can reach, no key maps to an
    empty list of locations, and every location listed under a key belongs
    to a file whose recorded key set holds that key. *)
Theorem reachable_index_consistent (st : State) :
  Reachable st ->
  (forall k, phpWorkspaceIndex st !! k <> Some [])
  /\ (forall k loc, loc ∈ lookup k st ->
        exists keys, phpWorkspaceIndexKeysByUri st !! loc_uri loc = Some keys
                     /\ k ∈ keys).
Proof. apply reachable_invariant. Qed.

(** X9. In every state the index operations can reach, deleting a file
    leaves no location of that file under any key, and no key set for it. *)
Theorem delete_removes_file (st : State) (u : string) :
  Reachable st ->
  (forall k loc, loc ∈ lookup k (deletePhpIndexForUri u st) -> loc_uri loc <> u)
  /\ phpWorkspaceIndexKeysByUri (deletePhpIndexForUri u st) !! u = None.
Proof.
  intros Hr. split; [|apply delete_keys_lookup].
  destruct (reachable_invariant st Hr) as [_ Ht].
  intros k loc. apply (without_delete u st Ht k loc).
Qed.

(** X10. In every state the index operations can reach, indexing a file
    the index does not know and deleting it again gives back the map from
    keys to locations. *)
Theorem index_then_delete_restores (st : State) (d : Document) :
  Reachable st ->
  phpWorkspaceIndexKeysByUri st !! uri d = None ->
  phpWorkspaceIndex (deletePhpIndexForUri (uri d) (updatePhpIndexForDocument d st))
  = phpWorkspaceIndex st.
Proof.
  intros Hr Hu. destruct (reachable_invariant st Hr) as [Hne Ht].
  pose proof (tracked_without st (uri d) Ht Hu) as Hwo.
  assert (Hdel : deletePhpIndexForUri (uri d) st = st).
  { unfold deletePhpIndexForUri. by rewrite Hu. }
  destruct (String.eqb (languageId d) "php") eqn:E.
  - apply String.eqb_eq in E.
    rewrite delete_index, update_keys_lookup, update_index, Hdel by done.
    pose proof (retract_insert_cancel d (phpWorkspaceIndex st) Hne Hwo) as Hc.
    destruct (fileKeys d) as [|k0 ks] eqn:Ek; [|exact Hc].
    exact Hc.
  - unfold updatePhpIndexForDocument. rewrite E. cbn [negb]. by rewrite Hdel.
Qed.

(** X11. In every state the index operations can reach, indexing a
    document a second time changes neither the map from keys to locations
    nor the recorded key sets. *)
Theorem reindex_changes_nothing (st : State) (d : Document) :
  Reachable st ->
  let st1 := updatePhpIndexForDocument d st in
  phpWorkspaceIndex (updatePhpIndexForDocument d st1) = phpWorkspaceIndex st1
  /\ phpWorkspaceIndexKeysByUri (updatePhpIndexForDocument d st1)
     = phpWorkspaceIndexKeysByUri st1.
Proof.
  intros Hr st1.
  destruct (String.eqb (languageId d) "php") eqn:E;
    [|unfold st1, updatePhpIndexForDocument; by rewrite E].
  apply String.eqb_eq in E.
  destruct (reachable_invariant st Hr) as [Hne Ht].
  pose proof (noEmpty_delete (uri d) st Hne) as Hne0.
  pose proof (without_delete (uri d) st Ht) as Hwo0.
  pose proof (retract_insert_cancel d _ Hne0 Hwo0) as Hc.
  assert (Hidx : phpWorkspaceIndex (deletePhpIndexForUri (uri d) st1)
                 = phpWorkspaceIndex (deletePhpIndexForUri (uri d) st)).
  { rewrite (delete_index (uri d) st1). unfold st1.
    rewrite update_keys_lookup, update_index by done.
    by destruct (fileKeys d). }
  split.
  - rewrite (update_index d st1) by done. rewrite Hidx.
    unfold st1. by rewrite update_index.
  - rewrite (update_keys d st1) by done. unfold st1 at 2. rewrite update_keys by done.
    unfold st1. rewrite update_keys by done.
    destruct (fileKeys d) as [|k0 ks].
    + apply map_eq. intros v. destruct (decide (v = uri d)) as [->|Hv].
      * by rewrite !lookup_delete_eq.
      * by rewrite !lookup_delete_ne.
    + apply map_eq. intros v. destruct (decide (v = uri d)) as [->|Hv].
      * by rewrite !lookup_insert_eq.
      * repeat first [rewrite lookup_insert_ne by done | rewrite lookup_delete_ne by done].
        done.
Qed.

Lemma kept_by_others files : forall st k loc,
  loc ∈ lookup k st ->
  (forall d', d' ∈ opened files -> uri d' <> loc_uri loc) ->
  loc ∈ lookup k (ensurePhpWorkspaceIndex files st).
Proof.
  induction files as [|f files IH]; intros st k loc Hloc Hothers; [done|].
  unfold ensurePhpWorkspaceIndex. cbn [fold_left].
  destruct f as [d'|].
  - apply IH.
    + assert (Hne : uri d' <> loc_uri loc).
      { apply Hothers. unfold opened. cbn. apply elem_of_cons. auto. }
      assert (Hin : In loc (List.filter (notFrom (uri d')) (lookup k st))).
      { apply List.filter_In. split; [by apply list_elem_of_In|].
        apply notFrom_true. congruence. }
      rewrite <- update_others in Hin. apply List.filter_In in Hin as [Hin _].
      by apply list_elem_of_In.
    + intros d'' Hd''. apply Hothers. unfold opened. cbn. apply elem_of_cons. auto.
  - apply IH; [done|]. intros d'' Hd''. apply Hothers. done.
Qed.

(** X12. After [ensurePhpWorkspaceIndex] has gone through files with
    pairwise distinct URIs, every symbol of every PHP file among them is
    listed under its key with its location, whatever the index held before. *)
Theorem workspace_build_lists_symbols
  (files : list (option Document)) (st : State) (d : Document) (s : Symbol) :
  NoDup (List.map uri (opened files)) ->
  Some d ∈ files ->
  languageId d = "php" ->
  s ∈ extractPhpSymbolsFromDocument d ->
  location s ∈ lookup (key s) (ensurePhpWorkspaceIndex files st).
Proof.
  intros Hnd Hd Hphp Hs. revert st Hnd Hd.
  induction files as [|f files IH]; intros st Hnd Hd; [by apply elem_of_nil in Hd|].
  assert (Hstep : ensurePhpWorkspaceIndex (f :: files) st
                  = ensurePhpWorkspaceIndex files
                      (match f with
                       | Some doc => updatePhpIndexForDocument doc st
                       | None => st
                       end)) by done.
  rewrite Hstep. clear Hstep.
  destruct f as [d'|].
  - unfold opened in Hnd. cbn in Hnd. apply NoDup_cons in Hnd as [Hnotin Hnd].
    apply elem_of_cons in Hd as [Heq|Hd]; [|by apply IH].
    injection Heq as <-.
    apply kept_by_others.
    + unfold lookup. rewrite update_index by done. apply insertAll_elem; [done|].
      pose proof (extract_keyed d) as HK. rewrite Forall_forall in HK. by apply HK.
    + intros d'' Hd''. pose proof (extract_from d) as HF.
      rewrite Forall_forall in HF. rewrite (HF s Hs).
      intros Heq. apply Hnotin. rewrite <- Heq.
      apply list_elem_of_In, in_map, list_elem_of_In. done.
  - apply IH; [done|]. apply elem_of_cons in Hd as [Hd|Hd]; [done | done].
Qed.

End IndexLaws.

(** ** Further properties of the member lists *)

Module MembersFacts2.
Import Re Scanner Extractor Index IndexSpec MembersSpec MembersInvariant IndexFacts
       MembersFacts CacheFacts.

Lemma setAdd_nodup k s : NoDup s -> NoDup (setAdd k s).
Proof.
  intros H. unfold setAdd. case_bool_decide as Hin; [done|].
  apply NoDup_app. split; [done|]. split; [|apply NoDup_singleton].
  intros x Hx Hx'. apply list_elem_of_singleton in Hx'. by subst.
Qed.

Lemma insertSorted_nodup x l : x ∉ l -> NoDup l -> NoDup (insertSorted x l).
Proof.
  induction l as [|y l IH]; intros Hx Hl; cbn [insertSorted].
  - apply NoDup_singleton.
  - destruct (String.leb x y); [by apply NoDup_cons|].
    apply NoDup_cons in Hl as [Hy Hl]. apply not_elem_of_cons in Hx as [Hxy Hx].
    apply NoDup_cons. split; [|by apply IH].
    rewrite insertSorted_elem. intros [->|H]; done.
Qed.

Lemma sortNames_nodup l : NoDup l -> NoDup (sortNames l).
Proof.
  induction l as [|x l IH]; intros H; cbn [sortNames fold_right]; [constructor|].
  apply NoDup_cons in H as [Hx Hl].
  apply insertSorted_nodup; [|by apply IH].
  fold (sortNames l). by rewrite sortNames_elem.
Qed.

Lemma scanKey_distinct ck cn acc key : Distinct acc -> Distinct (scanKey ck cn acc key).
Proof.
  destruct acc as [ms ps cs]. unfold Distinct, scanKey.
  cbn [methods properties constants]. intros (Hm & Hp & Hc).
  repeat match goal with
         | |- context [if ?b then _ else _] => destruct b
         end;
    cbn [methods properties constants];
    repeat split; auto using setAdd_nodup.
Qed.

Lemma fold_scanKey_distinct ck cn keys acc :
  Distinct acc -> Distinct (fold_left (scanKey ck cn) keys acc).
Proof.
  revert acc. induction keys as [|k keys IH]; intros acc H; cbn [fold_left]; [done|].
  by apply IH, scanKey_distinct.
Qed.

Lemma computeMembers_distinct ck index : Distinct (computeMembers ck index).
Proof.
  unfold computeMembers. cbn zeta.
  destruct (fold_scanKey_distinct ck (Js.pop (Js.split "\" ck))
              (List.map fst (map_to_list index)) (mkMembers [] [] []))
    as (Hm & Hp & Hc).
  { repeat split; constructor. }
  repeat split; by apply sortNames_nodup.
Qed.

End MembersFacts2.

Module MemberLists.
Import Re Scanner Extractor Index IndexSpec MembersSpec MembersInvariant IndexFacts
       MembersFacts CacheFacts MembersFacts2.

(** X13. In every state the index operations can reach, none of the three
    lists [getPhpMembersForClass] returns names a member twice, although a
    member is indexed under several keys. *)
Theorem members_listed_once (st : State) (c : string) :
  Reachable st ->
  let members := fst (getPhpMembersForClass c st) in
  NoDup (methods members) /\ NoDup (properties members) /\ NoDup (constants members).
Proof.
  intros Hr members. unfold members.
  destruct (string_dec (stripLeadingBackslashes c) "") as [E|E].
  - rewrite (members_empty c st E). repeat split; constructor.
  - rewrite (members_fresh c st (reachable_cacheOk st Hr) E).
    apply computeMembers_distinct.
Qed.

(** X14. A second call of [getPhpMembersForClass] for the same class, with
    no index operation in between, returns the same members and leaves the
    state as the first call left it. *)
Theorem members_call_repeatable (st : State) (c : string) :
  getPhpMembersForClass c (snd (getPhpMembersForClass c st))
  = getPhpMembersForClass c st.
Proof.
  set (ck := stripLeadingBackslashes c).
  assert (Hunfold : forall s,
            getPhpMembersForClass c s
            = if negb (Js.truthy ck) then (mkMembers [] [] [], s)
              else match phpWorkspaceMembersCache s !! ck with
                   | Some e =>
                       if (cached_version e =? phpWorkspaceIndexVersion s)%Z
                       then (cached_value e, s)
                       else (computeMembers ck (phpWorkspaceIndex s),
                             storeMembers ck (computeMembers ck (phpWorkspaceIndex s)) s)
                   | None =>
                       (computeMembers ck (phpWorkspaceIndex s),
                        storeMembers ck (computeMembers ck (phpWorkspaceIndex s)) s)
                   end) by reflexivity.
  assert (Hstored : forall s,
            negb (Js.truthy ck) = false ->
            getPhpMembersForClass c
              (storeMembers ck (computeMembers ck (phpWorkspaceIndex s)) s)
            = (computeMembers ck (phpWorkspaceIndex s),
               storeMembers ck (computeMembers ck (phpWorkspaceIndex s)) s)).
  { intros s Hk. rewrite Hunfold, Hk. unfold storeMembers at 1.
    cbn [phpWorkspaceMembersCache phpWorkspaceIndexVersion].
    rewrite lookup_insert_eq. cbn [cached_version cached_value].
    by rewrite Z.eqb_refl. }
  rewrite (Hunfold st).
  destruct (negb (Js.truthy ck)) eqn:Ek; cbn [snd].
  - by rewrite Hunfold.
  - destruct (phpWorkspaceMembersCache st !! ck) as [e|] eqn:Ec.
    + destruct (cached_version e =? phpWorkspaceIndexVersion st)%Z eqn:Ev; cbn [snd].
      * by rewrite Hunfold, Ec, Ev.
      * by apply Hstored.
    + cbn [snd]. by apply Hstored.
Qed.

End MemberLists.

(** ** Further properties of the reference index *)

Module ReferenceFacts2.
Import Re Scanner Extractor Index References ReferencesSpec IndexFacts ReferenceFacts.

Lemma scanLoop_bound pushes w ms : forall results,
  (forall m, List.length (pushes m) <= w) ->
  List.length (scanLoop pushes ms results)
  <= Nat.max (List.length results) (cap - 1) + w.
Proof.
  induction ms as [|m ms IH]; intros results Hw; cbn [scanLoop]; [lia|].
  pose proof (Hw m) as Hm.
  destruct (pushes m) as [|r new] eqn:E; [by apply IH|].
  destruct (cap <=? List.length (results ++ r :: new))%nat eqn:Ec.
  - rewrite length_app. lia.
  - apply Nat.leb_gt in Ec. etransitivity; [by apply IH|].
    rewrite length_app in Ec |- *. lia.
Qed.

Lemma scanLoop_all (P : Reference -> Prop) pushes ms : forall results,
  (forall m, Forall P (pushes m)) -> Forall P results ->
  Forall P (scanLoop pushes ms results).
Proof.
  induction ms as [|m ms IH]; intros results Hp Hr; cbn [scanLoop]; [done|].
  pose proof (Hp m) as Hm.
  destruct (pushes m) as [|r new] eqn:E; [by apply IH|].
  assert (Hall : Forall P (results ++ r :: new)) by (by apply Forall_app).
  destruct (cap <=? List.length (results ++ r :: new))%nat; [done | by apply IH].
Qed.

End ReferenceFacts2.

Module ReferenceLaws.
Import Re Scanner Extractor Index References ReferencesSpec IndexFacts ReferenceFacts
       ReferenceFacts2.

(** X15. [extractPhpReferencesFromDocument] returns at most 5003
    references, each with a location in the document: a loop is left once
    a push has brought the results to 5000, and each of the two later loops
    can still push once. *)
Theorem references_bounded (d : Document) :
  List.length (extractPhpReferencesFromDocument d) <= cap + 3
  /\ Forall (fun r => loc_uri (ref_location r) = uri d)
            (extractPhpReferencesFromDocument d).
Proof.
  unfold extractPhpReferencesFromDocument. cbn zeta. split.
  - set (r1 := scanLoop (staticRefs d) _ []).
    set (r2 := scanLoop (methodRefs d) _ r1).
    assert (H1 : List.length r1 <= Nat.max 0 (cap - 1) + 2).
    { apply (scanLoop_bound (staticRefs d) 2). intros m. unfold staticRefs.
      destruct (Js.truthy _); cbn; lia. }
    assert (H2 : List.length r2 <= Nat.max (List.length r1) (cap - 1) + 1).
    { apply (scanLoop_bound (methodRefs d) 1). intros m. cbn. lia. }
    etransitivity; [apply (scanLoop_bound (fnRefs d) 1)|].
    + intros m. unfold fnRefs. cbn zeta.
      repeat match goal with
             | |- context [if ?b then _ else _] => destruct b
             end; cbn; lia.
    + fold r1 r2. unfold cap in *. lia.
  - apply scanLoop_all; [|apply scanLoop_all; [|apply scanLoop_all; [|constructor]]];
      intros m.
    + unfold fnRefs. cbn zeta.
      repeat match goal with
             | |- context [if ?b then _ else _] => destruct b
             end; repeat constructor.
    + repeat constructor.
    + unfold staticRefs. destruct (Js.truthy _); repeat constructor.
Qed.

(** X16. The list [resolvePhpReferenceLocationsForCodeLens] returns holds
    no location twice and not the declaration itself; apart from that it
    holds the locations recorded for the function, or for the method under
    its name and under its class. *)
Theorem code_lens_locations (data : Decl) (declRange : Range) (rs : RefState)
  (loc : Location) :
  let result := resolvePhpReferenceLocationsForCodeLens data declRange rs in
  NoDup result
  /\ (loc ∈ result <->
      loc <> mkLocation (decl_uri data) declRange
      /\ match decl_kind data with
         | FunctionDecl => loc ∈ bucket ("fn:" ++ decl_name data) rs
         | MethodDecl =>
             loc ∈ bucket ("method:" ++ decl_name data) rs
             \/ loc ∈ bucket ("static:" ++ decl_className data ++ "::" ++ decl_name data) rs
         end).
Proof.
  intros result. unfold result, resolvePhpReferenceLocationsForCodeLens. split.
  - apply NoDup_ListNoDup, List.NoDup_filter, NoDup_ListNoDup.
    destruct (decl_kind data); repeat apply pushAll_NoDup; constructor.
  - rewrite list_elem_of_In, List.filter_In, <- list_elem_of_In.
    rewrite negb_true_iff, bool_decide_eq_false.
    destruct (decl_kind data); rewrite !pushAll_elem; split.
    + intros [[H|H] Hne]; [by apply elem_of_nil in H | done].
    + intros [Hne H]. auto.
    + intros [[[H|H]|H] Hne]; [by apply elem_of_nil in H | auto | auto].
    + intros [Hne [H|H]]; auto.
Qed.

End ReferenceLaws.

(** ** Further properties of definition lookup *)

Module ResolverFacts2.
Import Re Scanner Extractor Index Routes Resolver ResolverFacts.

Lemma firstListed_sound st candidates locs :
  firstListed st candidates = Some locs ->
  locs <> [] /\ exists key, key ∈ candidates /\ phpWorkspaceIndex st !! key = Some locs.
Proof.
  unfold firstListed. induction candidates as [|k ks IH]; cbn [firstSome]; [done|].
  destruct (phpWorkspaceIndex st !! k) as [[|loc l]|] eqn:E.
  - intros H. destruct (IH H) as (Hne & key & Hk & Hl).
    split; [done|]. exists key. split; [apply elem_of_cons; auto | done].
  - intros [= <-]. split; [done|]. exists k. split; [apply list_elem_of_here | done].
  - intros H. destruct (IH H) as (Hne & key & Hk & Hl).
    split; [done|]. exists key. split; [apply elem_of_cons; auto | done].
Qed.

Lemma findTopLevel_uri d w loc : findTopLevel d w = Some loc -> loc_uri loc = uri d.
Proof.
  unfold findTopLevel. cbn zeta.
  destruct (firstDecl d 0 (getText d) _) as [l|] eqn:E.
  - intros [= <-]. by apply firstDecl_uri in E.
  - apply firstDecl_uri.
Qed.

Lemma findLocal_uri d position reference loc :
  findLocalPhpDefinition d position reference = Some loc -> loc_uri loc = uri d.
Proof.
  unfold findLocalPhpDefinition. cbn zeta.
  destruct (negb (Js.truthy (word reference))); [done|].
  destruct (ref_kind reference).
  - apply findTopLevel_uri.
  - destruct (negb (Js.truthy _)); [done|].
    destruct (findPhpClassMemberRange _ _) as [[a b]|].
    + destruct (firstDecl d a _ _) as [l|] eqn:E.
      * intros [= <-]. by apply firstDecl_uri in E.
      * apply findTopLevel_uri.
    + apply findTopLevel_uri.
  - destruct (findEnclosingPhpClassName d position); [|done].
    destruct (findPhpClassMemberRange _ _) as [[a b]|]; [|done].
    apply firstDecl_uri.
  - apply findTopLevel_uri.
Qed.

Lemma index_resolution_sound_aux st d position reference locs :
  resolvePhpReferenceFromIndex st d position reference = Some locs ->
  locs <> [] /\ exists key, phpWorkspaceIndex st !! key = Some locs.
Proof.
  unfold resolvePhpReferenceFromIndex. cbn zeta.
  assert (Hs : forall cs, firstListed st cs = Some locs ->
                 locs <> [] /\ exists key, phpWorkspaceIndex st !! key = Some locs).
  { intros cs H. destruct (firstListed_sound st cs locs H) as (Hne & key & _ & Hk). eauto. }
  destruct (ref_kind reference).
  - apply Hs.
  - destruct (firstListed st _) as [l|] eqn:E; [intros [= <-]; by apply Hs in E | apply Hs].
  - destruct (findEnclosingPhpClassName d position) as [cn|]; [|apply Hs].
    destruct (firstListed st _) as [l|] eqn:E; [intros [= <-]; by apply Hs in E | apply Hs].
  - apply Hs.
Qed.

End ResolverFacts2.

Module ResolverLaws.
Import Re Scanner Extractor Index Routes Resolver ResolverFacts ResolverFacts2.

(** X17. [resolvePhpReferenceFromIndex] never returns an empty list: what
    it returns is the whole list of locations the index holds under one
    key. *)
Theorem index_resolution_sound
  (st : State) (d : Document) (position : Position) (reference : Reference)
  (locs : list Location) :
  resolvePhpReferenceFromIndex st d position reference = Some locs ->
  locs <> [] /\ exists key, phpWorkspaceIndex st !! key = Some locs.
Proof. apply index_resolution_sound_aux. Qed.

(** X18. [provideDefinition] invents no location: what it returns is never
    empty, and is a list the route index holds under a name, or one
    location in the document itself, or a list the symbol index holds under
    a key, each index taken as the call leaves it. *)
Theorem definition_locations_sound
  (w : Workspace) (d : Document) (position : Position) (st : State) (rst : RouteState)
  (locs : list Location) :
  let r := provideDefinition w d position st rst in
  fst (fst r) = Some locs ->
  locs <> []
  /\ ((exists name, laravelRouteIndex (snd r) !! name = Some locs)
      \/ (exists loc, locs = [loc] /\ loc_uri loc = uri d)
      \/ (exists key, phpWorkspaceIndex (snd (fst r)) !! key = Some locs)).
Proof.
  intros r. unfold r, provideDefinition, routeGate.
  destruct (Js.truthy (getLaravelRouteNameAtPosition d position)); cbn [fst snd].
  - destruct (laravelRouteIndex _ !! _) as [[|loc l]|] eqn:E; cbn [fst snd].
    2:{ intros [= <-]. split; [done|]. left. eauto. }
    all: destruct (getPhpReferenceAtPosition d position) as [reference|]; [|done];
      destruct (findLocalPhpDefinition d position reference) as [local|] eqn:El;
      cbn [fst snd];
      [ intros [= <-]; split; [done|]; right; left; exists local;
        split; [done | by apply findLocal_uri in El]
      | intros H; apply index_resolution_sound_aux in H ].
    all: destruct H as [Hne Hk]; split; [done|]; right; right; done.
  - destruct (getPhpReferenceAtPosition d position) as [reference|]; [|done].
    destruct (findLocalPhpDefinition d position reference) as [local|] eqn:El;
      cbn [fst snd].
    + intros [= <-]. split; [done|]. right. left. exists local.
      split; [done | by apply findLocal_uri in El].
    + intros H. apply index_resolution_sound_aux in H.
      destruct H as [Hne Hk]. split; [done|]. right. right. done.
Qed.

End ResolverLaws.

(** ** Doc comments before an offset *)

Module StringFacts.
Import TrimFacts RangeFacts.

Lemma take_drop n s : (Js.take n s ++ Js.drop n s)%string = s.
Proof.
  revert s. induction n as [|n IH]; intros s; [by destruct s|].
  destruct s as [|c s]; [done|]. cbn [Js.take Js.drop]. rewrite append_cons. by rewrite IH.
Qed.

Lemma take_add a b s :
  Js.take (a + b) s = (Js.take a s ++ Js.take b (Js.drop a s))%string.
Proof.
  revert s. induction a as [|a IH]; intros s; [by destruct s|].
  destruct s as [|c s]; cbn [Nat.add Js.take Js.drop]; [by destruct b|].
  rewrite append_cons. by rewrite IH.
Qed.

Lemma startsWith_prefix p s :
  Js.startsWith p s = true <-> exists t, s = (p ++ t)%string.
Proof.
  revert s. induction p as [|a p IH]; intros s; cbn [Js.startsWith].
  - split; [intros _; by exists s | done].
  - destruct s as [|b s].
    + split; [done | intros [t Ht]; discriminate].
    + rewrite andb_true_iff, IH. split.
      * intros [Hab [t ->]]. apply Ascii.eqb_eq in Hab. subst. by exists t.
      * intros [t Ht]. rewrite append_cons in Ht. injection Ht as -> ->.
        split; [apply Ascii.eqb_refl | by exists t].
Qed.

Lemma lastIndexOfAux_found p s : forall i found r,
  Js.lastIndexOfAux p s i found = r ->
  r = found \/ exists n, r = Z.of_nat (i + n) /\ Js.startsWith p (Js.drop n s) = true.
Proof.
  induction s as [|c s IH]; intros i found r; cbn [Js.lastIndexOfAux].
  - destruct (Js.startsWith p "") eqn:E; intros <-; [|by left].
    right. exists 0. split; [f_equal; lia | done].
  - intros H. apply IH in H as [H|(n & -> & Hn)].
    + destruct (Js.startsWith p (String c s)) eqn:E; [|by left].
      right. exists 0. split; [rewrite H; f_equal; lia | done].
    + right. exists (S n). split; [f_equal; lia | done].
Qed.

Lemma drop_length_le n s : String.length (Js.drop n s) = String.length s - n.
Proof.
  revert s. induction n as [|n IH]; intros s; [destruct s; cbn; lia|].
  destruct s as [|c s]; cbn [Js.drop String.length]; [done|]. by rewrite IH.
Qed.

Lemma take_length n s : String.length (Js.take n s) = Nat.min n (String.length s).
Proof.
  revert s. induction n as [|n IH]; intros s; [by destruct s|].
  destruct s as [|c s]; cbn [Js.take String.length]; [done|]. by rewrite IH.
Qed.

Lemma drop_take k n s : Js.drop k (Js.take n s) = Js.take (n - k) (Js.drop k s).
Proof.
  revert n s. induction k as [|k IH]; intros n s.
  - rewrite Nat.sub_0_r. reflexivity.
  - destruct n as [|n]; [reflexivity|].
    destruct s as [|c s]; [cbn [Js.take Js.drop Nat.sub]; by destruct (n - k)|].
    cbn [Js.take Js.drop Nat.sub]. apply IH.
Qed.

Lemma startsWith_take p : forall m s,
  Js.startsWith p (Js.take m s) = true ->
  Js.startsWith p s = true /\ String.length p <= m.
Proof.
  induction p as [|a p IH]; intros m s; cbn [Js.startsWith String.length].
  - intros _. split; [done | lia].
  - destruct m as [|m]; [done|]. destruct s as [|b s]; [done|].
    cbn [Js.take]. rewrite !andb_true_iff. intros [Hab H].
    destruct (IH m s H) as [H1 H2]. split; [done | lia].
Qed.

End StringFacts.

Module DocblockFacts.
Import Re ReSpec Scanner MembersSpec TrimFacts RangeFacts StringFacts ReFacts.

Lemma every_ext (p q : ascii -> bool) s :
  (forall c, p c = q c) -> every p s = every q s.
Proof. intros H. induction s as [|c s IH]; [done|]. cbn [every]. by rewrite H, IH. Qed.

(** a search for one unit of a class fails exactly on a text without one *)
Lemma searchFrom_class b p s : forall n pv,
  searchFrom b (Chr p) n pv s = None <-> every (fun c => negb (p c)) s = true.
Proof.
  induction s as [|a s IH]; intros n pv; cbn [searchFrom every].
  - done.
  - unfold matchAt. cbn [pos prev rest run next step].
    destruct (p a); cbn [negb andb]; [done|]. apply IH.
Qed.

Lemma test_class p s : test (Chr p) s = negb (every (fun c => negb (p c)) s).
Proof.
  unfold test, exec, search, start. cbn [pos prev rest].
  pose proof (searchFrom_class (boundFor s) p s 0%N None) as H.
  destruct (searchFrom _ _ _ _ s) as [m|].
  - destruct (every _ s); [|done]. discriminate (proj2 H eq_refl).
  - by rewrite (proj1 H eq_refl).
Qed.

Lemma blank_iff s : test nonSpaceRe s = false <-> every Chars.space s = true.
Proof.
  unfold nonSpaceRe, Not. rewrite test_class, negb_false_iff.
  rewrite (every_ext _ Chars.space); [done|]. intros c. apply negb_involutive.
Qed.

Lemma every_app p a b : every p (a ++ b) = every p a && every p b.
Proof.
  induction a as [|c a IH]; [done|]. rewrite append_cons. cbn [every].
  by rewrite IH, andb_assoc.
Qed.

(** the three offsets [findPhpDocblockBeforeOffset] computes, when it
    returns a comment: the comment opens at [k], its end mark is at [n] *)
Lemma docblock_offsets head e :
  Js.lastIndexOf "*/" head = e -> e <> (-1)%Z ->
  exists n, e = Z.of_nat n /\ Js.startsWith "*/" (Js.drop n head) = true.
Proof.
  unfold Js.lastIndexOf. intros H Hne.
  apply lastIndexOfAux_found in H as [H|(n & -> & Hn)]; [done|].
  exists n. done.
Qed.

Lemma docblock_start head n s :
  Js.lastIndexOfFrom "/**" (Z.of_nat n) head = s -> s <> (-1)%Z ->
  exists k, s = Z.of_nat k /\ k <= n /\ Js.startsWith "/**" (Js.drop k head) = true.
Proof.
  unfold Js.lastIndexOfFrom. rewrite Nat2Z.id. intros H Hne.
  apply lastIndexOfAux_found in H as [H|(k & -> & Hk)]; [done|].
  exists k. split; [done|]. rewrite drop_take in Hk.
  apply startsWith_take in Hk as [Hk Hlen]. cbn [String.length] in Hlen.
  split; [lia | done].
Qed.

End DocblockFacts.

Module Docblocks.
Import Re ReSpec Scanner MembersSpec TrimFacts RangeFacts StringFacts ReFacts DocblockFacts.

Lemma slice_nat a b s :
  Js.slice (Z.of_nat a) (Z.of_nat b) s = Js.take (b - a) (Js.drop a s).
Proof.
  unfold Js.slice.
  replace (Z.of_nat a <? 0)%Z with false by (symmetry; apply Z.ltb_ge; lia).
  replace (Z.of_nat b <? 0)%Z with false by (symmetry; apply Z.ltb_ge; lia).
  cbn [orb]. by rewrite !Nat2Z.id.
Qed.

Lemma sliceFrom_nat a s : Js.sliceFrom (Z.of_nat a) s = Js.drop a s.
Proof.
  unfold Js.sliceFrom.
  replace (Z.of_nat a <? 0)%Z with false by (symmetry; apply Z.ltb_ge; lia).
  by rewrite Nat2Z.id.
Qed.

(** an opening mark at [k] and an end mark at [n], with [k <= n], are two
    units apart at least *)
Lemma marks_apart head k n :
  k <= n ->
  Js.startsWith "/**" (Js.drop k head) = true ->
  Js.startsWith "*/" (Js.drop n head) = true ->
  k + 2 <= n.
Proof.
  intros Hkn Hk Hn. apply startsWith_prefix in Hk as [t Ht].
  replace n with (k + (n - k)) in Hn by lia. rewrite <- drop_drop, Ht in Hn.
  destruct (n - k) as [|[|j]] eqn:E; [done | done | lia].
Qed.

(** X19. What [findPhpDocblockBeforeOffset] returns is empty, or a piece of
    the text before the offset that opens with the mark of a doc comment,
    closes with its end mark, and is followed by white space only up to the
    offset. *)
Theorem docblock_is_comment_before_offset (text : string) (offset : Z) :
  let head := Js.slice 0 (Z.max 0 offset) text in
  let r := findPhpDocblockBeforeOffset text offset in
  r = ""
  \/ exists pre gap x,
       head = (pre ++ r ++ gap)%string
       /\ Js.startsWith "/**" r = true
       /\ r = (x ++ "*/")%string
       /\ every Chars.space gap = true.
Proof.
  intros head r. unfold r, findPhpDocblockBeforeOffset. cbn zeta. fold head.
  destruct (Js.lastIndexOf "*/" head =? -1)%Z eqn:Ee; [by left|].
  apply Z.eqb_neq in Ee.
  destruct (docblock_offsets head _ eq_refl Ee) as (n & Hn & Hend).
  rewrite Hn.
  destruct (Js.lastIndexOfFrom "/**" (Z.of_nat n) head =? -1)%Z eqn:Es; [by left|].
  apply Z.eqb_neq in Es.
  destruct (docblock_start head n _ eq_refl Es) as (k & Hk & Hkn & Hopen).
  rewrite Hk.
  replace (Z.of_nat n + 2)%Z with (Z.of_nat (n + 2)) by lia.
  rewrite sliceFrom_nat, slice_nat.
  destruct (test nonSpaceRe (Js.drop (n + 2) head)) eqn:Eb; [by left|].
  right. apply blank_iff in Eb.
  pose proof (marks_apart head k n Hkn Hopen Hend) as Hfar.
  exists (Js.take k head), (Js.drop (n + 2) head), (Js.take (n - k) (Js.drop k head)).
  split; [|split; [|split; [|done]]].
  - replace (Js.drop (n + 2) head)
      with (Js.drop (n + 2 - k) (Js.drop k head))
      by (rewrite drop_drop; f_equal; lia).
    by rewrite take_drop, take_drop.
  - apply startsWith_prefix in Hopen as [t Ht]. rewrite Ht.
    replace (n + 2 - k) with (3 + (n - k - 1)) by lia.
    rewrite take_add. apply startsWith_prefix. eauto.
  - replace (n + 2 - k) with ((n - k) + 2) by lia. rewrite take_add. f_equal.
    rewrite drop_drop. replace (k + (n - k)) with n by lia.
    apply startsWith_prefix in Hend as [t Ht]. by rewrite Ht.
Qed.

End Docblocks.

(** ** Where matches lie in the subject *)

Module CursorFacts.
Import Re ReSpec CursorSpec TrimFacts RangeFacts StringFacts ReFacts.

Lemma drop_succ p s a t : Js.drop p s = String a t -> Js.drop (S p) s = t.
Proof.
  intros H. replace (S p) with (p + 1) by lia. by rewrite <- drop_drop, H.
Qed.

Lemma at_step s p pv a t cs cs' :
  At s (Cursor p pv (String a t) cs) -> At s (Cursor (N.succ p) (Some a) t cs').
Proof.
  unfold At. cbn [pos rest]. rewrite N2Nat.inj_succ. apply drop_succ.
Qed.

Lemma at_caps s p pv pv' t cs cs' : At s (Cursor p pv t cs) -> At s (Cursor p pv' t cs').
Proof. done. Qed.

Lemma eat_at s lit : forall c e, In e (eat lit c) -> At s c -> At s e.
Proof.
  induction lit as [|a lit IH]; intros c e H Hc; cbn [eat] in H.
  - by destruct H as [<-|[]].
  - destruct c as [p pv [|b t] cs]; cbn [rest] in H; [done|].
    destruct (Ascii.eqb a b); [|done]. cbn [pos caps] in H.
    apply (IH _ _ H). by apply (at_step s p pv b t cs).
Qed.

Lemma run_at s b r : forall c e, In e (run b r c) -> At s c -> At s e.
Proof.
  induction r as [|p|r1 IH1 r2 IH2|r1 IH1 r2 IH2|g r1 IH1|n r1 IH1|n| | |];
    intros c e H Hc; cbn [run] in H.
  - by destruct H as [<-|[]].
  - destruct c as [q pv [|a t] cs]; cbn [next rest] in H; [done|].
    destruct (p a); [|done]. unfold step in H. cbn [rest pos caps] in H.
    destruct H as [<-|[]]. by apply (at_step s q pv a t cs).
  - apply in_flat_map_run in H as (c' & Hc' & He). eauto.
  - apply in_app_or in H as [H|H]; eauto.
  - revert Hc. apply (iterate_property (fun c e => At s c -> At s e) (run b r1) g b c e);
      [done | intros x y z Hxy Hyz Hx; auto | intros x y Hxy Hx; eauto | done].
  - apply in_map_iff in H as (e' & <- & He'). specialize (IH1 _ _ He' Hc).
    destruct e'. exact IH1.
  - by apply (eat_at s _ _ _ H).
  - destruct (xorb _ _); [|done]. by destruct H as [<-|[]].
  - destruct (prev c) as [x|]; [destruct (_ && _)|]; try done; by destruct H as [<-|[]].
  - destruct (next c) as [x|]; [destruct (_ && _)|]; try done; by destruct H as [<-|[]].
Qed.

Lemma matchAt_at s b r c m :
  matchAt b r c = Some m -> At s c ->
  index m = N.to_nat (pos c) /\ At s (after m)
  /\ exists e, In e (run b r (Cursor (pos c) (prev c) (rest c) [])).
Proof.
  unfold matchAt. destruct (run b r _) as [|e l] eqn:E; [done|].
  intros [= <-] Hc. cbn [index after]. split; [done|]. split.
  - assert (He : At s e).
    { apply (run_at s b r (Cursor (pos c) (prev c) (rest c) []) e);
        [rewrite E; by left | done]. }
    destruct e. exact He.
  - exists e. by left.
Qed.

Lemma searchFrom_at s b r s' : forall p pv m,
  searchFrom b r p pv s' = Some m -> Js.drop (N.to_nat p) s = s' ->
  exists c, At s c /\ matchAt b r c = Some m.
Proof.
  induction s' as [|a s' IH]; intros p pv m H Hp; cbn [searchFrom] in H.
  - destruct (matchAt b r _) as [m'|] eqn:E; [|done]. injection H as <-.
    eexists. split; [|exact E]. exact Hp.
  - destruct (matchAt b r _) as [m'|] eqn:E.
    + injection H as <-. eexists. split; [|exact E]. exact Hp.
    + apply (IH _ _ _ H). rewrite N2Nat.inj_succ. by apply drop_succ in Hp.
Qed.

Lemma execLoop_at s b r fuel : forall c m,
  In m (execLoop fuel b r c) -> At s c ->
  exists c', At s c' /\ matchAt b r c' = Some m.
Proof.
  induction fuel as [|fuel IH]; intros c m H Hc; cbn [execLoop] in H; [done|].
  destruct (search b r c) as [m'|] eqn:E; [|done].
  unfold search in E.
  destruct (searchFrom_at s b r _ _ _ _ E Hc) as (c' & Hc' & Hm').
  destruct H as [<-|H]; [eauto|].
  apply (IH _ _ H). by apply (matchAt_at s b r c' m' Hm' Hc').
Qed.

Lemma lit_prefix b l : forall c e, In e (run b (Lit l) c) -> exists t, rest c = (l ++ t)%string.
Proof.
  induction l as [|a l IH]; intros c e H.
  - by exists (rest c).
  - destruct l as [|a' l'].
    + cbn [Lit run] in H. unfold C in H. cbn [run] in H.
      destruct c as [q pv [|x t] cs]; cbn [next rest] in H |- *; [done|].
      destruct (Chars.isC a x) eqn:Ex; [|done]. apply isC_eq in Ex. subst. by exists t.
    + change (Lit (String a (String a' l'))) with (Seq (C a) (Lit (String a' l'))) in H.
      cbn [run] in H. apply in_flat_map_run in H as (c' & Hc' & He).
      unfold C in Hc'. cbn [run] in Hc'.
      destruct c as [q pv [|x t] cs]; cbn [next rest] in Hc' |- *; [done|].
      destruct (Chars.isC a x) eqn:Ex; [|done]. apply isC_eq in Ex. subst.
      unfold step in Hc'. cbn [rest pos caps] in Hc'. destruct Hc' as [<-|[]].
      destruct (IH _ _ He) as [t' Ht']. cbn [rest] in Ht'. subst t.
      exists t'. by rewrite append_cons.
Qed.

(** the matches of a pattern that begins with a literal begin with it, at
    their index in the subject *)
Lemma execAll_literal_start l r s m :
  In m (execAll (Seq (Lit l) r) s) ->
  exists t, Js.drop (index m) s = (l ++ t)%string.
Proof.
  intros H. unfold execAll in H.
  destruct (execLoop_at s (boundFor s) (Seq (Lit l) r) _ (start s) m H eq_refl)
    as (c & Hc & Hm).
  destruct (matchAt_at s _ _ c m Hm Hc) as (Hi & _ & e & He).
  cbn [run] in He. apply in_flat_map_run in He as (c' & Hc' & _).
  apply lit_prefix in Hc' as [t Ht]. cbn [rest] in Ht.
  exists t. rewrite Hi. by rewrite Hc.
Qed.

End CursorFacts.

(** ** Where inferred types come from *)

Module InferenceFacts2.
Import Re ReSpec Scanner MembersSpec Index Inference CursorSpec TrimFacts RangeFacts
       StringFacts ReFacts DocblockFacts Docblocks CursorFacts InferenceFacts.

Lemma drop_app_within j (a b : string) :
  j <= String.length a -> Js.drop j (a ++ b) = (Js.drop j a ++ b)%string.
Proof.
  revert a. induction j as [|j IH]; intros a Hj; [by destruct a, b|].
  destruct a as [|c a]; cbn [String.length] in Hj; [lia|].
  rewrite append_cons. cbn [Js.drop]. apply IH. lia.
Qed.

Lemma drop_app_length (a b : string) : Js.drop (String.length a) (a ++ b) = b.
Proof.
  induction a as [|c a IH]; [by destruct b|].
  rewrite append_cons. cbn [String.length Js.drop]. exact IH.
Qed.

Lemma slice_to b s : Js.slice 0 (Z.of_nat b) s = Js.take b s.
Proof.
  rewrite (slice_nat 0 b s : Js.slice 0 (Z.of_nat b) s = _).
  by rewrite Nat.sub_0_r.
Qed.

(** before the opening mark of a doc comment, taken with the mark, no doc
    comment is found: the mark itself stands between an earlier end mark
    and the offset *)
Lemma no_docblock_at_opening text i t :
  Js.drop i text = ("/**" ++ t)%string ->
  findPhpDocblockBeforeOffset text (Z.of_nat i + 3) = "".
Proof.
  intros Hd. unfold findPhpDocblockBeforeOffset. cbn zeta.
  replace (Z.max 0 (Z.of_nat i + 3)) with (Z.of_nat (i + 3)) by lia.
  rewrite slice_to.
  set (pre := Js.take i text).
  assert (Hhead : Js.take (i + 3) text = ((pre ++ "/*") ++ "*")%string).
  { rewrite take_add, Hd. unfold pre. by rewrite <- append_assoc. }
  assert (Hlen : String.length (pre ++ "/*") = String.length pre + 2)
    by (by rewrite length_append).
  rewrite Hhead.
  destruct (Js.lastIndexOf "*/" ((pre ++ "/*") ++ "*") =? -1)%Z eqn:Ee; [done|].
  apply Z.eqb_neq in Ee.
  destruct (docblock_offsets _ _ eq_refl Ee) as (n & Hn & Hend).
  rewrite Hn.
  destruct (Js.lastIndexOfFrom "/**" (Z.of_nat n) _ =? -1)%Z; [done|].
  replace (Z.of_nat n + 2)%Z with (Z.of_nat (n + 2)) by lia.
  rewrite sliceFrom_nat.
  assert (Hn2 : n + 2 <= String.length pre + 3).
  { apply startsWith_prefix in Hend as [x Hx].
    apply (f_equal String.length) in Hx.
    rewrite drop_length_le, !length_append in Hx. cbn [String.length] in Hx. lia. }
  assert (Hn1 : n <> String.length pre + 1).
  { intros ->. rewrite <- append_assoc in Hend.
    rewrite <- drop_drop, drop_app_length in Hend. done. }
  assert (Hblank : every Chars.space (Js.drop (n + 2) ((pre ++ "/*") ++ "*")) = false).
  { rewrite drop_app_within by lia. rewrite every_app. cbn. apply andb_false_r. }
  destruct (test nonSpaceRe _) eqn:Et; [done|].
  apply blank_iff in Et. congruence.
Qed.

Lemma docVarStep_nothing text ns al map m :
  In m (execAll docVarRe text) -> docVarStep text ns al map m = map.
Proof.
  intros Hm. unfold docVarRe in Hm.
  change (seqs [Lit "/**"; Star false Any; Lit "*/"; Star true Sp; C "$"; Grp 1 ident])
    with (Seq (Lit "/**") (seqs [Star false Any; Lit "*/"; Star true Sp; C "$"; Grp 1 ident]))
    in Hm.
  apply execAll_literal_start in Hm as [t Ht].
  unfold docVarStep. cbn zeta. by rewrite (no_docblock_at_opening text (index m) t Ht).
Qed.

Lemma docVarTypes_empty d position : docVarTypes d position = ∅.
Proof.
  unfold docVarTypes. cbn zeta.
  set (text := windowText d position).
  assert (H : forall ms map,
            (forall m, In m ms -> In m (execAll docVarRe text)) ->
            fold_left (docVarStep text (getPhpNamespace (getText d))
                                  (parsePhpUseAliases (getText d))) ms map = map).
  { induction ms as [|m ms IH]; intros map Hms; cbn [fold_left]; [done|].
    rewrite docVarStep_nothing by (apply Hms; by left).
    apply IH. intros m' Hm'. apply Hms. by right. }
  by apply H.
Qed.

Lemma fold_assign_source st ns al ms : forall map n t,
  fold_left (assignStep st ns al) ms map !! n = Some t ->
  map !! n = Some t \/ exists m, m ∈ ms /\ group 1 m = n.
Proof.
  induction ms as [|m ms IH]; intros map n t H; cbn [fold_left] in H; [by left|].
  apply IH in H as [H|(m' & Hm' & Hn)].
  - destruct (string_dec (group 1 m) n) as [E|E].
    + right. exists m. split; [apply list_elem_of_here | done].
    + left. by rewrite assignStep_other in H.
  - right. exists m'. split; [by apply list_elem_of_further | done].
Qed.

End InferenceFacts2.

Module InferenceLaws.
Import Re Scanner Index Inference InferenceFacts InferenceFacts2.

(** X20. A type [inferPhpVariableTypes] reports for a variable always
    comes from an assignment to that variable in the window.  The pass over
    the doc comments records nothing: it looks for a doc comment before the
    third unit of the comment it has just matched, where the opening mark of
    that comment stands in the way. *)
Theorem inferred_types_come_from_assignments
  (st : State) (d : Document) (position : Position) (name t : string) :
  docVarTypes d position = ∅
  /\ (inferPhpVariableTypes st d position !! name = Some t ->
      exists m, m ∈ execAll assignRe (windowText d position) /\ group 1 m = name).
Proof.
  split; [apply docVarTypes_empty|].
  unfold inferPhpVariableTypes. cbn zeta. rewrite docVarTypes_empty. intros H.
  apply fold_assign_source in H as [H|H]; [|done].
  by rewrite lookup_empty in H.
Qed.

End InferenceLaws.

(** ** The named-route index *)

Module RouteFacts.
Import Re Scanner Index Routes IndexFacts.

Lemma insertRoute_mono rs : forall acc k x,
  x ∈ default [] (snd acc !! k) ->
  x ∈ default [] (snd (fold_left insertRoute rs acc) !! k).
Proof.
  induction rs as [|r rs IH]; intros acc k x Hx; cbn [fold_left]; [done|].
  apply IH. unfold insertRoute. cbn [snd].
  destruct (decide (rn_name r = k)) as [<-|Hne].
  - rewrite pushAt_lookup_eq. cbn. apply elem_of_app. auto.
  - by rewrite pushAt_lookup_ne.
Qed.

Lemma insertRoute_elem rs : forall acc r,
  r ∈ rs ->
  rn_location r ∈ default [] (snd (fold_left insertRoute rs acc) !! rn_name r).
Proof.
  induction rs as [|r0 rs IH]; intros acc r Hin; cbn [fold_left].
  - by apply elem_of_nil in Hin.
  - apply elem_of_cons in Hin as [<-|Hin]; [|by apply IH].
    apply insertRoute_mono. unfold insertRoute. cbn [snd].
    rewrite pushAt_lookup_eq. cbn. apply elem_of_app. right. apply list_elem_of_here.
Qed.

Lemma route_delete_version u rst :
  (laravelRouteIndexVersion rst
   <= laravelRouteIndexVersion (deleteLaravelRouteIndexForUri u rst))%Z.
Proof.
  unfold deleteLaravelRouteIndexForUri.
  destruct (laravelRouteIndexKeysByUri rst !! u); cbn; lia.
Qed.

End RouteFacts.

Module RouteLaws.
Import Re Scanner Index Routes IndexFacts RouteFacts.

(** X21. [updateLaravelRouteIndexForDocument] leaves the route index as it
    is for a document that is not PHP or does not lie under a routes
    directory; for any other document it raises the version and lists every
    route name extracted from the document with its location. *)
Theorem route_update (d : Document) (rst : RouteState) :
  let rst' := updateLaravelRouteIndexForDocument d rst in
  (languageId d <> "php" \/ isLaravelRouteDocument d = false -> rst' = rst)
  /\ (languageId d = "php" -> isLaravelRouteDocument d = true ->
      (laravelRouteIndexVersion rst < laravelRouteIndexVersion rst')%Z
      /\ forall r, r ∈ extractLaravelRouteNamesFromDocument d ->
           rn_location r ∈ default [] (laravelRouteIndex rst' !! rn_name r)).
Proof.
  intros rst'. unfold rst', updateLaravelRouteIndexForDocument. split.
  - intros [H|H].
    + apply String.eqb_neq in H. by rewrite H.
    + rewrite H. by destruct (negb _).
  - intros Hphp Hroute. rewrite Hphp, Hroute.
    change ("php" =? "php")%string with true. cbn [negb].
    destruct (fold_left insertRoute _ _) as [keys index_] eqn:E.
    cbn [laravelRouteIndexVersion laravelRouteIndex].
    split.
    + pose proof (route_delete_version (uri d) rst). lia.
    + intros r Hr. change index_ with (snd (keys, index_)). rewrite <- E.
      by apply insertRoute_elem.
Qed.

End RouteLaws.

(** ** The table of built-in functions by category *)

Module CategoriesFacts.
Import Index IndexFacts Categories CategoriesSpec MembersFacts2.

Lemma fold_setAdd_elem l : forall acc x,
  x ∈ fold_left (fun acc x => setAdd x acc) l acc <-> x ∈ acc \/ x ∈ l.
Proof.
  induction l as [|y l IH]; intros acc x; cbn [fold_left].
  - split; [auto | intros [H|H]; [done | by apply elem_of_nil in H]].
  - rewrite IH, setAdd_elem, elem_of_cons. tauto.
Qed.

Lemma fold_setAdd_nodup l : forall acc,
  NoDup acc -> NoDup (fold_left (fun acc x => setAdd x acc) l acc).
Proof.
  induction l as [|y l IH]; intros acc H; cbn [fold_left]; [done|].
  by apply IH, setAdd_nodup.
Qed.

Lemma distinct_elem l x : x ∈ distinct l <-> x ∈ l.
Proof.
  unfold distinct. rewrite fold_setAdd_elem. split; [|auto].
  intros [H|H]; [by apply elem_of_nil in H | done].
Qed.

Lemma distinct_nodup l : NoDup (distinct l).
Proof. apply fold_setAdd_nodup. constructor. Qed.

Lemma orderedSet_new {V} k (v : V) m :
  k ∉ List.map fst m -> orderedSet k v m = m ++ [(k, v)].
Proof.
  induction m as [|[k' v'] m IH]; intros H; cbn [orderedSet]; [done|].
  cbn [List.map fst] in H. apply not_elem_of_cons in H as [Hne H].
  destruct (String.eqb k' k) eqn:E; [apply String.eqb_eq in E; congruence|].
  cbn [app]. by rewrite IH.
Qed.

Lemma entry_key c source funcs :
  entry c source = Some funcs -> c ∈ List.map fst source.
Proof.
  induction source as [|[c' fs] source IH]; cbn [entry List.map fst]; [done|].
  destruct (String.eqb c' c) eqn:E.
  - apply String.eqb_eq in E. subst. intros _. apply list_elem_of_here.
  - intros H. apply list_elem_of_further. by apply IH.
Qed.

(** what [keepUnseen] keeps and what it has seen afterwards *)
Lemma keepUnseen_fold l : forall s k,
  (forall f, f ∈ k -> f ∈ s) -> NoDup k ->
  let r := fold_left (fun '(seen, kept) fn =>
                        if bool_decide (fn ∈ seen) then (seen, kept)
                        else (setAdd fn seen, kept ++ [fn])) l (s, k) in
  NoDup (snd r)
  /\ (forall f, f ∈ snd r <-> f ∈ k \/ (f ∈ l /\ f ∉ s))
  /\ (forall f, f ∈ fst r <-> f ∈ s \/ f ∈ l).
Proof.
  induction l as [|fn l IH]; intros s k Hks Hk; cbn [fold_left].
  - cbn [fst snd]. split; [done|]. split; intros f.
    + split; [auto | intros [H|[H _]]; [done | by apply elem_of_nil in H]].
    + split; [auto | intros [H|H]; [done | by apply elem_of_nil in H]].
  - case_bool_decide as Hin.
    + destruct (IH s k Hks Hk) as (H1 & H2 & H3).
      split; [done|]. split; intros f.
      * rewrite H2, elem_of_cons. split; [tauto|].
        intros [H|[[->|H] Hs]]; [auto | done | auto].
      * rewrite H3, elem_of_cons. split; [tauto|].
        intros [H|[->|H]]; auto.
    + destruct (IH (setAdd fn s) (k ++ [fn])) as (H1 & H2 & H3).
      * intros f. rewrite elem_of_app, list_elem_of_singleton, setAdd_elem.
        intros [H|H]; auto.
      * apply NoDup_app. split; [done|]. split; [|apply NoDup_singleton].
        intros x Hx Hx'. apply list_elem_of_singleton in Hx'. subst. auto.
      * split; [done|]. split; intros f.
        -- rewrite H2, elem_of_app, list_elem_of_singleton, setAdd_elem, elem_of_cons.
           destruct (decide (f = fn)) as [->|Hne]; [tauto|]. tauto.
        -- rewrite H3, setAdd_elem, elem_of_cons. tauto.
Qed.

Lemma keepUnseen_spec seen l :
  NoDup (snd (keepUnseen seen l))
  /\ (forall f, f ∈ snd (keepUnseen seen l) <-> f ∈ l /\ f ∉ seen)
  /\ (forall f, f ∈ fst (keepUnseen seen l) <-> f ∈ seen \/ f ∈ l).
Proof.
  destruct (keepUnseen_fold l seen []) as (H1 & H2 & H3).
  - intros f H. by apply elem_of_nil in H.
  - constructor.
  - split; [exact H1|]. split; [|exact H3].
    intros f. rewrite (H2 f). split; [|auto].
    intros [H|H]; [by apply elem_of_nil in H | done].
Qed.

Section Step.
Variable order : list string -> list string.
Hypothesis order_elem : forall l x, x ∈ order l <-> x ∈ l.
Variable source : list (string * list string).

Lemma listed_app table c fs c' f :
  Listed (table ++ [(c, fs)]) c' f <-> Listed table c' f \/ (c' = c /\ f ∈ fs).
Proof.
  unfold Listed. split.
  - intros (fs' & Hin & Hf). apply elem_of_app in Hin as [Hin|Hin]; [left; eauto|].
    apply list_elem_of_singleton in Hin. injection Hin as -> ->. auto.
  - intros [(fs' & Hin & Hf)|[-> Hf]].
    + exists fs'. split; [apply elem_of_app; auto | done].
    + exists fs. split; [|done]. apply elem_of_app. right. apply list_elem_of_here.
Qed.

Lemma listed_key table c f : Listed table c f -> c ∈ List.map fst table.
Proof.
  intros (fs & Hin & _). apply list_elem_of_In, in_map_iff.
  exists (c, fs). split; [done | by apply list_elem_of_In].
Qed.

(** a turn of the loop keeps the table normal, keeps what is listed, and
    leaves every function of the category seen *)
Lemma categoryStep_normal seen table c :
  Normal source seen table -> c ∉ List.map fst table ->
  let r := categoryStep order source (seen, table) c in
  Normal source (fst r) (snd r)
  /\ (forall c' f, Listed table c' f -> Listed (snd r) c' f)
  /\ (forall x, x ∈ List.map fst (snd r) -> x ∈ List.map fst table \/ x = c)
  /\ (forall funcs f, entry c source = Some funcs -> f ∈ funcs -> f ∈ fst r).
Proof.
  intros Hn Hc. pose proof Hn as (Hseen & Hlists & Hone & Hkeys). unfold categoryStep.
  assert (Hsame : Normal source seen table
                  /\ (forall c' f, Listed table c' f -> Listed table c' f)
                  /\ (forall x, x ∈ List.map fst table -> x ∈ List.map fst table \/ x = c))
    by (split; [exact Hn | split; auto]).
  destruct (entry c source) as [[|f0 funcs]|] eqn:Ee; cbn [fst snd].
  - destruct Hsame as (H1 & H2 & H3).
    split; [exact H1|]. split; [exact H2|]. split; [exact H3|].
    intros funcs f [= <-] Hf. by apply elem_of_nil in Hf.
  - set (l := order (distinct (f0 :: funcs))).
    destruct (keepUnseen_spec seen l) as (Hnd & Hkept & Hseen').
    destruct (keepUnseen seen l) as [seen' filtered] eqn:Ek. cbn [fst snd] in *.
    assert (Hl : forall f, f ∈ l <-> f ∈ f0 :: funcs).
    { intros f. unfold l. by rewrite order_elem, distinct_elem. }
    assert (Hall : forall funcs' f, Some (f0 :: funcs) = Some funcs' -> f ∈ funcs' ->
                     f ∈ seen').
    { intros funcs' f [= <-] Hf. apply Hseen'. right. by apply Hl. }
    destruct filtered as [|g filtered]; cbn [fst snd].
    + split; [|split; [done | split; [auto | exact Hall]]].
      split; [|split; [done | split; [done | done]]].
      intros f. rewrite Hseen', <- Hseen. split; [|auto].
      intros [H|H]; [done|]. destruct (decide (f ∈ seen)) as [Hs|Hs]; [done|].
      assert (Hf : f ∈ []) by (apply Hkept; by split). by apply elem_of_nil in Hf.
    + rewrite orderedSet_new by done.
      split; [|split; [|split; [|exact Hall]]].
      * split; [|split; [|split]].
        -- intros f. rewrite Hseen'. split.
           ++ intros [H|H].
              ** apply Hseen in H as [c' H]. exists c'. apply listed_app. auto.
              ** destruct (decide (f ∈ seen)) as [Hs|Hs].
                 --- apply Hseen in Hs as [c' H']. exists c'. apply listed_app. auto.
                 --- exists c. apply listed_app. right. split; [done|].
                     apply Hkept. by split.
           ++ intros [c' H]. apply listed_app in H as [H|[-> H]].
              ** left. apply Hseen. eauto.
              ** right. by apply Hkept in H as [H _].
        -- intros c' fs Hin. apply elem_of_app in Hin as [Hin|Hin]; [by apply Hlists|].
           apply list_elem_of_singleton in Hin. injection Hin as -> ->.
           split; [done|]. split; [done|]. intros f Hf.
           exists (f0 :: funcs). split; [done|]. apply Hl. by apply Hkept in Hf as [Hf _].
        -- intros c1 c2 f H1 H2.
           apply listed_app in H1 as [H1|[-> H1]]; apply listed_app in H2 as [H2|[-> H2]].
           ++ by apply (Hone c1 c2 f).
           ++ exfalso. apply Hkept in H2 as [_ H2]. apply H2, Hseen. eauto.
           ++ exfalso. apply Hkept in H1 as [_ H1]. apply H1, Hseen. eauto.
           ++ done.
        -- rewrite map_app. cbn [List.map fst]. apply NoDup_app. split; [done|].
           split; [|apply NoDup_singleton].
           intros x Hx Hx'. apply list_elem_of_singleton in Hx'. by subst.
      * intros c' f H. apply listed_app. auto.
      * intros x. rewrite map_app. cbn [List.map fst].
        rewrite elem_of_app, list_elem_of_singleton. tauto.
  - destruct Hsame as (H1 & H2 & H3).
    split; [exact H1|]. split; [exact H2|]. split; [exact H3|].
    intros funcs f [=].
Qed.

Lemma categories_normal cs : forall seen table,
  NoDup cs -> (forall c, c ∈ cs -> c ∉ List.map fst table) ->
  Normal source seen table ->
  let r := fold_left (categoryStep order source) cs (seen, table) in
  Normal source (fst r) (snd r)
  /\ (forall c' f, Listed table c' f -> Listed (snd r) c' f)
  /\ (forall c funcs f, c ∈ cs -> entry c source = Some funcs -> f ∈ funcs ->
        exists c', Listed (snd r) c' f).
Proof.
  induction cs as [|c cs IH]; intros seen table Hnd Hnew Hn; cbn [fold_left].
  - cbn [fst snd]. split; [done|]. split; [done|].
    intros c funcs f Hc. by apply elem_of_nil in Hc.
  - apply NoDup_cons in Hnd as [Hc Hnd].
    destruct (categoryStep_normal seen table c Hn) as (Hn1 & Hkeep1 & Hkeys1 & Hall1).
    { apply Hnew. apply list_elem_of_here. }
    destruct (categoryStep order source (seen, table) c) as [seen1 table1] eqn:E.
    cbn [fst snd] in *.
    destruct (IH seen1 table1 Hnd) as (Hn2 & Hkeep2 & Hall2); [|done|].
    { intros c' Hc' Hin. apply Hkeys1 in Hin as [Hin| ->]; [|done].
      revert Hin. apply Hnew. by apply list_elem_of_further. }
    split; [done|]. split; [auto|].
    intros c' funcs f Hc' He Hf. apply elem_of_cons in Hc' as [->|Hc'].
    + destruct Hn1 as (Hseen1 & _).
      apply (Hall1 funcs f He) in Hf. apply Hseen1 in Hf as [c' Hl].
      exists c'. by apply Hkeep2.
    + by apply (Hall2 c' funcs f).
Qed.

End Step.

End CategoriesFacts.

Module CategoryTable.
Import Index IndexFacts Categories CategoriesSpec MembersFacts2 CategoriesFacts.

(** X22. Whatever order the host's collation gives,
    [normalizePhpFunctionsByCategory] returns a table in which every
    category has one list, non-empty and without repetition, of functions
    the source has under that category; every function of the source is
    listed, and under one category only. *)
Theorem categories_partition
  (order : list string -> list string)
  (source : list (string * list string)) (preferredOrder : list string) :
  (forall l x, x ∈ order l <-> x ∈ l) ->
  let table := normalizePhpFunctionsByCategory order source preferredOrder in
  NoDup (List.map fst table)
  /\ (forall c fs, (c, fs) ∈ table ->
        fs <> [] /\ NoDup fs
        /\ forall f, f ∈ fs -> exists funcs, entry c source = Some funcs /\ f ∈ funcs)
  /\ (forall c1 c2 f, Listed table c1 f -> Listed table c2 f -> c1 = c2)
  /\ (forall c funcs f, entry c source = Some funcs -> f ∈ funcs ->
        exists c', Listed table c' f).
Proof.
  intros Horder table. unfold table, normalizePhpFunctionsByCategory.
  destruct (categories_normal order Horder source
              (categoriesOf order source preferredOrder) [] [])
    as ((_ & Hlists & Hone & Hkeys) & _ & Hall).
  - unfold categoriesOf. apply fold_setAdd_nodup, distinct_nodup.
  - intros c _ H. by apply elem_of_nil in H.
  - split; [|split; [|split]].
    + intros f. split; [intros H; by apply elem_of_nil in H|].
      intros (c & fs & H & _). by apply elem_of_nil in H.
    + intros c fs H. by apply elem_of_nil in H.
    + intros c1 c2 f (fs & H & _). by apply elem_of_nil in H.
    + constructor.
  - split; [done|]. split; [done|]. split; [done|].
    intros c funcs f He Hf. apply (Hall c funcs f); [|done|done].
    unfold categoriesOf. apply fold_setAdd_elem. right.
    apply Horder. by apply entry_key in He.
Qed.

End CategoryTable.

(** ** The debouncer *)

Module DebounceFacts.
Import Debounce.

Section Facts.
Context {Fn : Type}.
Implicit Types st : State Fn.

Lemma fold_delete_lookup (ids : list nat) : forall (p : gmap nat (string * Fn)) id,
  fold_left (fun p id => delete id p) ids p !! id
  = if bool_decide (id ∈ ids) then None else p !! id.
Proof.
  induction ids as [|i ids IH]; intros p id; cbn [fold_left].
  - by rewrite bool_decide_eq_false_2 by apply not_elem_of_nil.
  - rewrite IH. destruct (decide (id = i)) as [->|Hne].
    + rewrite (bool_decide_eq_true_2 (i ∈ i :: ids)) by apply list_elem_of_here.
      rewrite lookup_delete_eq. by case_bool_decide.
    + rewrite lookup_delete_ne by done.
      case_bool_decide as H1; case_bool_decide as H2; try done.
      * exfalso. apply H2. by apply list_elem_of_further.
      * exfalso. apply elem_of_cons in H2 as [|]; done.
Qed.

Lemma consistent_initial : Consistent (@initial Fn).
Proof.
  split.
  - intros key id. cbn. rewrite lookup_empty. split; [done|].
    intros [fn H]. by rewrite lookup_empty in H.
  - intros id [x H]. cbn in H. by rewrite lookup_empty in H.
Qed.

Lemma clearFor_lookup key st id :
  Consistent st ->
  clearFor key st !! id
  = match pending st !! id with
    | Some (k, fn) => if bool_decide (k = key) then None else Some (k, fn)
    | None => None
    end.
Proof.
  intros [Hmap _]. unfold clearFor.
  destruct (timers st !! key) as [t|] eqn:Et.
  - destruct (decide (id = t)) as [->|Hne].
    + rewrite lookup_delete_eq. apply Hmap in Et as [fn Hfn]. rewrite Hfn.
      by rewrite bool_decide_eq_true_2.
    + rewrite lookup_delete_ne by done.
      destruct (pending st !! id) as [[k fn]|] eqn:Ep; [|done].
      case_bool_decide as Hk; [|done]. subst k.
      assert (Hid : timers st !! key = Some id) by (apply Hmap; eauto).
      congruence.
  - destruct (pending st !! id) as [[k fn]|] eqn:Ep; [|done].
    case_bool_decide as Hk; [|done]. subst k.
    assert (Hid : timers st !! key = Some id) by (apply Hmap; eauto).
    congruence.
Qed.

Lemma consistent_debounce key fn st :
  Consistent st -> Consistent (debounce key fn st).
Proof.
  intros Hc. pose proof Hc as [Hmap Hfresh]. split.
  - intros k id. cbn [debounce timers pending].
    destruct (decide (id = nextId st)) as [->|Hid].
    + rewrite lookup_insert_eq. destruct (decide (k = key)) as [->|Hk].
      * rewrite lookup_insert_eq. split; [eauto | done].
      * rewrite lookup_insert_ne by done. split.
        -- intros H. apply Hmap in H as [g Hg].
           assert (nextId st < nextId st) by (apply Hfresh; eauto). lia.
        -- intros [g [= -> _]]. done.
    + rewrite (lookup_insert_ne _ (nextId st) id) by done.
      rewrite clearFor_lookup by done.
      destruct (decide (k = key)) as [->|Hk].
      * rewrite lookup_insert_eq. split; [intros [= <-]; done|].
        intros [g Hg]. destruct (pending st !! id) as [[k' f']|]; [|done].
        case_bool_decide; [done|]. congruence.
      * rewrite lookup_insert_ne by done. rewrite Hmap. split.
        -- intros [g Hg]. exists g. rewrite Hg. by rewrite bool_decide_eq_false_2.
        -- intros [g Hg]. destruct (pending st !! id) as [[k' f']|]; [|done].
           case_bool_decide; [done|]. injection Hg as -> ->. eauto.
  - intros id. cbn [debounce pending nextId].
    destruct (decide (id = nextId st)) as [->|Hid]; [lia|].
    rewrite lookup_insert_ne by done. rewrite clearFor_lookup by done.
    intros [x Hx]. destruct (pending st !! id) as [[k' f']|] eqn:Ep; [|done].
    assert (id < nextId st) by (apply Hfresh; eauto). lia.
Qed.

Lemma consistent_removed key id st :
  Consistent st -> timers st !! key = Some id ->
  forall called',
    Consistent (mkState (delete key (timers st)) (delete id (pending st))
                           (nextId st) called').
Proof.
  intros [Hmap Hfresh] Ht called'. split.
  - intros k i. cbn [timers pending].
    destruct (decide (k = key)) as [->|Hk].
    + rewrite lookup_delete_eq. split; [done|].
      intros [g Hg]. destruct (decide (i = id)) as [->|Hi].
      * by rewrite lookup_delete_eq in Hg.
      * rewrite lookup_delete_ne in Hg by done.
        assert (timers st !! key = Some i) by (apply Hmap; eauto). congruence.
    + rewrite lookup_delete_ne by done.
      destruct (decide (i = id)) as [->|Hi].
      * rewrite lookup_delete_eq. split; [|intros [g Hg]; done].
        intros H. apply Hmap in H as [g Hg]. apply Hmap in Ht as [g' Hg']. congruence.
      * rewrite lookup_delete_ne by done. apply Hmap.
  - intros i. cbn [pending nextId]. destruct (decide (i = id)) as [->|Hi].
    + rewrite lookup_delete_eq. by intros [x Hx].
    + rewrite lookup_delete_ne by done. apply Hfresh.
Qed.

Lemma consistent_expire id st : Consistent st -> Consistent (expire id st).
Proof.
  intros Hc. unfold expire. destruct (pending st !! id) as [[key fn]|] eqn:Ep; [|done].
  apply consistent_removed; [done|]. apply Hc. eauto.
Qed.

Lemma consistent_cancel key st : Consistent st -> Consistent (cancel key st).
Proof.
  intros Hc. unfold cancel. destruct (timers st !! key) as [id|] eqn:Et; [|done].
  by apply consistent_removed.
Qed.

Lemma cancelAll_pending st :
  Consistent st -> pending (cancelAll st) = ∅.
Proof.
  intros [Hmap _]. apply map_eq. intros id. cbn [cancelAll pending].
  rewrite fold_delete_lookup, lookup_empty.
  case_bool_decide as Hin; [done|].
  destruct (pending st !! id) as [[k fn]|] eqn:Ep; [|done].
  exfalso. apply Hin.
  assert (Ht : timers st !! k = Some id) by (apply Hmap; eauto).
  apply list_elem_of_In, in_map_iff. exists (k, id).
  split; [done|]. by apply list_elem_of_In, elem_of_map_to_list.
Qed.

Lemma consistent_cancelAll st : Consistent st -> Consistent (cancelAll st).
Proof.
  intros Hc. split.
  - intros key id. rewrite (cancelAll_pending st Hc). cbn [cancelAll timers].
    rewrite lookup_empty. split; [done|]. intros [g Hg]. by rewrite lookup_empty in Hg.
  - intros id. rewrite (cancelAll_pending st Hc). rewrite lookup_empty. by intros [x Hx].
Qed.

Lemma reachable_consistent st : Reachable st -> Consistent st.
Proof.
  induction 1 as [|key fn st _ IH|id st _ IH|key st _ IH|st _ IH].
  - apply consistent_initial.
  - by apply consistent_debounce.
  - by apply consistent_expire.
  - by apply consistent_cancel.
  - by apply consistent_cancelAll.
Qed.

End Facts.

End DebounceFacts.

Module DebounceLaws.
Import Debounce DebounceFacts.

(** X23. In every state a debouncer can reach, each key has at most one
    pending callback.  After [debounce(key, fn)] the key has a pending
    callback, the one that calls [fn]: when its timer expires [fn] is
    called and the key has no pending callback left; no other callback is
    pending for the key, so a function handed over earlier for it is never
    called by a timer set before; and the pending callbacks of the other
    keys are as they were.  After [cancel(key)] the key has no pending
    callback and those of the other keys are as they were; after
    [cancelAll()] no key has one. *)
Theorem one_pending_callback_per_key {Fn : Type} (st : State Fn) :
  Reachable st ->
  (forall key id1 id2 f1 f2,
     pending st !! id1 = Some (key, f1) -> pending st !! id2 = Some (key, f2) ->
     id1 = id2)
  /\ (forall key fn,
        let st' := debounce key fn st in
        (exists id,
           timers st' !! key = Some id
           /\ pending st' !! id = Some (key, fn)
           /\ called (expire id st') = called st ++ [fn]
           /\ forall id' f, pending (expire id st') !! id' <> Some (key, f))
        /\ (forall id f, pending st' !! id = Some (key, f) -> f = fn)
        /\ (forall key' id f, key' <> key ->
              (pending st' !! id = Some (key', f) <-> pending st !! id = Some (key', f))))
  /\ (forall key,
        (forall id f, pending (cancel key st) !! id <> Some (key, f))
        /\ (forall key' id f, key' <> key ->
              (pending (cancel key st) !! id = Some (key', f)
               <-> pending st !! id = Some (key', f))))
  /\ pending (cancelAll st) = ∅.
Proof.
  intros Hr. pose proof (reachable_consistent st Hr) as Hc.
  split; [|split; [|split]].
  - destruct Hc as [Hmap _]. intros key id1 id2 f1 f2 H1 H2.
    assert (E1 : timers st !! key = Some id1) by (apply Hmap; eauto).
    assert (E2 : timers st !! key = Some id2) by (apply Hmap; eauto).
    congruence.
  - intros key fn st'. split; [|split].
    + exists (nextId st).
      assert (Hp : pending st' !! nextId st = Some (key, fn)).
      { unfold st'. cbn [debounce pending]. apply lookup_insert_eq. }
      split; [unfold st'; cbn [debounce timers]; apply lookup_insert_eq|].
      split; [exact Hp|]. split.
      * unfold expire. rewrite Hp. done.
      * intros id' f H.
        assert (Hc' : Consistent (expire (nextId st) st')).
        { apply consistent_expire. by apply consistent_debounce. }
        destruct Hc' as [Hmap' _].
        assert (Ht : timers (expire (nextId st) st') !! key = Some id')
          by (apply Hmap'; eauto).
        unfold expire in Ht. rewrite Hp in Ht. cbn [timers] in Ht.
        by rewrite lookup_delete_eq in Ht.
    + intros id f. unfold st'. cbn [debounce pending].
      destruct (decide (id = nextId st)) as [->|Hid].
      * rewrite lookup_insert_eq. by intros [= <-].
      * rewrite lookup_insert_ne by done. rewrite clearFor_lookup by done.
        destruct (pending st !! id) as [[k g]|]; [|done].
        case_bool_decide; [done|]. congruence.
    + intros key' id f Hk. unfold st'. cbn [debounce pending].
      destruct (decide (id = nextId st)) as [->|Hid].
      * rewrite lookup_insert_eq. split; [intros [= -> _]; done|].
        intros H. destruct Hc as [_ Hfresh].
        assert (nextId st < nextId st) by (apply Hfresh; eauto). lia.
      * rewrite lookup_insert_ne by done. rewrite clearFor_lookup by done.
        destruct (pending st !! id) as [[k g]|]; [|done].
        case_bool_decide as Hkk; [|done]. subst k.
        split; [done|]. intros [= -> _]. done.
  - intros key. split.
    + intros id f H.
      pose proof (consistent_cancel key st Hc) as [Hmap' _].
      assert (Ht : timers (cancel key st) !! key = Some id) by (apply Hmap'; eauto).
      unfold cancel in Ht. destruct (timers st !! key) as [t|] eqn:Et.
      * cbn [timers] in Ht. by rewrite lookup_delete_eq in Ht.
      * congruence.
    + intros key' id f Hk. unfold cancel.
      destruct (timers st !! key) as [t|] eqn:Et; [|done].
      cbn [pending]. destruct (decide (id = t)) as [->|Hid].
      * rewrite lookup_delete_eq. destruct Hc as [Hmap _].
        apply Hmap in Et as [g Hg]. rewrite Hg. split; [done|].
        intros [= -> _]. done.
      * by rewrite lookup_delete_ne.
  - by apply cancelAll_pending.
Qed.

End DebounceLaws.

(** ** From the extractor to the member lists *)

Module SpanFacts.
Import Re ReSpec MembersSpec TrimFacts RangeFacts StringFacts ReFacts DocblockFacts.

Lemma take_app_length (x y : string) : Js.take (String.length x) (x ++ y) = x.
Proof.
  induction x as [|c x IH]; [by destruct y|].
  rewrite append_cons. cbn [String.length Js.take]. by rewrite IH.
Qed.

(** the units a run of a class passes over belong to the class *)
Lemma star_class_span b q g c e :
  In e (run b (Star g (Chr q)) c) ->
  exists x, rest c = (x ++ rest e)%string
            /\ pos e = (pos c + N.of_nat (String.length x))%N
            /\ every q x = true.
Proof.
  cbn [run].
  apply (iterate_property
           (fun c e => exists x, rest c = (x ++ rest e)%string
                                 /\ pos e = (pos c + N.of_nat (String.length x))%N
                                 /\ every q x = true)).
  - intros c0. exists "". split; [done|]. split; [cbn; lia | done].
  - intros c1 c2 c3 (x & Hx & Hp & Hq) (y & Hy & Hp' & Hq').
    exists (x ++ y)%string. split; [by rewrite Hx, Hy, append_assoc|].
    split; [rewrite Hp', Hp, length_append; lia|].
    by rewrite every_app, Hq, Hq'.
  - intros c0 e0 H. cbn [run] in H.
    destruct c0 as [p pv [|a t] cs]; cbn [next rest] in H; [done|].
    destruct (q a) eqn:Ea; [|done]. unfold step in H. cbn [rest pos caps] in H.
    destruct H as [<-|[]]. exists (String a ""). cbn [rest pos].
    split; [done|]. split; [cbn; lia|]. cbn [every]. by rewrite Ea.
Qed.

Lemma class_run_span b p q g c e :
  In e (run b (Seq (Chr p) (Star g (Chr q))) c) ->
  between c e <> "" /\ every (fun a => p a || q a) (between c e) = true.
Proof.
  intros H. cbn [run] in H. apply in_flat_map_run in H as (c1 & Hc1 & He).
  destruct c as [n pv [|a t] cs]; cbn [next rest] in Hc1; [done|].
  destruct (p a) eqn:Ea; [|done]. unfold step in Hc1. cbn [rest pos caps] in Hc1.
  destruct Hc1 as [<-|[]].
  change (In e (run b (Star g (Chr q)) (Cursor (N.succ n) (Some a) t cs))) in He.
  apply star_class_span in He as (x & Hx & Hp & Hq). cbn [rest pos] in Hx, Hp.
  unfold between. cbn [pos rest]. rewrite Hp, Hx.
  replace (N.to_nat (N.succ n + N.of_nat (String.length x) - n))
    with (String.length (String a x)) by (cbn [String.length]; lia).
  rewrite <- append_cons, take_app_length.
  split; [done|]. cbn [every]. rewrite Ea. cbn [orb andb].
  clear -Hq. induction x as [|y x IH]; [done|]. cbn [every] in *.
  apply andb_true_iff in Hq as [Hy Hx]. rewrite Hy, orb_true_r. cbn [andb]. auto.
Qed.

Lemma identStart_identChar a : Chars.identStart a || Chars.identChar a = Chars.identChar a.
Proof.
  unfold Chars.identStart, Chars.identChar, Chars.word.
  destruct (Chars.upper a), (Chars.lower a), (Chars.digit a), (Chars.isC "_" a),
    (Chars.high a); reflexivity.
Qed.

(** the group put around an identifier holds a non-empty name of
    identifier units *)
Lemma execAll_ident_group n r s m :
  Captures n Scanner.ident r -> In m (execAll r s) ->
  group n m <> "" /\ every Chars.identChar (group n m) = true.
Proof.
  intros Hc H. apply execLoop_search in H as (c' & H). unfold search in H.
  apply searchFrom_matchAt in H as (p' & pv' & s' & H).
  apply matchAt_run in H as (e & He & Hg & _).
  destruct (run_captures _ _ _ _ _ _ Hc He) as (c0 & e0 & He0 & Hcap).
  unfold group. rewrite Hg, Hcap. unfold Scanner.ident in He0.
  apply class_run_span in He0 as [Hne Hev]. split; [done|].
  rewrite (every_ext _ (fun a => Chars.identStart a || Chars.identChar a)); [done|].
  intros a. by rewrite identStart_identChar.
Qed.

End SpanFacts.

Module MemberKeyFacts.
Import Re ReSpec Scanner Extractor ExtractorSpec Index IndexSpec MembersSpec MemberKeys
       DeclarationSpec DeclarationFacts
       TrimFacts RangeFacts StringFacts ReFacts DocblockFacts SpanFacts PatternFacts
       IndexFacts ExtractorFacts.

Lemma identChar_no_colon a : Chars.identChar a = true -> Ascii.eqb ":" a = false.
Proof.
  intros H. destruct (Ascii.eqb ":" a) eqn:E; [|done].
  apply Ascii.eqb_eq in E. subst a. discriminate H.
Qed.

Lemma identChar_no_backslash a : Chars.identChar a = true -> Chars.isC "\" a = false.
Proof.
  intros H. destruct (Chars.isC "\" a) eqn:E; [|done].
  apply isC_eq in E. subst a. discriminate H.
Qed.

Lemma splitAux_plain b : forall cur,
  every Chars.identChar b = true ->
  Js.splitAux "::" 0 b cur = [(cur ++ b)%string].
Proof.
  induction b as [|c b IH]; intros cur H; cbn [Js.splitAux].
  - by rewrite append_empty_r.
  - cbn [every] in H. apply andb_true_iff in H as [Hc Hb].
    cbn [Js.startsWith]. rewrite (identChar_no_colon c Hc). cbn [andb].
    rewrite IH by done. by rewrite <- append_assoc.
Qed.

Lemma splitAux_member a : forall b cur,
  every Chars.identChar a = true -> every Chars.identChar b = true ->
  Js.splitAux "::" 0 (a ++ "::" ++ b) cur = [(cur ++ a)%string; b].
Proof.
  induction a as [|c a IH]; intros b cur Ha Hb.
  - change ("" ++ "::" ++ b)%string with (String ":" (String ":" b)).
    cbn [Js.splitAux Js.startsWith Ascii.eqb Bool.eqb andb String.length Nat.sub].
    rewrite append_empty_r. by rewrite (splitAux_plain b "").
  - rewrite append_cons. cbn [Js.splitAux].
    cbn [every] in Ha. apply andb_true_iff in Ha as [Hc Ha].
    cbn [Js.startsWith]. rewrite (identChar_no_colon c Hc). cbn [andb].
    rewrite IH by done. by rewrite <- append_assoc.
Qed.

Lemma member_of_key cn name :
  plainName cn -> plainName name ->
  Js.pop (Js.split "::" (cn ++ "::" ++ name)) = name.
Proof.
  intros [_ Hc] [_ Hn]. unfold Js.split. by rewrite splitAux_member.
Qed.

Lemma append_assoc_key (a b c : string) :
  (a ++ b ++ c)%string = ((a ++ b) ++ c)%string.
Proof. apply append_assoc. Qed.

Lemma startsWith_app p t : Js.startsWith p (p ++ t) = true.
Proof. apply startsWith_prefix. by exists t. Qed.

Lemma strip_plain cn : plainName cn -> stripLeadingBackslashes cn = cn.
Proof.
  intros [Hne Hc]. destruct cn as [|a t]; [done|].
  cbn [every] in Hc. apply andb_true_iff in Hc as [Ha _].
  apply identChar_no_backslash in Ha.
  unfold stripLeadingBackslashes, replaceFirst, exec, search, start.
  cbn [pos prev rest searchFrom].
  unfold leadingBackslashes, matchAt. cbn [pos prev rest].
  rewrite run_anchored_start. unfold Plus, C.
  rewrite run_seq, run_chr_cons, Ha. cbn [flat_map].
  by rewrite anchored_after_start.
Qed.

(** what a balanced declaration adds in the loop over the declarations *)
Lemma classDecl_emits d ns acc m :
  unbalanced (getText d) m = false ->
  forall s,
    s ∈ memberSymbols d ns (group 2 m) (qualify ns (group 2 m))
          (Js.indexOf "{" (index m) (getText d)) (classBodyOf (getText d) m) ->
    s ∈ snd (classDecl d ns acc m).
Proof.
  unfold unbalanced, classDecl, classBodyOf. cbn zeta. intros H s Hs.
  apply orb_false_iff in H as [H1 H2]. rewrite H1, H2. cbn [snd].
  apply elem_of_app. right. apply list_elem_of_further.
  apply elem_of_app. by right.
Qed.

Lemma classDecl_keeps d ns acc m s : s ∈ snd acc -> s ∈ snd (classDecl d ns acc m).
Proof.
  unfold classDecl. cbn zeta. intros Hs.
  destruct (_ =? -1)%Z; [done|]. destruct (_ =? -1)%Z; [done|].
  cbn [snd]. apply elem_of_app. by left.
Qed.

Lemma fold_classDecl_keeps d ns ms : forall acc s,
  s ∈ snd acc -> s ∈ snd (fold_left (classDecl d ns) ms acc).
Proof.
  induction ms as [|m ms IH]; intros acc s Hs; cbn [fold_left]; [done|].
  by apply IH, classDecl_keeps.
Qed.

Lemma fold_classDecl_emits d ns ms : forall acc m s,
  m ∈ ms -> unbalanced (getText d) m = false ->
  s ∈ memberSymbols d ns (group 2 m) (qualify ns (group 2 m))
        (Js.indexOf "{" (index m) (getText d)) (classBodyOf (getText d) m) ->
  s ∈ snd (fold_left (classDecl d ns) ms acc).
Proof.
  induction ms as [|m0 ms IH]; intros acc m s Hm Hb Hs; cbn [fold_left].
  - by apply elem_of_nil in Hm.
  - apply elem_of_cons in Hm as [->|Hm].
    + by apply fold_classDecl_keeps, classDecl_emits.
    + by apply (IH _ m).
Qed.

(** the text the loop scans for members is the body told from the text *)
Lemma body_of_balanced text m body :
  BodyOf text (index m) body ->
  unbalanced text m = false /\ classBodyOf text m = body.
Proof.
  intros (o & n & Ho & Hc & ->). unfold unbalanced, classBodyOf. cbn zeta.
  rewrite (indexOf_first text (index m) o Ho).
  rewrite (findMatchingBrace_closed text o n Hc).
  split.
  - rewrite (proj2 (Z.eqb_neq (Z.of_nat o) (-1)) ltac:(lia)).
    by rewrite (proj2 (Z.eqb_neq (Z.of_nat (o + n)) (-1)) ltac:(lia)).
  - unfold Js.slice.
    rewrite (proj2 (Z.ltb_ge (Z.of_nat o) 0) ltac:(lia)).
    rewrite (proj2 (Z.ltb_ge (Z.of_nat (o + n) + 1) 0) ltac:(lia)).
    cbn [orb]. rewrite Nat2Z.id.
    replace (Z.to_nat (Z.of_nat (o + n) + 1) - o) with (S n) by lia. done.
Qed.

Lemma balanced_body_of text m :
  unbalanced text m = false -> BodyOf text (index m) (classBodyOf text m).
Proof.
  intros H. unfold unbalanced in H. cbn zeta in H.
  apply orb_false_iff in H as [H1 H2].
  destruct (indexOf_brace_spec text (index m)) as [[Hr _]|(o & Hr & Ho)].
  { rewrite Hr in H1. discriminate. }
  rewrite Hr in H2.
  destruct (findMatchingBrace_spec text o) as [[Hf _]|(n & Hf & Hc)].
  { rewrite Hf in H2. discriminate. }
  assert (Hb : BodyOf text (index m) (Js.take (S n) (Js.drop o text)))
    by (exists o, n; done).
  by rewrite (proj2 (body_of_balanced text m _ Hb)).
Qed.

(** the symbol of a method of a balanced declaration is among the symbols
    extracted *)
Lemma method_symbol_extracted d mc mm :
  mc ∈ execAll classDeclRe (getText d) ->
  unbalanced (getText d) mc = false ->
  mm ∈ execAll functionRe (classBodyOf (getText d) mc) ->
  exists s, s ∈ extractPhpSymbolsFromDocument d
            /\ key s = (group 2 mc ++ "::" ++ group 1 mm)%string.
Proof.
  intros Hmc Hb Hmm.
  set (ns := getPhpNamespace (getText d)).
  set (bs := Js.indexOf "{" (index mc) (getText d)).
  set (s := mkSymbol (group 2 mc ++ "::" ++ group 1 mm)
              (locOf d (nameOffset bs mm (group 1 mm))) Method
              (extractPhpFunctionSignatureNearOffset (getText d)
                 (nameOffset bs mm (group 1 mm)))
              (Some (memberOf (group 2 mc)))).
  exists s. split; [|done].
  unfold extractPhpSymbolsFromDocument. cbn zeta. fold ns.
  pose proof (fold_classDecl_emits d ns (execAll classDeclRe (getText d)) ([], []) mc s
                Hmc Hb) as H.
  destruct (fold_left _ _ _) as [ranges symbols]. cbn [snd] in H.
  apply elem_of_app. left. apply H.
  unfold memberSymbols. apply elem_of_app. left.
  apply list_elem_of_In, in_flat_map. exists mm.
  split; [by apply list_elem_of_In|]. unfold methodSymbols. by left.
Qed.

End MemberKeyFacts.

Module MemberKeyLaws.
Import Re ReSpec Scanner Extractor ExtractorSpec Index IndexSpec MembersSpec MemberKeys
       DeclarationSpec ReFacts SpanFacts IndexFacts ExtractorFacts CacheFacts MemberKeyFacts.

(** X24. In every state the index operations can reach, once a PHP
    document is indexed, every function declaration that the pattern for
    functions finds in the body of a type declaration is reported by
    [getPhpMembersForClass] for the name of the type: among the constants
    when its name has the constant shape, among the methods otherwise.
    The body is the text from the first opening brace at or after the start
    of the declaration to the first closing brace at which the braces
    counted from there balance; every brace counts, also one in a string or
    a comment, so the body may end before the class does. *)
Theorem declared_methods_reported
  (st : State) (d : Document) (mc mm : result) (body : string) :
  Reachable st ->
  languageId d = "php" ->
  mc ∈ execAll classDeclRe (getText d) ->
  BodyOf (getText d) (index mc) body ->
  mm ∈ execAll functionRe body ->
  let name := group 1 mm in
  let members :=
    fst (getPhpMembersForClass (group 2 mc) (updatePhpIndexForDocument d st)) in
  if isConstantName name then name ∈ constants members else name ∈ methods members.
Proof.
  intros Hr Hphp Hmc Hbody Hmm name members.
  destruct (body_of_balanced (getText d) mc body Hbody) as [Hb Heq].
  rewrite <- Heq in Hmm.
  assert (Hcn : plainName (group 2 mc)).
  { apply (execAll_ident_group 2 classDeclRe (getText d)); [|by apply list_elem_of_In].
    unfold classDeclRe, seqs. captures. }
  assert (Hname : plainName name).
  { apply (execAll_ident_group 1 functionRe (classBodyOf (getText d) mc));
      [|by apply list_elem_of_In].
    unfold functionRe, seqs. captures. }
  destruct (method_symbol_extracted d mc mm Hmc Hb Hmm) as (s & Hs & Hkey).
  assert (Hfound : FoundUnder (phpWorkspaceIndex (updatePhpIndexForDocument d st))
                     (group 2 mc) name).
  { split; [apply Hcn|]. exists (key s). split; [|split; [|split]].
    - rewrite update_index by done.
      assert (Hin : location s
                    ∈ default [] (insertAll (extractPhpSymbolsFromDocument d)
                                    (phpWorkspaceIndex (deletePhpIndexForUri (uri d) st))
                                  !! key s)).
      { apply insertAll_elem; [done|]. rewrite Hkey.
        intros E. destruct (group 2 mc); [by destruct Hcn | discriminate]. }
      destruct (insertAll _ _ !! key s); [done | by apply elem_of_nil in Hin].
    - unfold memberKeyOf. rewrite Hkey.
      rewrite append_assoc_key. by rewrite startsWith_app.
    - rewrite Hkey. by apply member_of_key.
    - apply Hname. }
  unfold members.
  rewrite members_fresh;
    [|apply reachable_cacheOk; by apply reach_update
     |rewrite strip_plain by done; apply Hcn].
  rewrite strip_plain by done.
  destruct (isConstantName name) eqn:Ec.
  - apply computeMembers_constants; [apply Hcn | done].
  - apply computeMembers_methods; [apply Hcn | done].
Qed.

End MemberKeyLaws.

(** ** Worked instances *)

Module Instances.
Import Re Scanner Extractor Index IndexSpec MembersSpec IndexFacts Inference Samples.

(** disjointness of two concrete key lists, by evaluation *)
Lemma disjoint_by_evaluation (l1 l2 : list string) :
  forallb (fun k => negb (existsb (String.eqb k) l2)) l1 = true ->
  forall k, k ∈ l1 -> k ∉ l2.
Proof.
  intros H k Hk Hk'. rewrite forallb_forall in H.
  apply list_elem_of_In in Hk, Hk'. specialize (H k Hk).
  apply negb_true_iff in H.
  assert (existsb (String.eqb k) l2 = true); [|congruence].
  apply existsb_exists. exists k. split; [done | apply String.eqb_refl].
Qed.

Lemma exact_retraction_instance :
  let st' := updatePhpIndexForDocument onlyFunction
               (updatePhpIndexForDocument classWithFoo Index.initial) in
  (forall k loc, k ∈ fileKeys classWithFoo -> loc ∈ lookup k st' ->
                 loc_uri loc <> uri classWithFoo)
  /\ (forall k, k ∈ fileKeys classWithFoo -> phpWorkspaceIndex st' !! k <> Some [])
  /\ (forall s, s ∈ extractPhpSymbolsFromDocument onlyFunction ->
        key s ∈ fileKeys onlyFunction
        /\ location s ∈ lookup (key s) st' /\ loc_uri (location s) = uri classWithFoo).
Proof.
  apply Retraction.exact_retraction; [reflexivity | reflexivity | reflexivity |].
  apply disjoint_by_evaluation. vm_compute. reflexivity.
Defined.

Lemma version_after_mutation_instance :
  (phpWorkspaceIndexVersion Index.initial
   < phpWorkspaceIndexVersion (updatePhpIndexForDocument classWithFoo Index.initial))%Z
  /\ phpWorkspaceIndexVersion
       (deletePhpIndexForUri fileC (updatePhpIndexForDocument classWithFoo Index.initial))
     = (phpWorkspaceIndexVersion (updatePhpIndexForDocument classWithFoo Index.initial) + 1)%Z
  /\ deletePhpIndexForUri fileC Index.initial = Index.initial
  /\ updatePhpIndexForDocument plainText Index.initial = Index.initial.
Proof.
  split; [|split; [|split]].
  - apply (Version.version_after_mutation Index.initial classWithFoo fileC).
    reflexivity.
  - apply (Version.version_after_mutation
             (updatePhpIndexForDocument classWithFoo Index.initial) classWithFoo fileC).
    vm_compute. eauto.
  - apply (Version.version_after_mutation Index.initial classWithFoo fileC).
    reflexivity.
  - apply (Version.version_after_mutation Index.initial plainText fileC).
    vm_compute. discriminate.
Defined.

Lemma members_follow_index_instance :
  fst (getPhpMembersForClass "\C" (updatePhpIndexForDocument classWithFoo Index.initial))
  = computeMembers "C" (phpWorkspaceIndex (updatePhpIndexForDocument classWithFoo Index.initial)).
Proof.
  apply (proj1 Cache.members_follow_index
           (updatePhpIndexForDocument classWithFoo Index.initial) "\C").
  - apply reach_update, reach_initial.
  - vm_compute. discriminate.
Defined.

Lemma constant_or_method_instance :
  let members :=
    fst (getPhpMembersForClass "C"
           (updatePhpIndexForDocument shoutingMethod Index.initial)) in
  "FOO" ∈ constants members /\ "FOO" ∉ methods members.
Proof.
  pose proof (Classification.constant_or_method
                (updatePhpIndexForDocument shoutingMethod Index.initial) "C" "FOO"
                (reach_update _ _ reach_initial)) as (Hc & _ & Hn).
  split.
  - apply Hc. split; [|reflexivity].
    split; [vm_compute; discriminate|].
    exists "C::FOO". repeat split; try reflexivity.
    + vm_compute. eauto.
    + discriminate.
  - apply Hn. reflexivity.
Defined.

Lemma typed_assignment_reported_instance :
  inferPhpVariableTypes Index.initial reassigned (mkPosition 0 26) !! "$x"
  = Some "int".
Proof.
  apply (InferenceFacts.typed_assignment_reported Index.initial reassigned (mkPosition 0 26)
           [] [callAssignment] literalAssignment).
  - vm_compute. reflexivity.
  - vm_compute. discriminate.
  - intros pre m' post Hsplit _.
    destruct pre as [|x [|y pre]]; try discriminate Hsplit.
    injection Hsplit as <- _. vm_compute. reflexivity.
Defined.

Lemma unbalanced_declaration_skipped_instance :
  Forall ExtractorSpec.Free (extractPhpSymbolsFromDocument unbalancedClass).
Proof.
  apply Forall_forall.
  apply (proj2 (proj2 (proj2 (Unbalanced.unbalanced_declaration_skipped unbalancedClass)))).
  intros m Hm.
  pose proof Unbalanced.unbalancedClass_declarations as HF.
  rewrite Forall_forall in HF. by apply HF.
Defined.

Lemma local_definition_first_instance :
  exists loc,
    fst (fst (Resolver.provideDefinition sampleWorkspace declaresAndCalls (mkPosition 2 0)
                indexWithOtherF Routes.initialRoutes)) = Some [loc]
    /\ loc_uri loc = uri declaresAndCalls.
Proof.
  destruct (LocalFirst.local_definition_first sampleWorkspace declaresAndCalls
              (mkPosition 2 0) indexWithOtherF Routes.initialRoutes "f")
    as [Hfound Htext].
  - vm_compute. reflexivity.
  - discriminate.
  - vm_compute. reflexivity.
  - destruct (Hfound theDeclaration) as (loc & H1 & H2 & _).
    + vm_compute. reflexivity.
    + destruct (Htext "<?php
" ") { }
f();
") as (loc' & H1' & _); [reflexivity | reflexivity |].
      exists loc. by split.
Defined.


End Instances.

(** ** Worked instances of the further properties *)

Module MoreInstances.
Import Re Scanner Extractor Index IndexSpec MembersSpec IndexFacts Inference Samples
       BraceSpec RangeSpec CallHierarchy Calls CallsSpec IndexInvariant Resolver Routes
       Categories CategoriesSpec MoreSamples.

Lemma findMatchingBrace_first_balanced_instance :
  exists n, findMatchingBrace nestedBraces 1 = Z.of_nat (1 + n)
            /\ closesAt 0 (Js.drop 1 nestedBraces) n = true.
Proof.
  destruct (Braces.findMatchingBrace_first_balanced nestedBraces 1)
    as [[H _]|(n & H1 & H2 & _)].
  - vm_compute in H. discriminate.
  - exists n. by split.
Defined.

Lemma class_member_range_braced_instance :
  exists o c, 8%Z = Z.of_nat o /\ 11%Z = Z.of_nat (S c) /\ Braced smallClass o c.
Proof.
  apply (Ranges.class_member_range_braced smallClass "A" 8 11).
  vm_compute. reflexivity.
Defined.

Lemma function_body_range_braced_instance :
  exists o c, 14%Z = Z.of_nat (S o) /\ 20%Z = Z.of_nat c /\ Braced smallFunction o c.
Proof.
  apply (Ranges.function_body_range_braced smallFunction 9 14 20).
  vm_compute. reflexivity.
Defined.

Lemma parts_trimmed_substrings_instance :
  "string $b" <> "" /\ Js.trim "string $b" = "string $b"
  /\ exists a b, twoParameters = (a ++ "string $b" ++ b)%string.
Proof.
  apply (Parameters.parts_trimmed_substrings twoParameters "string $b").
  apply list_elem_of_In. vm_compute. auto.
Defined.

Lemma active_parameter_bounds_instance :
  countPhpActiveParameter "a, b" = countUnits (Chars.isC ",") "a, b".
Proof.
  apply (Parameters.active_parameter_bounds "a, b"). vm_compute. reflexivity.
Defined.

Lemma reachable_with_class : Reachable (updatePhpIndexForDocument classWithFoo Index.initial).
Proof. apply reach_update, reach_initial. Defined.

Lemma reachable_index_consistent_instance :
  let st := updatePhpIndexForDocument classWithFoo Index.initial in
  (forall k, phpWorkspaceIndex st !! k <> Some [])
  /\ (forall k loc, loc ∈ lookup k st ->
        exists keys, phpWorkspaceIndexKeysByUri st !! loc_uri loc = Some keys
                     /\ k ∈ keys).
Proof.
  apply (IndexLaws.reachable_index_consistent
           (updatePhpIndexForDocument classWithFoo Index.initial)).
  apply reachable_with_class.
Defined.

Lemma delete_removes_file_instance :
  let st := updatePhpIndexForDocument classWithFoo Index.initial in
  phpWorkspaceIndexKeysByUri (deletePhpIndexForUri fileC st) !! fileC = None.
Proof.
  apply (IndexLaws.delete_removes_file
           (updatePhpIndexForDocument classWithFoo Index.initial) fileC).
  apply reachable_with_class.
Defined.

Lemma index_then_delete_restores_instance :
  phpWorkspaceIndex
    (deletePhpIndexForUri (uri classWithFoo)
       (updatePhpIndexForDocument classWithFoo Index.initial))
  = phpWorkspaceIndex Index.initial.
Proof.
  apply (IndexLaws.index_then_delete_restores Index.initial classWithFoo).
  - apply reach_initial.
  - reflexivity.
Defined.

Lemma reindex_changes_nothing_instance :
  let st1 := updatePhpIndexForDocument classWithFoo
               (updatePhpIndexForDocument classWithBar Index.initial) in
  phpWorkspaceIndex (updatePhpIndexForDocument classWithFoo st1) = phpWorkspaceIndex st1.
Proof.
  apply (IndexLaws.reindex_changes_nothing
           (updatePhpIndexForDocument classWithBar Index.initial) classWithFoo).
  apply reach_update, reach_initial.
Defined.

Lemma workspace_build_lists_symbols_instance :
  Forall (fun s => location s
                   ∈ lookup (key s)
                       (ensurePhpWorkspaceIndex [Some otherF; Some classWithFoo]
                          Index.initial))
         (extractPhpSymbolsFromDocument classWithFoo).
Proof.
  apply Forall_forall. intros s Hs.
  apply (IndexLaws.workspace_build_lists_symbols
           [Some otherF; Some classWithFoo] Index.initial classWithFoo s).
  - apply (bool_decide_unpack _). vm_compute. exact I.
  - apply list_elem_of_further, list_elem_of_here.
  - reflexivity.
  - exact Hs.
Defined.

Lemma members_listed_once_instance :
  let members := fst (getPhpMembersForClass "C"
                        (updatePhpIndexForDocument classWithFoo Index.initial)) in
  NoDup (methods members) /\ NoDup (properties members) /\ NoDup (constants members).
Proof.
  apply (MemberLists.members_listed_once
           (updatePhpIndexForDocument classWithFoo Index.initial) "C").
  apply reachable_with_class.
Defined.

Lemma index_resolution_sound_instance :
  otherFDeclared <> []
  /\ exists key, phpWorkspaceIndex indexWithOtherF !! key = Some otherFDeclared.
Proof.
  apply (ResolverLaws.index_resolution_sound indexWithOtherF otherF (mkPosition 1 9)
           (mkReference Plain "f" "" "") otherFDeclared).
  vm_compute. reflexivity.
Defined.

Lemma definition_locations_sound_instance :
  localFDeclared <> [].
Proof.
  apply (ResolverLaws.definition_locations_sound sampleWorkspace declaresAndCalls
           (mkPosition 2 0) indexWithOtherF initialRoutes localFDeclared).
  vm_compute. reflexivity.
Defined.

Lemma inferred_types_come_from_assignments_instance :
  exists m, m ∈ execAll assignRe (windowText annotatedAssignment (mkPosition 0 35))
            /\ group 1 m = "$x".
Proof.
  apply (InferenceLaws.inferred_types_come_from_assignments Index.initial
           annotatedAssignment (mkPosition 0 35) "$x" "int").
  vm_compute. reflexivity.
Defined.

Lemma route_update_instance :
  (laravelRouteIndexVersion initialRoutes
   < laravelRouteIndexVersion (updateLaravelRouteIndexForDocument routesFile initialRoutes))%Z.
Proof.
  apply (RouteLaws.route_update routesFile initialRoutes).
  - reflexivity.
  - vm_compute. reflexivity.
Defined.

Lemma categories_partition_instance :
  NoDup (List.map fst (normalizePhpFunctionsByCategory sortNames functionTable preferred)).
Proof.
  apply (CategoryTable.categories_partition sortNames functionTable preferred).
  intros l x. apply MembersFacts.sortNames_elem.
Defined.

Lemma one_pending_callback_per_key_instance :
  let st := Debounce.debounce "a" 1 Debounce.initial in
  let st' := Debounce.debounce "a" 2 st in
  (exists id,
     Debounce.timers st' !! "a" = Some id
     /\ Debounce.pending st' !! id = Some ("a", 2)
     /\ Debounce.called (Debounce.expire id st') = Debounce.called st ++ [2]
     /\ forall id' f, Debounce.pending (Debounce.expire id st') !! id' <> Some ("a", f))
  /\ (forall id f, Debounce.pending st' !! id = Some ("a", f) -> f = 2)
  /\ (forall key' id f, key' <> "a" ->
        (Debounce.pending st' !! id = Some (key', f)
         <-> Debounce.pending st !! id = Some (key', f))).
Proof.
  intros st st'.
  apply (proj1 (proj2 (DebounceLaws.one_pending_callback_per_key st
                         (Debounce.reach_debounce _ "a" 1 _
                            (Debounce.reach_initial _))))
           "a" 2).
Defined.

Lemma declared_methods_reported_instance :
  "bar" ∈ methods (fst (getPhpMembersForClass "C"
                         (updatePhpIndexForDocument shoutingMethod Index.initial))).
Proof.
  pose proof (MemberKeyLaws.declared_methods_reported Index.initial shoutingMethod
                MemberSamples.theClass MemberSamples.theMethod
                (MemberKeys.classBodyOf (getText shoutingMethod) MemberSamples.theClass))
    as H.
  assert (H1 : Reachable Index.initial) by apply reach_initial.
  assert (H2 : languageId shoutingMethod = "php") by reflexivity.
  assert (H3 : MemberSamples.theClass ∈ execAll classDeclRe (getText shoutingMethod)).
  { vm_compute. left. }
  assert (H4 : DeclarationSpec.BodyOf (getText shoutingMethod)
                 (index MemberSamples.theClass)
                 (MemberKeys.classBodyOf (getText shoutingMethod) MemberSamples.theClass)).
  { apply MemberKeyFacts.balanced_body_of. vm_compute. reflexivity. }
  assert (H5 : MemberSamples.theMethod
               ∈ execAll functionRe
                   (MemberKeys.classBodyOf (getText shoutingMethod)
                      MemberSamples.theClass)).
  { vm_compute. right. left. }
  specialize (H H1 H2 H3 H4 H5).
  vm_compute in H. vm_compute. exact H.
Defined.

End MoreInstances.
